(** * OptSched: the priority ready list and the region scheduling pipeline

    A shallow embedding of [lib/Scheduler/cuda_ready_list.cu] and of
    [SchedRegion::FindOptimalSchedule] in
    [lib/Scheduler/cuda_sched_region.cu], with the properties of the
    design document stated and proved over it.

    Conventions.
    - [unsigned long] is a [Z] in [0, 2^64); [uint16_t] and [int16_t]
      counters are wrapped explicitly.  [InstCount] is C++ [int]: costs
      and lengths are compared and copied as [Z]; the one sum of two
      [InstCount] the function hands on, the final upper bound, is
      wrapped to 32 bits ([wrap_s32]).
    - [assert] is modelled as failure ([None]).
    - Instructions live in the dependency graph's array; an instruction
      index is a [nat] and an out-of-range [GetInstByIndx] is a failure. *)

From Stdlib Require Import ZArith Lia Bool String.
From stdpp Require Import base option list.

Local Open Scope Z_scope.

(** ** Machine integers *)

Definition ULONG_BITS : Z := 64.

Definition to_ulong (z : Z) : Z := z mod 2 ^ ULONG_BITS.
Definition wrap_u16 (z : Z) : Z := z mod 2 ^ 16.
Definition wrap_s16 (z : Z) : Z := (z + 2 ^ 15) mod 2 ^ 16 - 2 ^ 15.
Definition wrap_s32 (z : Z) : Z := (z + 2 ^ 31) mod 2 ^ 32 - 2 ^ 31.

(** ** Collaborators declared in headers outside the two source files *)

Module Utilities.
(** Modelled from the spec: [Utilities::clcltBitsNeededToHoldNum] is
    defined outside the sources at hand; the design document fixes a
    field at exactly ceil(log2(maxValue+1)) bits. *)
Definition clcltBitsNeededToHoldNum (value : Z) : Z := Z.log2_up (value + 1).
End Utilities.

Inductive LISTSCHED_HEURISTIC : Set :=
| LSH_CP | LSH_CPR | LSH_LUC | LSH_UC | LSH_NID | LSH_LLVM
| LSH_ISO | LSH_SC | LSH_LS.

(** [SchedPriorities]: [vctr] holds the configured criteria in order and
    [cnt] is its length. *)
Record SchedPriorities : Set := mkPrirts {
  isDynmc : bool;
  vctr : list LISTSCHED_HEURISTIC
}.

(** Modelled from the spec: [SchedInstruction] (data_dep.h).  The static
    priority attributes, the last-use count stored by the latest
    recomputation ([GetLastUseCnt]), the value a recomputation yields now
    ([CmputLastUseCnt], which depends on register state the ready list
    never writes), and the transient ready-queued flag. *)
Record SchedInstruction : Set := mkInst {
  num_ : nat;
  nodeID_ : Z;
  crtclPathBkwrd_ : Z;
  useCnt_ : Z;
  lastUseCnt_ : Z;
  pendingLastUseCnt_ : Z;
  scsrCnt_ : Z;
  ltncySum_ : Z;
  fileSchedOrder_ : Z;
  ready_ : bool
}.

Module SchedInst.
Definition GetNum (i : SchedInstruction) : nat := num_ i.
Definition GetNodeID (i : SchedInstruction) : Z := nodeID_ i.
Definition GetCrtclPath (i : SchedInstruction) : Z := crtclPathBkwrd_ i.
Definition GetUseCnt (i : SchedInstruction) : Z := useCnt_ i.
Definition GetLastUseCnt (i : SchedInstruction) : Z := lastUseCnt_ i.
Definition GetScsrCnt (i : SchedInstruction) : Z := scsrCnt_ i.
Definition GetLtncySum (i : SchedInstruction) : Z := ltncySum_ i.
Definition GetFileSchedOrder (i : SchedInstruction) : Z := fileSchedOrder_ i.
Definition IsInReadyList (i : SchedInstruction) : bool := ready_ i.

Definition set_ready (b : bool) (i : SchedInstruction) : SchedInstruction :=
  mkInst (num_ i) (nodeID_ i) (crtclPathBkwrd_ i) (useCnt_ i) (lastUseCnt_ i)
         (pendingLastUseCnt_ i) (scsrCnt_ i) (ltncySum_ i) (fileSchedOrder_ i) b.

Definition PutInReadyList : SchedInstruction -> SchedInstruction := set_ready true.
Definition RemoveFromReadyList : SchedInstruction -> SchedInstruction := set_ready false.

(** Recompute the last-use count: store it and return it. *)
Definition CmputLastUseCnt (i : SchedInstruction) : Z * SchedInstruction :=
  (pendingLastUseCnt_ i,
   mkInst (num_ i) (nodeID_ i) (crtclPathBkwrd_ i) (useCnt_ i)
          (pendingLastUseCnt_ i) (pendingLastUseCnt_ i) (scsrCnt_ i)
          (ltncySum_ i) (fileSchedOrder_ i) (ready_ i)).
End SchedInst.

(** Modelled from the spec: [DataDepGraph] (data_dep.h), as far as the
    ready list reads it: the instruction array and the attribute maxima. *)
Record DataDepGraph : Set := mkDDG {
  insts_ : list SchedInstruction;
  rootCrntLwrBound_ : Z;     (* GetRootInst()->GetCrntLwrBound(DIR_BKWRD) *)
  ddgMaxUseCnt_ : Z;
  ddgMaxFileSchedOrder_ : Z;
  ddgMaxScsrCnt_ : Z;
  ddgMaxLtncySum_ : Z
}.

Module DDG.
Definition GetInstCnt (g : DataDepGraph) : Z := Z.of_nat (length (insts_ g)).
Definition GetInstByIndx (g : DataDepGraph) (i : nat) : option SchedInstruction :=
  insts_ g !! i.
Definition set_insts (l : list SchedInstruction) (g : DataDepGraph) : DataDepGraph :=
  mkDDG l (rootCrntLwrBound_ g) (ddgMaxUseCnt_ g) (ddgMaxFileSchedOrder_ g)
        (ddgMaxScsrCnt_ g) (ddgMaxLtncySum_ g).
(** Write an instruction object back to its slot (the source mutates the
    object [GetInstByIndx] points to). *)
Definition store (i : nat) (x : SchedInstruction) (g : DataDepGraph) : DataDepGraph :=
  set_insts (<[i := x]> (insts_ g)) g.
End DDG.

(** Modelled from the spec: [PriorityArrayList<InstCount>] and
    [ArrayList<InstCount>] (cuda_lnkd_lst.cuh): an ordered container of
    (instruction number, key) pairs kept in descending key order, and a
    plain sequence of instruction indices. *)
Module PriorityArrayList.
Abbreviation t := (list (nat * Z)).

(** [InsrtElmnt(elmnt, key, allowDplct)]: insert in priority order,
    behind the entries whose key is not smaller. *)
Fixpoint InsrtElmnt (elmnt : nat) (key : Z) (l : t) : t :=
  match l with
  | [] => [(elmnt, key)]
  | (e, k) :: rest =>
      if k <? key then (elmnt, key) :: l
      else (e, k) :: InsrtElmnt elmnt key rest
  end.

Fixpoint RmvElmnt (elmnt : nat) (l : t) : t :=
  match l with
  | [] => []
  | (e, k) :: rest =>
      if Nat.eqb e elmnt then rest else (e, k) :: RmvElmnt elmnt rest
  end.

(** [BoostElmnt(elmnt, newKey)]: give the entry its new key and move it
    to the place that key has in the order. *)
Definition BoostElmnt (elmnt : nat) (newKey : Z) (l : t) : t :=
  InsrtElmnt elmnt newKey (RmvElmnt elmnt l).

Definition GetElmntCnt (l : t) : Z := Z.of_nat (length l).
End PriorityArrayList.

(** ** ReadyList *)

Record ReadyList : Set := mkReadyList {
  prirts_ : SchedPriorities;
  prirtyLst_ : PriorityArrayList.t;
  latestSubLst_ : list nat;
  useCntBits_ : Z;
  crtclPathBits_ : Z;
  scsrCntBits_ : Z;
  ltncySumBits_ : Z;
  nodeID_Bits_ : Z;
  inptSchedOrderBits_ : Z;
  maxUseCnt_ : Z;
  maxCrtclPath_ : Z;
  maxScsrCnt_ : Z;
  maxLtncySum_ : Z;
  maxNodeID_ : Z;
  maxInptSchedOrder_ : Z;
  maxPriority_ : Z
}.

Module RL.
Definition set_crtclPath (m b : Z) (r : ReadyList) : ReadyList :=
  mkReadyList (prirts_ r) (prirtyLst_ r) (latestSubLst_ r) (useCntBits_ r) b
    (scsrCntBits_ r) (ltncySumBits_ r) (nodeID_Bits_ r) (inptSchedOrderBits_ r)
    (maxUseCnt_ r) m (maxScsrCnt_ r) (maxLtncySum_ r) (maxNodeID_ r)
    (maxInptSchedOrder_ r) (maxPriority_ r).
Definition set_useCnt (m b : Z) (r : ReadyList) : ReadyList :=
  mkReadyList (prirts_ r) (prirtyLst_ r) (latestSubLst_ r) b (crtclPathBits_ r)
    (scsrCntBits_ r) (ltncySumBits_ r) (nodeID_Bits_ r) (inptSchedOrderBits_ r)
    m (maxCrtclPath_ r) (maxScsrCnt_ r) (maxLtncySum_ r) (maxNodeID_ r)
    (maxInptSchedOrder_ r) (maxPriority_ r).
Definition set_nodeID (m b : Z) (r : ReadyList) : ReadyList :=
  mkReadyList (prirts_ r) (prirtyLst_ r) (latestSubLst_ r) (useCntBits_ r)
    (crtclPathBits_ r) (scsrCntBits_ r) (ltncySumBits_ r) b (inptSchedOrderBits_ r)
    (maxUseCnt_ r) (maxCrtclPath_ r) (maxScsrCnt_ r) (maxLtncySum_ r) m
    (maxInptSchedOrder_ r) (maxPriority_ r).
Definition set_inptSchedOrder (m b : Z) (r : ReadyList) : ReadyList :=
  mkReadyList (prirts_ r) (prirtyLst_ r) (latestSubLst_ r) (useCntBits_ r)
    (crtclPathBits_ r) (scsrCntBits_ r) (ltncySumBits_ r) (nodeID_Bits_ r) b
    (maxUseCnt_ r) (maxCrtclPath_ r) (maxScsrCnt_ r) (maxLtncySum_ r) (maxNodeID_ r)
    m (maxPriority_ r).
Definition set_scsrCnt (m b : Z) (r : ReadyList) : ReadyList :=
  mkReadyList (prirts_ r) (prirtyLst_ r) (latestSubLst_ r) (useCntBits_ r)
    (crtclPathBits_ r) b (ltncySumBits_ r) (nodeID_Bits_ r) (inptSchedOrderBits_ r)
    (maxUseCnt_ r) (maxCrtclPath_ r) m (maxLtncySum_ r) (maxNodeID_ r)
    (maxInptSchedOrder_ r) (maxPriority_ r).
Definition set_ltncySum (m b : Z) (r : ReadyList) : ReadyList :=
  mkReadyList (prirts_ r) (prirtyLst_ r) (latestSubLst_ r) (useCntBits_ r)
    (crtclPathBits_ r) (scsrCntBits_ r) b (nodeID_Bits_ r) (inptSchedOrderBits_ r)
    (maxUseCnt_ r) (maxCrtclPath_ r) (maxScsrCnt_ r) m (maxNodeID_ r)
    (maxInptSchedOrder_ r) (maxPriority_ r).
Definition set_maxPriority (p : Z) (r : ReadyList) : ReadyList :=
  mkReadyList (prirts_ r) (prirtyLst_ r) (latestSubLst_ r) (useCntBits_ r)
    (crtclPathBits_ r) (scsrCntBits_ r) (ltncySumBits_ r) (nodeID_Bits_ r)
    (inptSchedOrderBits_ r) (maxUseCnt_ r) (maxCrtclPath_ r) (maxScsrCnt_ r)
    (maxLtncySum_ r) (maxNodeID_ r) (maxInptSchedOrder_ r) p.
Definition set_prirtyLst (l : PriorityArrayList.t) (r : ReadyList) : ReadyList :=
  mkReadyList (prirts_ r) l (latestSubLst_ r) (useCntBits_ r)
    (crtclPathBits_ r) (scsrCntBits_ r) (ltncySumBits_ r) (nodeID_Bits_ r)
    (inptSchedOrderBits_ r) (maxUseCnt_ r) (maxCrtclPath_ r) (maxScsrCnt_ r)
    (maxLtncySum_ r) (maxNodeID_ r) (maxInptSchedOrder_ r) (maxPriority_ r).
Definition set_latestSubLst (l : list nat) (r : ReadyList) : ReadyList :=
  mkReadyList (prirts_ r) (prirtyLst_ r) l (useCntBits_ r)
    (crtclPathBits_ r) (scsrCntBits_ r) (ltncySumBits_ r) (nodeID_Bits_ r)
    (inptSchedOrderBits_ r) (maxUseCnt_ r) (maxCrtclPath_ r) (maxScsrCnt_ r)
    (maxLtncySum_ r) (maxNodeID_ r) (maxInptSchedOrder_ r) (maxPriority_ r).
End RL.

(** [ReadyList::AddPrirtyToKey_]: the key and its size are passed by
    reference and come back as the result. *)
Definition AddPrirtyToKey_ (key keySize bitCnt val maxVal : Z) : option (Z * Z) :=
  if val <=? maxVal then
    let key1 := if 0 <? keySize then to_ulong (Z.shiftl key bitCnt) else key in
    Some (Z.lor key1 val, wrap_s16 (keySize + bitCnt))
  else None.

(** The first loop of the constructor: field widths and their running
    total ([uint16_t totKeyBits]). *)
Definition ctor_width (g : DataDepGraph) (acc : ReadyList * Z)
    (h : LISTSCHED_HEURISTIC) : ReadyList * Z :=
  let '(r, totKeyBits) := acc in
  match h with
  | LSH_CP | LSH_CPR =>
      let m := rootCrntLwrBound_ g in
      let b := Utilities.clcltBitsNeededToHoldNum m in
      (RL.set_crtclPath m b r, wrap_u16 (totKeyBits + b))
  | LSH_LUC | LSH_UC =>
      let m := ddgMaxUseCnt_ g in
      let b := Utilities.clcltBitsNeededToHoldNum m in
      (RL.set_useCnt m b r, wrap_u16 (totKeyBits + b))
  | LSH_NID | LSH_LLVM =>
      let m := DDG.GetInstCnt g - 1 in
      let b := Utilities.clcltBitsNeededToHoldNum m in
      (RL.set_nodeID m b r, wrap_u16 (totKeyBits + b))
  | LSH_ISO =>
      let m := ddgMaxFileSchedOrder_ g in
      let b := Utilities.clcltBitsNeededToHoldNum m in
      (RL.set_inptSchedOrder m b r, wrap_u16 (totKeyBits + b))
  | LSH_SC =>
      let m := ddgMaxScsrCnt_ g in
      let b := Utilities.clcltBitsNeededToHoldNum m in
      (RL.set_scsrCnt m b r, wrap_u16 (totKeyBits + b))
  | LSH_LS =>
      let m := ddgMaxLtncySum_ g in
      let b := Utilities.clcltBitsNeededToHoldNum m in
      (RL.set_ltncySum m b r, wrap_u16 (totKeyBits + b))
  end.

(** Width and maximum of the field a criterion occupies. *)
Definition fieldBits (r : ReadyList) (h : LISTSCHED_HEURISTIC) : Z :=
  match h with
  | LSH_CP | LSH_CPR => crtclPathBits_ r
  | LSH_LUC | LSH_UC => useCntBits_ r
  | LSH_NID | LSH_LLVM => nodeID_Bits_ r
  | LSH_ISO => inptSchedOrderBits_ r
  | LSH_SC => scsrCntBits_ r
  | LSH_LS => ltncySumBits_ r
  end.

Definition fieldMax (r : ReadyList) (h : LISTSCHED_HEURISTIC) : Z :=
  match h with
  | LSH_CP | LSH_CPR => maxCrtclPath_ r
  | LSH_LUC | LSH_UC => maxUseCnt_ r
  | LSH_NID | LSH_LLVM => maxNodeID_ r
  | LSH_ISO => maxInptSchedOrder_ r
  | LSH_SC => maxScsrCnt_ r
  | LSH_LS => maxLtncySum_ r
  end.

(** The second loop of the constructor: the key of the field maxima. *)
Definition ctor_maxkey (r : ReadyList) (acc : option (Z * Z))
    (h : LISTSCHED_HEURISTIC) : option (Z * Z) :=
  '(key, keySize) ← acc;
  match h with
  | LSH_CP | LSH_CPR =>
      AddPrirtyToKey_ key keySize (crtclPathBits_ r)
        (to_ulong (maxCrtclPath_ r)) (to_ulong (maxCrtclPath_ r))
  | LSH_LUC | LSH_UC =>
      AddPrirtyToKey_ key keySize (useCntBits_ r)
        (to_ulong (maxUseCnt_ r)) (to_ulong (maxUseCnt_ r))
  | LSH_NID | LSH_LLVM =>
      AddPrirtyToKey_ key keySize (nodeID_Bits_ r)
        (to_ulong (maxNodeID_ r)) (to_ulong (maxNodeID_ r))
  | LSH_ISO =>
      AddPrirtyToKey_ key keySize (inptSchedOrderBits_ r)
        (to_ulong (maxInptSchedOrder_ r)) (to_ulong (maxInptSchedOrder_ r))
  | LSH_SC =>
      AddPrirtyToKey_ key keySize (scsrCntBits_ r)
        (to_ulong (maxScsrCnt_ r)) (to_ulong (maxScsrCnt_ r))
  | LSH_LS =>
      AddPrirtyToKey_ key keySize (ltncySumBits_ r)
        (to_ulong (maxLtncySum_ r)) (to_ulong (maxLtncySum_ r))
  end.

(** The members before the constructor body runs.  The maxima of criteria
    that are not configured stay uninitialised in the source and are never
    read; they are 0 here. *)
Definition ReadyList_blank (prirts : SchedPriorities) : ReadyList :=
  mkReadyList prirts [] [] 0 0 0 0 0 0 0 0 0 0 0 0 0.

(** [ReadyList::ReadyList(dataDepGraph, prirts)]. *)
Definition ReadyList_new (g : DataDepGraph) (prirts : SchedPriorities)
    : option ReadyList :=
  let '(r, totKeyBits) :=
    fold_left (ctor_width g) (vctr prirts) (ReadyList_blank prirts, 0) in
  if totKeyBits <=? 8 * 8 then
    '(key, _) ← fold_left (ctor_maxkey r) (vctr prirts) (Some (0, 0));
    Some (RL.set_maxPriority key r)
  else None.

Definition MaxPriority (r : ReadyList) : Z := maxPriority_ r.

(** [ReadyList::CmputKey_(inst, isUpdate, changed)]: one criterion.  The
    accumulator carries the key, its size, the [changed] flag and the
    instruction (whose stored last-use count [LSH_LUC] rewrites). *)
Definition CmputKey_step (r : ReadyList)
    (acc : option (Z * Z * bool * SchedInstruction))
    (h : LISTSCHED_HEURISTIC) : option (Z * Z * bool * SchedInstruction) :=
  '(key, keySize, changed, inst) ← acc;
  match h with
  | LSH_CP | LSH_CPR =>
      '(k, ks) ← AddPrirtyToKey_ key keySize (crtclPathBits_ r)
                   (to_ulong (SchedInst.GetCrtclPath inst))
                   (to_ulong (maxCrtclPath_ r));
      Some (k, ks, changed, inst)
  | LSH_LUC =>
      let oldLastUseCnt := wrap_s16 (SchedInst.GetLastUseCnt inst) in
      let '(v, inst') := SchedInst.CmputLastUseCnt inst in
      let newLastUseCnt := wrap_s16 v in
      let changed' := if newLastUseCnt =? oldLastUseCnt then changed else true in
      '(k, ks) ← AddPrirtyToKey_ key keySize (useCntBits_ r)
                   (to_ulong newLastUseCnt) (to_ulong (maxUseCnt_ r));
      Some (k, ks, changed', inst')
  | LSH_UC =>
      '(k, ks) ← AddPrirtyToKey_ key keySize (useCntBits_ r)
                   (to_ulong (SchedInst.GetUseCnt inst))
                   (to_ulong (maxUseCnt_ r));
      Some (k, ks, changed, inst)
  | LSH_NID | LSH_LLVM =>
      '(k, ks) ← AddPrirtyToKey_ key keySize (nodeID_Bits_ r)
                   (to_ulong (maxNodeID_ r - SchedInst.GetNodeID inst))
                   (to_ulong (maxNodeID_ r));
      Some (k, ks, changed, inst)
  | LSH_ISO =>
      '(k, ks) ← AddPrirtyToKey_ key keySize (inptSchedOrderBits_ r)
                   (to_ulong (maxInptSchedOrder_ r - SchedInst.GetFileSchedOrder inst))
                   (to_ulong (maxInptSchedOrder_ r));
      Some (k, ks, changed, inst)
  | LSH_SC =>
      '(k, ks) ← AddPrirtyToKey_ key keySize (scsrCntBits_ r)
                   (to_ulong (SchedInst.GetScsrCnt inst))
                   (to_ulong (maxScsrCnt_ r));
      Some (k, ks, changed, inst)
  | LSH_LS =>
      '(k, ks) ← AddPrirtyToKey_ key keySize (ltncySumBits_ r)
                   (to_ulong (SchedInst.GetLtncySum inst))
                   (to_ulong (maxLtncySum_ r));
      Some (k, ks, changed, inst)
  end.

(** Returns the key, the [changed] out-parameter and the instruction as
    the call leaves it. *)
Definition CmputKey_ (r : ReadyList) (inst : SchedInstruction) (isUpdate : bool)
    : option (Z * bool * SchedInstruction) :=
  let changed := if isUpdate then false else true in
  '(key, _, changed', inst') ←
    fold_left (CmputKey_step r) (vctr (prirts_ r)) (Some (0, 0, changed, inst));
  Some (key, changed', inst').

(** The ready list and the dependency graph it points to
    ([dataDepGraph_]); the ready-queued flags live in the graph. *)
Record World : Set := mkWorld {
  ddg : DataDepGraph;
  rdy : ReadyList
}.

(** [ReadyList::AddInst(inst)]; [i] is the slot [inst] points to. *)
Definition AddInst (i : nat) (w : World) : option World :=
  inst ← DDG.GetInstByIndx (ddg w) i;
  '(key, changed, inst') ← CmputKey_ (rdy w) inst false;
  if (changed : bool) then
    Some (mkWorld (DDG.store i inst' (ddg w))
            (RL.set_prirtyLst
               (PriorityArrayList.InsrtElmnt (SchedInst.GetNum inst') key
                  (prirtyLst_ (rdy w)))
               (rdy w)))
  else None.

(** [ReadyList::AddLatestSubList_(lst)]: the loop, over the elements from
    the last to the first. *)
Fixpoint AddLatestSubList_loop (todo : list nat) (w : World) : option World :=
  match todo with
  | [] => Some w
  | crntInstNum :: rest =>
      crntInst ← DDG.GetInstByIndx (ddg w) crntInstNum;
      if SchedInst.IsInReadyList crntInst then Some w
      else
        w1 ← AddInst crntInstNum w;
        crntInst1 ← DDG.GetInstByIndx (ddg w1) crntInstNum;
        AddLatestSubList_loop rest
          (mkWorld
             (DDG.store crntInstNum (SchedInst.PutInReadyList crntInst1) (ddg w1))
             (RL.set_latestSubLst (latestSubLst_ (rdy w1) ++ [crntInstNum]) (rdy w1)))
  end.

Definition AddLatestSubList_ (lst : list nat) (w : World) : option World :=
  AddLatestSubList_loop (rev lst) w.

(** [ReadyList::AddLatestSubLists(lst1, lst2)]; a null list is [None]. *)
Definition AddLatestSubLists (lst1 lst2 : option (list nat)) (w : World)
    : option World :=
  if bool_decide (latestSubLst_ (rdy w) = []) then
    w1 ← match lst1 with
         | Some l => AddLatestSubList_ l w
         | None => Some w
         end;
    match lst2 with
    | Some l => AddLatestSubList_ l w1
    | None => Some w1
    end
  else None.

(** [ReadyList::RemoveLatestSubList()]. *)
Fixpoint RemoveLatestSubList_loop (todo : list nat) (g : DataDepGraph)
    : option DataDepGraph :=
  match todo with
  | [] => Some g
  | instNum :: rest =>
      inst ← DDG.GetInstByIndx g instNum;
      if SchedInst.IsInReadyList inst then
        RemoveLatestSubList_loop rest
          (DDG.store instNum (SchedInst.RemoveFromReadyList inst) g)
      else None
  end.

Definition RemoveLatestSubList (w : World) : option World :=
  g ← RemoveLatestSubList_loop (latestSubLst_ (rdy w)) (ddg w);
  Some (mkWorld g (rdy w)).

(** [ReadyList::AddList(lst)]. *)
Fixpoint AddList_loop (todo : list nat) (w : World) : option World :=
  match todo with
  | [] => Some w
  | crntInstNum :: rest => w1 ← AddInst crntInstNum w; AddList_loop rest w1
  end.

Definition AddList (lst : option (list nat)) (w : World) : option World :=
  match lst with
  | Some l => AddList_loop l w
  | None => Some w
  end.

(** [ReadyList::Reset()]. *)
Definition Reset (w : World) : World :=
  mkWorld (ddg w) (RL.set_latestSubLst [] (RL.set_prirtyLst [] (rdy w))).

Definition GetInstCnt (w : World) : Z :=
  PriorityArrayList.GetElmntCnt (prirtyLst_ (rdy w)).

(** [ReadyList::UpdatePriorities()]: the loop.  Modelled from the spec:
    the traversal of [prirtyLst_] reaches each queued instruction once,
    in the order the queue has when the call starts. *)
Fixpoint UpdatePriorities_loop (todo : list nat) (w : World) : option World :=
  match todo with
  | [] => Some w
  | instNum :: rest =>
      inst ← DDG.GetInstByIndx (ddg w) instNum;
      '(key, instChanged, inst') ← CmputKey_ (rdy w) inst true;
      let g := DDG.store instNum inst' (ddg w) in
      UpdatePriorities_loop rest
        (if (instChanged : bool) then
           mkWorld g
             (RL.set_prirtyLst
                (PriorityArrayList.BoostElmnt instNum key (prirtyLst_ (rdy w)))
                (rdy w))
         else mkWorld g (rdy w))
  end.

Definition UpdatePriorities (w : World) : option World :=
  if isDynmc (prirts_ (rdy w)) then
    UpdatePriorities_loop (map fst (prirtyLst_ (rdy w))) w
  else None.

(** ** The region pipeline: [SchedRegion::FindOptimalSchedule] *)

Inductive FUNC_RESULT : Set :=
| RES_SUCCESS | RES_FAIL | RES_TIMEOUT | RES_ERROR | RES_END.

Definition is_success (r : FUNC_RESULT) : bool :=
  match r with RES_SUCCESS => true | _ => false end.

(** Only [SCF_SLIL] is told apart by the pipeline. *)
Inductive SPILL_COST_FUNCTION : Set := SCF_SLIL | SCF_OTHER.

Definition is_SLIL (f : SPILL_COST_FUNCTION) : bool :=
  match f with SCF_SLIL => true | SCF_OTHER => false end.

Inductive BLOCKS_TO_KEEP : Set :=
| ZERO_COST | OPTIMAL | IMPROVED | IMPROVED_OR_OPTIMAL | ALL.

(** The schedule objects the function allocates; a null pointer is
    [None]. *)
Inductive SchedObj : Set :=
| LstSched            (* host_lstSched, the heuristic schedule *)
| AcoSched            (* AcoSchedule, before the search *)
| EnumCrntSched       (* enumCrntSched_ *)
| EnumBestSched       (* enumBestSched_ *)
| AcoAfterEnumSched.  (* AcoAfterEnumSchedule *)

Global Instance SchedObj_eq_dec : EqDecision SchedObj.
Proof. solve_decision. Defined.

Definition ptr_eqb (p q : option SchedObj) : bool := bool_decide (p = q).

(** Calls that leave the function. *)
Inductive Event : Set :=
| EvSetupForSchdulng (needTransitiveClosure : bool)
| EvApplyTrans (i : nat)
| EvUpdateSetupForSchdulng (needTransitiveClosure : bool)
| EvListSched
| EvFinishHurstc
| EvRunACO (out : SchedObj) (init : option SchedObj)
| EvCmputSchedUprBound
| EvSetHard
| EvEnumerate (reported : FUNC_RESULT)  (* Optimize_: the enumerator ran *)
| EvRegAlloc
| EvVerify (s : SchedObj)
| EvInvalidSchedule
| EvSetFinalBounds (lwr upr : Z)
| EvFinishOptml
| EvChkSchedule
| EvDeleteLstSchdulr
| EvDelete (s : SchedObj).

Definition INVALID_VALUE : Z := -1.

Record Rgn : Set := mkRgn {
  (* the caller's reference parameters *)
  isLstOptml : bool;
  bestCost : Z;
  bestSchedLngth : Z;
  hurstcCost : Z;
  hurstcSchedLngth : Z;
  bestSched : option SchedObj;
  (* members of the region *)
  bestSched_ : option SchedObj;
  bestCost_ : Z;
  bestSchedLngth_ : Z;
  hurstcCost_ : Z;
  enumCrntSched_ : option SchedObj;
  enumBestSched_ : option SchedObj;
  schedLwrBound_ : Z;
  schedUprBound_ : Z;
  costLwrBound_ : Z;
  (* locals of FindOptimalSchedule *)
  lstSchdulr : bool;
  lstSched : option SchedObj;
  AcoSchedule : option SchedObj;
  heuristicScheduleLength : Z;
  AcoScheduleLength_ : Z;
  AcoScheduleCost_ : Z;
  rslt : FUNC_RESULT;
  AcoBeforeEnum : bool;
  AcoAfterEnum : bool;
  InitialSchedule : option SchedObj;
  InitialScheduleCost : Z;
  InitialScheduleLength : Z;
  (* calls into the collaborators, oldest first *)
  events : list Event
}.

Definition set_isLstOptml (v : bool) (s : Rgn) : Rgn :=
  mkRgn v (bestCost s) (bestSchedLngth s) (hurstcCost s) (hurstcSchedLngth s)
    (bestSched s) (bestSched_ s) (bestCost_ s) (bestSchedLngth_ s)
    (hurstcCost_ s) (enumCrntSched_ s) (enumBestSched_ s) (schedLwrBound_ s)
    (schedUprBound_ s) (costLwrBound_ s) (lstSchdulr s) (lstSched s)
    (AcoSchedule s) (heuristicScheduleLength s) (AcoScheduleLength_ s)
    (AcoScheduleCost_ s) (rslt s) (AcoBeforeEnum s) (AcoAfterEnum s)
    (InitialSchedule s) (InitialScheduleCost s) (InitialScheduleLength s)
    (events s).
Definition set_bestCost (v : Z) (s : Rgn) : Rgn :=
  mkRgn (isLstOptml s) v (bestSchedLngth s) (hurstcCost s)
    (hurstcSchedLngth s) (bestSched s) (bestSched_ s) (bestCost_ s)
    (bestSchedLngth_ s) (hurstcCost_ s) (enumCrntSched_ s) (enumBestSched_ s)
    (schedLwrBound_ s) (schedUprBound_ s) (costLwrBound_ s) (lstSchdulr s)
    (lstSched s) (AcoSchedule s) (heuristicScheduleLength s)
    (AcoScheduleLength_ s) (AcoScheduleCost_ s) (rslt s) (AcoBeforeEnum s)
    (AcoAfterEnum s) (InitialSchedule s) (InitialScheduleCost s)
    (InitialScheduleLength s) (events s).
Definition set_bestSchedLngth (v : Z) (s : Rgn) : Rgn :=
  mkRgn (isLstOptml s) (bestCost s) v (hurstcCost s) (hurstcSchedLngth s)
    (bestSched s) (bestSched_ s) (bestCost_ s) (bestSchedLngth_ s)
    (hurstcCost_ s) (enumCrntSched_ s) (enumBestSched_ s) (schedLwrBound_ s)
    (schedUprBound_ s) (costLwrBound_ s) (lstSchdulr s) (lstSched s)
    (AcoSchedule s) (heuristicScheduleLength s) (AcoScheduleLength_ s)
    (AcoScheduleCost_ s) (rslt s) (AcoBeforeEnum s) (AcoAfterEnum s)
    (InitialSchedule s) (InitialScheduleCost s) (InitialScheduleLength s)
    (events s).
Definition set_hurstcCost (v : Z) (s : Rgn) : Rgn :=
  mkRgn (isLstOptml s) (bestCost s) (bestSchedLngth s) v (hurstcSchedLngth s)
    (bestSched s) (bestSched_ s) (bestCost_ s) (bestSchedLngth_ s)
    (hurstcCost_ s) (enumCrntSched_ s) (enumBestSched_ s) (schedLwrBound_ s)
    (schedUprBound_ s) (costLwrBound_ s) (lstSchdulr s) (lstSched s)
    (AcoSchedule s) (heuristicScheduleLength s) (AcoScheduleLength_ s)
    (AcoScheduleCost_ s) (rslt s) (AcoBeforeEnum s) (AcoAfterEnum s)
    (InitialSchedule s) (InitialScheduleCost s) (InitialScheduleLength s)
    (events s).
Definition set_hurstcSchedLngth (v : Z) (s : Rgn) : Rgn :=
  mkRgn (isLstOptml s) (bestCost s) (bestSchedLngth s) (hurstcCost s) v
    (bestSched s) (bestSched_ s) (bestCost_ s) (bestSchedLngth_ s)
    (hurstcCost_ s) (enumCrntSched_ s) (enumBestSched_ s) (schedLwrBound_ s)
    (schedUprBound_ s) (costLwrBound_ s) (lstSchdulr s) (lstSched s)
    (AcoSchedule s) (heuristicScheduleLength s) (AcoScheduleLength_ s)
    (AcoScheduleCost_ s) (rslt s) (AcoBeforeEnum s) (AcoAfterEnum s)
    (InitialSchedule s) (InitialScheduleCost s) (InitialScheduleLength s)
    (events s).
Definition set_bestSched (v : option SchedObj) (s : Rgn) : Rgn :=
  mkRgn (isLstOptml s) (bestCost s) (bestSchedLngth s) (hurstcCost s)
    (hurstcSchedLngth s) v (bestSched_ s) (bestCost_ s) (bestSchedLngth_ s)
    (hurstcCost_ s) (enumCrntSched_ s) (enumBestSched_ s) (schedLwrBound_ s)
    (schedUprBound_ s) (costLwrBound_ s) (lstSchdulr s) (lstSched s)
    (AcoSchedule s) (heuristicScheduleLength s) (AcoScheduleLength_ s)
    (AcoScheduleCost_ s) (rslt s) (AcoBeforeEnum s) (AcoAfterEnum s)
    (InitialSchedule s) (InitialScheduleCost s) (InitialScheduleLength s)
    (events s).
Definition set_bestSched_ (v : option SchedObj) (s : Rgn) : Rgn :=
  mkRgn (isLstOptml s) (bestCost s) (bestSchedLngth s) (hurstcCost s)
    (hurstcSchedLngth s) (bestSched s) v (bestCost_ s) (bestSchedLngth_ s)
    (hurstcCost_ s) (enumCrntSched_ s) (enumBestSched_ s) (schedLwrBound_ s)
    (schedUprBound_ s) (costLwrBound_ s) (lstSchdulr s) (lstSched s)
    (AcoSchedule s) (heuristicScheduleLength s) (AcoScheduleLength_ s)
    (AcoScheduleCost_ s) (rslt s) (AcoBeforeEnum s) (AcoAfterEnum s)
    (InitialSchedule s) (InitialScheduleCost s) (InitialScheduleLength s)
    (events s).
Definition set_bestCost_ (v : Z) (s : Rgn) : Rgn :=
  mkRgn (isLstOptml s) (bestCost s) (bestSchedLngth s) (hurstcCost s)
    (hurstcSchedLngth s) (bestSched s) (bestSched_ s) v (bestSchedLngth_ s)
    (hurstcCost_ s) (enumCrntSched_ s) (enumBestSched_ s) (schedLwrBound_ s)
    (schedUprBound_ s) (costLwrBound_ s) (lstSchdulr s) (lstSched s)
    (AcoSchedule s) (heuristicScheduleLength s) (AcoScheduleLength_ s)
    (AcoScheduleCost_ s) (rslt s) (AcoBeforeEnum s) (AcoAfterEnum s)
    (InitialSchedule s) (InitialScheduleCost s) (InitialScheduleLength s)
    (events s).
Definition set_bestSchedLngth_ (v : Z) (s : Rgn) : Rgn :=
  mkRgn (isLstOptml s) (bestCost s) (bestSchedLngth s) (hurstcCost s)
    (hurstcSchedLngth s) (bestSched s) (bestSched_ s) (bestCost_ s) v
    (hurstcCost_ s) (enumCrntSched_ s) (enumBestSched_ s) (schedLwrBound_ s)
    (schedUprBound_ s) (costLwrBound_ s) (lstSchdulr s) (lstSched s)
    (AcoSchedule s) (heuristicScheduleLength s) (AcoScheduleLength_ s)
    (AcoScheduleCost_ s) (rslt s) (AcoBeforeEnum s) (AcoAfterEnum s)
    (InitialSchedule s) (InitialScheduleCost s) (InitialScheduleLength s)
    (events s).
Definition set_hurstcCost_ (v : Z) (s : Rgn) : Rgn :=
  mkRgn (isLstOptml s) (bestCost s) (bestSchedLngth s) (hurstcCost s)
    (hurstcSchedLngth s) (bestSched s) (bestSched_ s) (bestCost_ s)
    (bestSchedLngth_ s) v (enumCrntSched_ s) (enumBestSched_ s)
    (schedLwrBound_ s) (schedUprBound_ s) (costLwrBound_ s) (lstSchdulr s)
    (lstSched s) (AcoSchedule s) (heuristicScheduleLength s)
    (AcoScheduleLength_ s) (AcoScheduleCost_ s) (rslt s) (AcoBeforeEnum s)
    (AcoAfterEnum s) (InitialSchedule s) (InitialScheduleCost s)
    (InitialScheduleLength s) (events s).
Definition set_enumCrntSched_ (v : option SchedObj) (s : Rgn) : Rgn :=
  mkRgn (isLstOptml s) (bestCost s) (bestSchedLngth s) (hurstcCost s)
    (hurstcSchedLngth s) (bestSched s) (bestSched_ s) (bestCost_ s)
    (bestSchedLngth_ s) (hurstcCost_ s) v (enumBestSched_ s)
    (schedLwrBound_ s) (schedUprBound_ s) (costLwrBound_ s) (lstSchdulr s)
    (lstSched s) (AcoSchedule s) (heuristicScheduleLength s)
    (AcoScheduleLength_ s) (AcoScheduleCost_ s) (rslt s) (AcoBeforeEnum s)
    (AcoAfterEnum s) (InitialSchedule s) (InitialScheduleCost s)
    (InitialScheduleLength s) (events s).
Definition set_enumBestSched_ (v : option SchedObj) (s : Rgn) : Rgn :=
  mkRgn (isLstOptml s) (bestCost s) (bestSchedLngth s) (hurstcCost s)
    (hurstcSchedLngth s) (bestSched s) (bestSched_ s) (bestCost_ s)
    (bestSchedLngth_ s) (hurstcCost_ s) (enumCrntSched_ s) v
    (schedLwrBound_ s) (schedUprBound_ s) (costLwrBound_ s) (lstSchdulr s)
    (lstSched s) (AcoSchedule s) (heuristicScheduleLength s)
    (AcoScheduleLength_ s) (AcoScheduleCost_ s) (rslt s) (AcoBeforeEnum s)
    (AcoAfterEnum s) (InitialSchedule s) (InitialScheduleCost s)
    (InitialScheduleLength s) (events s).
Definition set_schedLwrBound_ (v : Z) (s : Rgn) : Rgn :=
  mkRgn (isLstOptml s) (bestCost s) (bestSchedLngth s) (hurstcCost s)
    (hurstcSchedLngth s) (bestSched s) (bestSched_ s) (bestCost_ s)
    (bestSchedLngth_ s) (hurstcCost_ s) (enumCrntSched_ s) (enumBestSched_ s)
    v (schedUprBound_ s) (costLwrBound_ s) (lstSchdulr s) (lstSched s)
    (AcoSchedule s) (heuristicScheduleLength s) (AcoScheduleLength_ s)
    (AcoScheduleCost_ s) (rslt s) (AcoBeforeEnum s) (AcoAfterEnum s)
    (InitialSchedule s) (InitialScheduleCost s) (InitialScheduleLength s)
    (events s).
Definition set_schedUprBound_ (v : Z) (s : Rgn) : Rgn :=
  mkRgn (isLstOptml s) (bestCost s) (bestSchedLngth s) (hurstcCost s)
    (hurstcSchedLngth s) (bestSched s) (bestSched_ s) (bestCost_ s)
    (bestSchedLngth_ s) (hurstcCost_ s) (enumCrntSched_ s) (enumBestSched_ s)
    (schedLwrBound_ s) v (costLwrBound_ s) (lstSchdulr s) (lstSched s)
    (AcoSchedule s) (heuristicScheduleLength s) (AcoScheduleLength_ s)
    (AcoScheduleCost_ s) (rslt s) (AcoBeforeEnum s) (AcoAfterEnum s)
    (InitialSchedule s) (InitialScheduleCost s) (InitialScheduleLength s)
    (events s).
Definition set_costLwrBound_ (v : Z) (s : Rgn) : Rgn :=
  mkRgn (isLstOptml s) (bestCost s) (bestSchedLngth s) (hurstcCost s)
    (hurstcSchedLngth s) (bestSched s) (bestSched_ s) (bestCost_ s)
    (bestSchedLngth_ s) (hurstcCost_ s) (enumCrntSched_ s) (enumBestSched_ s)
    (schedLwrBound_ s) (schedUprBound_ s) v (lstSchdulr s) (lstSched s)
    (AcoSchedule s) (heuristicScheduleLength s) (AcoScheduleLength_ s)
    (AcoScheduleCost_ s) (rslt s) (AcoBeforeEnum s) (AcoAfterEnum s)
    (InitialSchedule s) (InitialScheduleCost s) (InitialScheduleLength s)
    (events s).
Definition set_lstSchdulr (v : bool) (s : Rgn) : Rgn :=
  mkRgn (isLstOptml s) (bestCost s) (bestSchedLngth s) (hurstcCost s)
    (hurstcSchedLngth s) (bestSched s) (bestSched_ s) (bestCost_ s)
    (bestSchedLngth_ s) (hurstcCost_ s) (enumCrntSched_ s) (enumBestSched_ s)
    (schedLwrBound_ s) (schedUprBound_ s) (costLwrBound_ s) v (lstSched s)
    (AcoSchedule s) (heuristicScheduleLength s) (AcoScheduleLength_ s)
    (AcoScheduleCost_ s) (rslt s) (AcoBeforeEnum s) (AcoAfterEnum s)
    (InitialSchedule s) (InitialScheduleCost s) (InitialScheduleLength s)
    (events s).
Definition set_lstSched (v : option SchedObj) (s : Rgn) : Rgn :=
  mkRgn (isLstOptml s) (bestCost s) (bestSchedLngth s) (hurstcCost s)
    (hurstcSchedLngth s) (bestSched s) (bestSched_ s) (bestCost_ s)
    (bestSchedLngth_ s) (hurstcCost_ s) (enumCrntSched_ s) (enumBestSched_ s)
    (schedLwrBound_ s) (schedUprBound_ s) (costLwrBound_ s) (lstSchdulr s) v
    (AcoSchedule s) (heuristicScheduleLength s) (AcoScheduleLength_ s)
    (AcoScheduleCost_ s) (rslt s) (AcoBeforeEnum s) (AcoAfterEnum s)
    (InitialSchedule s) (InitialScheduleCost s) (InitialScheduleLength s)
    (events s).
Definition set_AcoSchedule (v : option SchedObj) (s : Rgn) : Rgn :=
  mkRgn (isLstOptml s) (bestCost s) (bestSchedLngth s) (hurstcCost s)
    (hurstcSchedLngth s) (bestSched s) (bestSched_ s) (bestCost_ s)
    (bestSchedLngth_ s) (hurstcCost_ s) (enumCrntSched_ s) (enumBestSched_ s)
    (schedLwrBound_ s) (schedUprBound_ s) (costLwrBound_ s) (lstSchdulr s)
    (lstSched s) v (heuristicScheduleLength s) (AcoScheduleLength_ s)
    (AcoScheduleCost_ s) (rslt s) (AcoBeforeEnum s) (AcoAfterEnum s)
    (InitialSchedule s) (InitialScheduleCost s) (InitialScheduleLength s)
    (events s).
Definition set_heuristicScheduleLength (v : Z) (s : Rgn) : Rgn :=
  mkRgn (isLstOptml s) (bestCost s) (bestSchedLngth s) (hurstcCost s)
    (hurstcSchedLngth s) (bestSched s) (bestSched_ s) (bestCost_ s)
    (bestSchedLngth_ s) (hurstcCost_ s) (enumCrntSched_ s) (enumBestSched_ s)
    (schedLwrBound_ s) (schedUprBound_ s) (costLwrBound_ s) (lstSchdulr s)
    (lstSched s) (AcoSchedule s) v (AcoScheduleLength_ s) (AcoScheduleCost_ s)
    (rslt s) (AcoBeforeEnum s) (AcoAfterEnum s) (InitialSchedule s)
    (InitialScheduleCost s) (InitialScheduleLength s) (events s).
Definition set_AcoScheduleLength_ (v : Z) (s : Rgn) : Rgn :=
  mkRgn (isLstOptml s) (bestCost s) (bestSchedLngth s) (hurstcCost s)
    (hurstcSchedLngth s) (bestSched s) (bestSched_ s) (bestCost_ s)
    (bestSchedLngth_ s) (hurstcCost_ s) (enumCrntSched_ s) (enumBestSched_ s)
    (schedLwrBound_ s) (schedUprBound_ s) (costLwrBound_ s) (lstSchdulr s)
    (lstSched s) (AcoSchedule s) (heuristicScheduleLength s) v
    (AcoScheduleCost_ s) (rslt s) (AcoBeforeEnum s) (AcoAfterEnum s)
    (InitialSchedule s) (InitialScheduleCost s) (InitialScheduleLength s)
    (events s).
Definition set_AcoScheduleCost_ (v : Z) (s : Rgn) : Rgn :=
  mkRgn (isLstOptml s) (bestCost s) (bestSchedLngth s) (hurstcCost s)
    (hurstcSchedLngth s) (bestSched s) (bestSched_ s) (bestCost_ s)
    (bestSchedLngth_ s) (hurstcCost_ s) (enumCrntSched_ s) (enumBestSched_ s)
    (schedLwrBound_ s) (schedUprBound_ s) (costLwrBound_ s) (lstSchdulr s)
    (lstSched s) (AcoSchedule s) (heuristicScheduleLength s)
    (AcoScheduleLength_ s) v (rslt s) (AcoBeforeEnum s) (AcoAfterEnum s)
    (InitialSchedule s) (InitialScheduleCost s) (InitialScheduleLength s)
    (events s).
Definition set_rslt (v : FUNC_RESULT) (s : Rgn) : Rgn :=
  mkRgn (isLstOptml s) (bestCost s) (bestSchedLngth s) (hurstcCost s)
    (hurstcSchedLngth s) (bestSched s) (bestSched_ s) (bestCost_ s)
    (bestSchedLngth_ s) (hurstcCost_ s) (enumCrntSched_ s) (enumBestSched_ s)
    (schedLwrBound_ s) (schedUprBound_ s) (costLwrBound_ s) (lstSchdulr s)
    (lstSched s) (AcoSchedule s) (heuristicScheduleLength s)
    (AcoScheduleLength_ s) (AcoScheduleCost_ s) v (AcoBeforeEnum s)
    (AcoAfterEnum s) (InitialSchedule s) (InitialScheduleCost s)
    (InitialScheduleLength s) (events s).
Definition set_AcoBeforeEnum (v : bool) (s : Rgn) : Rgn :=
  mkRgn (isLstOptml s) (bestCost s) (bestSchedLngth s) (hurstcCost s)
    (hurstcSchedLngth s) (bestSched s) (bestSched_ s) (bestCost_ s)
    (bestSchedLngth_ s) (hurstcCost_ s) (enumCrntSched_ s) (enumBestSched_ s)
    (schedLwrBound_ s) (schedUprBound_ s) (costLwrBound_ s) (lstSchdulr s)
    (lstSched s) (AcoSchedule s) (heuristicScheduleLength s)
    (AcoScheduleLength_ s) (AcoScheduleCost_ s) (rslt s) v (AcoAfterEnum s)
    (InitialSchedule s) (InitialScheduleCost s) (InitialScheduleLength s)
    (events s).
Definition set_AcoAfterEnum (v : bool) (s : Rgn) : Rgn :=
  mkRgn (isLstOptml s) (bestCost s) (bestSchedLngth s) (hurstcCost s)
    (hurstcSchedLngth s) (bestSched s) (bestSched_ s) (bestCost_ s)
    (bestSchedLngth_ s) (hurstcCost_ s) (enumCrntSched_ s) (enumBestSched_ s)
    (schedLwrBound_ s) (schedUprBound_ s) (costLwrBound_ s) (lstSchdulr s)
    (lstSched s) (AcoSchedule s) (heuristicScheduleLength s)
    (AcoScheduleLength_ s) (AcoScheduleCost_ s) (rslt s) (AcoBeforeEnum s) v
    (InitialSchedule s) (InitialScheduleCost s) (InitialScheduleLength s)
    (events s).
Definition set_InitialSchedule (v : option SchedObj) (s : Rgn) : Rgn :=
  mkRgn (isLstOptml s) (bestCost s) (bestSchedLngth s) (hurstcCost s)
    (hurstcSchedLngth s) (bestSched s) (bestSched_ s) (bestCost_ s)
    (bestSchedLngth_ s) (hurstcCost_ s) (enumCrntSched_ s) (enumBestSched_ s)
    (schedLwrBound_ s) (schedUprBound_ s) (costLwrBound_ s) (lstSchdulr s)
    (lstSched s) (AcoSchedule s) (heuristicScheduleLength s)
    (AcoScheduleLength_ s) (AcoScheduleCost_ s) (rslt s) (AcoBeforeEnum s)
    (AcoAfterEnum s) v (InitialScheduleCost s) (InitialScheduleLength s)
    (events s).
Definition set_InitialScheduleCost (v : Z) (s : Rgn) : Rgn :=
  mkRgn (isLstOptml s) (bestCost s) (bestSchedLngth s) (hurstcCost s)
    (hurstcSchedLngth s) (bestSched s) (bestSched_ s) (bestCost_ s)
    (bestSchedLngth_ s) (hurstcCost_ s) (enumCrntSched_ s) (enumBestSched_ s)
    (schedLwrBound_ s) (schedUprBound_ s) (costLwrBound_ s) (lstSchdulr s)
    (lstSched s) (AcoSchedule s) (heuristicScheduleLength s)
    (AcoScheduleLength_ s) (AcoScheduleCost_ s) (rslt s) (AcoBeforeEnum s)
    (AcoAfterEnum s) (InitialSchedule s) v (InitialScheduleLength s)
    (events s).
Definition set_InitialScheduleLength (v : Z) (s : Rgn) : Rgn :=
  mkRgn (isLstOptml s) (bestCost s) (bestSchedLngth s) (hurstcCost s)
    (hurstcSchedLngth s) (bestSched s) (bestSched_ s) (bestCost_ s)
    (bestSchedLngth_ s) (hurstcCost_ s) (enumCrntSched_ s) (enumBestSched_ s)
    (schedLwrBound_ s) (schedUprBound_ s) (costLwrBound_ s) (lstSchdulr s)
    (lstSched s) (AcoSchedule s) (heuristicScheduleLength s)
    (AcoScheduleLength_ s) (AcoScheduleCost_ s) (rslt s) (AcoBeforeEnum s)
    (AcoAfterEnum s) (InitialSchedule s) (InitialScheduleCost s) v (events s).
Definition set_events (v : list Event) (s : Rgn) : Rgn :=
  mkRgn (isLstOptml s) (bestCost s) (bestSchedLngth s) (hurstcCost s)
    (hurstcSchedLngth s) (bestSched s) (bestSched_ s) (bestCost_ s)
    (bestSchedLngth_ s) (hurstcCost_ s) (enumCrntSched_ s) (enumBestSched_ s)
    (schedLwrBound_ s) (schedUprBound_ s) (costLwrBound_ s) (lstSchdulr s)
    (lstSched s) (AcoSchedule s) (heuristicScheduleLength s)
    (AcoScheduleLength_ s) (AcoScheduleCost_ s) (rslt s) (AcoBeforeEnum s)
    (AcoAfterEnum s) (InitialSchedule s) (InitialScheduleCost s)
    (InitialScheduleLength s) v.

Definition log (ev : Event) (s : Rgn) : Rgn := set_events (events s ++ [ev]) s.

(** What the function reads and calls: its arguments, the configuration,
    the constants of the region and the results of the collaborators
    (list scheduler, ant colony, enumerator, bound estimators, virtual
    hooks of the region). *)
Record Env : Type := mkEnv {
  rgnTimeout : Z;
  lngthTimeout : Z;
  filterByPerp : bool;
  blocksToKeep : BLOCKS_TO_KEEP;
  HEUR_ENABLED : bool;
  ACO_ENABLED : bool;
  ENUM_ENABLED : bool;
  ACO_BEFORE_ENUM : bool;
  ACO_AFTER_ENUM : bool;
  SIMULATE_REGISTER_ALLOCATION : string;
  vrfySched_ : bool;
  spillCostFunc_ : SPILL_COST_FUNCTION;
  isSecondPass_ : bool;
  InstCnt : Z;
  SetupForSchdulng : FUNC_RESULT;
  GraphTrans : list (FUNC_RESULT * FUNC_RESULT);  (* ApplyTrans, UpdateSetupForSchdulng *)
  GetSchedLwrBound : Z;
  CmputCostLwrBound : Z -> Z;                     (* from schedLwrBound_ *)
  rlxdFrwrdLwrBound : Z;
  rlxdBkwrdLwrBound : Z;
  CmputSchedUprBound : Z;
  lstSchdulr_FindSchedule : FUNC_RESULT;
  runACO : SchedObj -> FUNC_RESULT;
  GetCrntLngth : SchedObj -> Z;
  GetCost : SchedObj -> Z;
  PeakRegPressures : list (Z * Z);                (* peak pressure, physical registers *)
  EnableEnum_ : Rgn -> bool;
  Enumerate_ : Rgn -> FUNC_RESULT * Z * Z;        (* result, bestCost_, bestSchedLngth_ *)
  RegAllocCost : SchedObj -> Z;
  Verify : SchedObj -> bool;
  ChkSchedule_ : option SchedObj -> option SchedObj -> bool
}.

(** Where control is after a step. *)
Inductive Outcome : Set :=
| Go (s : Rgn)                         (* on to the next step *)
| Return (r : FUNC_RESULT) (s : Rgn)   (* the function returns [r] *)
| Abort.                               (* failed [assert] or null dereference *)

Definition andThen (o : Outcome) (k : Rgn -> Outcome) : Outcome :=
  match o with
  | Go s => k s
  | _ => o
  end.

Notation "o >>> k" := (andThen o k) (at level 50, left associativity).

(** [isBbEnabled(schedIni, rgnTimeout)]. *)
Definition isBbEnabled (e : Env) : bool :=
  if negb (ENUM_ENABLED e) then false
  else if rgnTimeout e <=? 0 then false
  else true.

Definition IsSecondPass (e : Env) : bool := isSecondPass_ e.

(** Entry: the locals, the cleared pointers and the configuration check. *)
Definition Step_Entry (e : Env) (s : Rgn) : Outcome :=
  let AcoBefore := if ACO_ENABLED e then ACO_BEFORE_ENUM e else false in
  let AcoAfter := if ACO_ENABLED e then ACO_AFTER_ENUM e else false in
  let s1 :=
    mkRgn (isLstOptml s) (bestCost s) (bestSchedLngth s) (hurstcCost s)
      (hurstcSchedLngth s) None
      None (bestCost_ s) (bestSchedLngth_ s) (hurstcCost_ s) None None
      (schedLwrBound_ s) (schedUprBound_ s) (costLwrBound_ s)
      false None None INVALID_VALUE INVALID_VALUE INVALID_VALUE RES_SUCCESS
      AcoBefore AcoAfter None 0 0
      (events s) in
  if negb (HEUR_ENABLED e) && negb AcoBefore then Return RES_ERROR s1
  else Go s1.

Definition needTransitiveClosure (e : Env) : bool :=
  isBbEnabled e || (0 <? Z.of_nat (length (GraphTrans e))) ||
  is_SLIL (spillCostFunc_ e).

(** The loop over the graph transformations. *)
Fixpoint ApplyGraphTrans (e : Env) (i : nat)
    (gts : list (FUNC_RESULT * FUNC_RESULT)) (s : Rgn) : Outcome :=
  match gts with
  | [] => Go s
  | (applied, updated) :: rest =>
      let s1 := log (EvApplyTrans i) (set_rslt applied s) in
      if negb (is_success applied) then Return applied s1
      else
        let s2 := log (EvUpdateSetupForSchdulng (needTransitiveClosure e))
                      (set_rslt updated s1) in
        if negb (is_success updated) then Return updated s2
        else ApplyGraphTrans e (S i) rest s2
  end.

Definition Step_Setup (e : Env) (s : Rgn) : Outcome :=
  let s1 := log (EvSetupForSchdulng (needTransitiveClosure e))
                (set_rslt (SetupForSchdulng e) s) in
  if negb (is_success (SetupForSchdulng e)) then Return (SetupForSchdulng e) s1
  else
    ApplyGraphTrans e 0 (GraphTrans e) s1 >>> fun s2 =>
    Go (set_schedLwrBound_ (GetSchedLwrBound e) s2).

(** [CmputLwrBounds_(false)]. *)
Definition CmputLwrBounds_ (e : Env) (s : Rgn) : Outcome :=
  let rlxdLwrBound := Z.max (rlxdFrwrdLwrBound e) (rlxdBkwrdLwrBound e) in
  if schedLwrBound_ s <=? rlxdLwrBound then
    let s1 := if schedLwrBound_ s <? rlxdLwrBound
              then set_schedLwrBound_ rlxdLwrBound s else s in
    Go (set_costLwrBound_ (CmputCostLwrBound e (schedLwrBound_ s1)) s1)
  else Abort.

Definition Step_LwrBounds (e : Env) (s : Rgn) : Outcome :=
  if negb (isBbEnabled e) then
    Go (set_costLwrBound_ (CmputCostLwrBound e (schedLwrBound_ s)) s)
  else CmputLwrBounds_ e s.

(** Step #1: the heuristic list scheduler. *)
Definition Step_Heuristic (e : Env) (s : Rgn) : Outcome :=
  if HEUR_ENABLED e || IsSecondPass e then
    let s1 := log EvListSched
                (set_rslt (lstSchdulr_FindSchedule e) (set_lstSchdulr true s)) in
    if negb (is_success (rslt s1)) then
      Return (rslt s1) (log EvDeleteLstSchdulr s1)
    else
      let s2 := set_lstSched (Some LstSched) s1 in
      let s3 := set_heuristicScheduleLength (GetCrntLngth e LstSched) s2 in
      let s4 := set_hurstcCost_ (GetCost e LstSched) s3 in
      let s5 :=
        if hurstcCost_ s4 =? 0 then
          set_bestCost_ (hurstcCost_ s4)
            (set_bestSchedLngth_ (heuristicScheduleLength s4)
               (set_bestSched_ (lstSched s4)
                  (set_bestSched (lstSched s4) (set_isLstOptml true s4))))
        else s4 in
      Go (log EvFinishHurstc s5)
  else Go s.

Definition delete_sched (p : option SchedObj) (s : Rgn) : Rgn :=
  match p with
  | Some o => log (EvDelete o) s
  | None => s
  end.

Definition delete_lstSchdulr (s : Rgn) : Rgn :=
  if lstSchdulr s then log EvDeleteLstSchdulr s else s.

(** Step #2: the ant colony before the search. *)
Definition Step_AcoBefore (e : Env) (s : Rgn) : Outcome :=
  let s0 := if AcoBeforeEnum s && (InstCnt e <? 20)
            then set_AcoBeforeEnum false s else s in
  if AcoBeforeEnum s0 && negb (isLstOptml s0) then
    let s1 := set_AcoSchedule (Some AcoSched) s0 in
    let s2 := log (EvRunACO AcoSched (lstSched s1))
                  (set_rslt (runACO e AcoSched) s1) in
    if negb (is_success (rslt s2)) then
      Return (rslt s2)
        (delete_sched (AcoSchedule s2)
           (delete_sched (lstSched s2) (delete_lstSchdulr s2)))
    else
      let s3 := set_AcoScheduleLength_ (GetCrntLngth e AcoSched) s2 in
      let s4 := set_AcoScheduleCost_ (GetCost e AcoSched) s3 in
      if AcoScheduleCost_ s4 =? 0 then
        Go (set_bestCost_ (AcoScheduleCost_ s4)
              (set_bestSchedLngth_ (AcoScheduleLength_ s4)
                 (set_bestSched_ (AcoSchedule s4)
                    (set_bestSched (AcoSchedule s4) (set_isLstOptml true s4)))))
      else Go s4
  else Go s0.

(** The incumbent for the search, when no optimal schedule was found. *)
Definition Step_Incumbent (e : Env) (s : Rgn) : Outcome :=
  if negb (isLstOptml s) then
    if negb (AcoBeforeEnum s) then
      Go (set_bestCost_ (hurstcCost_ s)
            (set_bestSchedLngth_ (heuristicScheduleLength s)
               (set_bestSched_ (lstSched s) (set_bestSched (lstSched s) s))))
    else if negb (HEUR_ENABLED e) then
      Go (set_bestCost_ (AcoScheduleCost_ s)
            (set_bestSchedLngth_ (AcoScheduleLength_ s)
               (set_bestSched_ (AcoSchedule s) (set_bestSched (AcoSchedule s) s))))
    else
      let chosen := if AcoScheduleCost_ s <? hurstcCost_ s
                    then AcoSchedule s else lstSched s in
      match chosen with
      | Some o =>
          Go (set_bestCost_ (GetCost e o)
                (set_bestSchedLngth_ (GetCrntLngth e o)
                   (set_bestSched chosen (set_bestSched_ chosen s))))
      | None => Abort
      end
  else Go s.

(** [CmputUprBounds_(bestSched_, false)]. *)
Definition CmputUprBounds_ (e : Env) (schedule : SchedObj) (s : Rgn) : Rgn :=
  if bestCost_ s =? 0 then set_schedUprBound_ (bestSchedLngth_ s) s
  else if IsSecondPass e then set_schedUprBound_ (GetCrntLngth e schedule) s
  else log EvCmputSchedUprBound (set_schedUprBound_ (CmputSchedUprBound e) s).

(** Step #3: the two assertions and the upper bound. *)
Definition Step_UprBounds (e : Env) (s : Rgn) : Outcome :=
  if schedLwrBound_ s <=? bestSchedLngth_ s then
    match bestSched_ s with
    | Some o =>
        if schedLwrBound_ s <=? GetCrntLngth e o then Go (CmputUprBounds_ e o s)
        else Abort
    | None => Abort
    end
  else Abort.

Definition sumPerp (ps : list (Z * Z)) : Z :=
  fold_left (fun acc p => let perp := p.1 - p.2 in
                          if 0 <? perp then acc + perp else acc) ps 0.

(** With [SCF_SLIL], a list schedule of zero PERP counts as optimal. *)
Definition Step_PerpFilter (e : Env) (s : Rgn) : Outcome :=
  if filterByPerp e && negb (isLstOptml s) && is_SLIL (spillCostFunc_ e) then
    match lstSched s with
    | Some _ =>
        if sumPerp (PeakRegPressures e) =? 0 then Go (set_isLstOptml true s)
        else Go s
    | None => Abort
    end
  else Go s.

(** The enumeration gate, then the initial schedule is noted. *)
Definition Step_Gate (e : Env) (s : Rgn) : Outcome :=
  if negb (EnableEnum_ e s) then Return RES_FAIL (delete_lstSchdulr s)
  else
    Go (set_InitialScheduleLength (bestSchedLngth_ s)
          (set_InitialScheduleCost (bestCost_ s)
             (set_InitialSchedule (bestSched_ s) s))).

(** [SchedRegion::Optimize_]. *)
Definition Optimize_ (e : Env) (s : Rgn) : Rgn :=
  let s1 := set_enumBestSched_ (Some EnumBestSched)
              (set_enumCrntSched_ (Some EnumCrntSched) s) in
  let '(r, cost, lngth) := Enumerate_ e s1 in
  log (EvEnumerate r)
    (set_rslt r (set_bestSchedLngth_ lngth (set_bestCost_ cost s1))).

Definition simulates_list (mode : string) : bool :=
  String.eqb mode "HEURISTIC"%string || String.eqb mode "BOTH"%string ||
  String.eqb mode "TAKE_SCHED_WITH_LEAST_SPILLS"%string.

Definition simulates_best (mode : string) : bool :=
  String.eqb mode "BEST"%string || String.eqb mode "BOTH"%string ||
  String.eqb mode "TAKE_SCHED_WITH_LEAST_SPILLS"%string.

(** [SchedRegion::RegAlloc_(bestSched, lstSched)]; only [bestSched] can
    change. *)
Definition RegAlloc_ (e : Env) (lst : option SchedObj) (s : Rgn) : Outcome :=
  let mode := SIMULATE_REGISTER_ALLOCATION e in
  match (if simulates_list mode then lst else Some LstSched),
        (if simulates_best mode then bestSched s else Some LstSched) with
  | Some _, Some _ =>
      let s1 := log EvRegAlloc s in
      if String.eqb mode "TAKE_SCHED_WITH_LEAST_SPILLS"%string then
        match lst, bestSched s with
        | Some l, Some b =>
            if RegAllocCost e l <? RegAllocCost e b
            then Go (set_bestSched lst s1) else Go s1
        | _, _ => Abort
        end
      else Go s1
  | _, _ => Abort
  end.

(** Step #4: the branch-and-bound search. *)
Definition Step_Enumerate (e : Env) (s : Rgn) : Outcome :=
  if isBbEnabled e then
    (if negb (isLstOptml s) then
       let s1 := Optimize_ e (log EvSetHard s) in
       if bestCost_ s1 <? InitialScheduleCost s1 then
         match enumBestSched_ s1 with
         | Some _ =>
             Go (set_bestSched_ (enumBestSched_ s1)
                   (set_bestSched (enumBestSched_ s1) s1))
         | None => Abort
         end
       else Go s1
     else Go s) >>> fun s2 =>
    if negb (String.eqb (SIMULATE_REGISTER_ALLOCATION e) "NO"%string)
    then RegAlloc_ e (InitialSchedule s2) s2
    else Go s2
  else Go s.

(** Step 5: the ant colony after the search. *)
Definition Step_AcoAfter (e : Env) (s : Rgn) : Outcome :=
  if negb (bestCost_ s =? 0) && AcoAfterEnum s then
    let s1 := log (EvRunACO AcoAfterEnumSched (bestSched s)) s in
    if negb (is_success (runACO e AcoAfterEnumSched)) then
      Go (log (EvDelete AcoAfterEnumSched) s1)
    else if GetCost e AcoAfterEnumSched <? bestCost_ s1 then
      Go (set_bestSchedLngth_ (GetCrntLngth e AcoAfterEnumSched)
            (set_bestCost_ (GetCost e AcoAfterEnumSched)
               (set_bestSched (Some AcoAfterEnumSched)
                  (set_bestSched_ (Some AcoAfterEnumSched) s1))))
    else Go (log (EvDelete AcoAfterEnumSched) s1)
  else Go s.

Definition Step_Verify (e : Env) (s : Rgn) : Outcome :=
  if vrfySched_ e then
    match bestSched s with
    | Some o =>
        let s1 := log (EvVerify o) s in
        if negb (Verify e o) then Go (log EvInvalidSchedule s1) else Go s1
    | None => Abort
    end
  else Go s.

(** The final bounds handed to the dependency graph.  The upper bound is
    the sum of two [InstCount], a 32-bit [int] addition: the compiled
    code wraps where the sum leaves the range, and so does [wrap_s32]. *)
Definition Step_Bounds (e : Env) (s : Rgn) : Outcome :=
  let finalUprBound := wrap_s32 (costLwrBound_ s + bestCost_ s) in
  let finalLwrBound := if is_success (rslt s) then finalUprBound
                       else costLwrBound_ s in
  Go (log EvFinishOptml (log (EvSetFinalBounds finalLwrBound finalUprBound) s)).

Definition discards (e : Env) (s : Rgn) : bool :=
  let optimal := isLstOptml s || is_success (rslt s) in
  match blocksToKeep e with
  | ZERO_COST => negb (bestCost s =? 0)
  | OPTIMAL => negb optimal
  | IMPROVED => negb (bestCost s <? InitialScheduleCost s)
  | IMPROVED_OR_OPTIMAL => negb (optimal || (bestCost s <? InitialScheduleCost s))
  | ALL => false
  end.

(** [ChkSchedule_(bestSched, InitialSchedule)] and its consequence. *)
Definition check_result (e : Env) (s : Rgn) : Rgn :=
  let s1 := log EvChkSchedule s in
  if negb (ChkSchedule_ e (bestSched s1) (InitialSchedule s1)) then
    set_bestSchedLngth_ (InitialScheduleLength s1)
      (set_bestCost_ (InitialScheduleCost s1) s1)
  else s1.

Definition delete_unless_best (p : option SchedObj) (s : Rgn) : Rgn :=
  if negb (ptr_eqb (bestSched s) p) then delete_sched p s else s.

(** The deletes of the list scheduler and of the losing candidates. *)
Definition free_losers (s : Rgn) : Rgn :=
  let s3 := delete_lstSchdulr s in
  let s4 := delete_unless_best (lstSched s3) s3 in
  let s5 := delete_unless_best (AcoSchedule s4) s4 in
  let s6 := delete_unless_best (enumBestSched_ s5) s5 in
  delete_sched (enumCrntSched_ s6) s6.

(** The reference outputs are assigned. *)
Definition assign_outputs (s : Rgn) : Rgn :=
  set_hurstcSchedLngth (heuristicScheduleLength s)
    (set_hurstcCost (hurstcCost_ s)
       (set_bestSchedLngth (bestSchedLngth_ s)
          (set_bestCost (bestCost_ s) s))).

(** The check of the result, the deletes, the outputs and the return. *)
Definition Step_Finish (e : Env) (s : Rgn) : Outcome :=
  let s8 := assign_outputs (free_losers (check_result e s)) in
  if is_SLIL (spillCostFunc_ e) && discards e s8 then
    Return (rslt s8) (set_bestSched None (delete_sched (bestSched s8) s8))
  else Return (rslt s8) s8.

(** The function up to the heuristic pass, up to the incumbent
    selection, up to the enumeration gate and up to the final bounds. *)
Definition PreHeuristic (e : Env) (s : Rgn) : Outcome :=
  Step_Entry e s >>> Step_Setup e >>> Step_LwrBounds e.

Definition PreIncumbent (e : Env) (s : Rgn) : Outcome :=
  PreHeuristic e s >>> Step_Heuristic e >>> Step_AcoBefore e.

Definition PreGate (e : Env) (s : Rgn) : Outcome :=
  PreIncumbent e s >>> Step_Incumbent e >>> Step_UprBounds e >>>
  Step_PerpFilter e.

Definition PreBounds (e : Env) (s : Rgn) : Outcome :=
  PreGate e s >>> Step_Gate e >>> Step_Enumerate e >>> Step_AcoAfter e >>>
  Step_Verify e.

Definition FindOptimalSchedule (e : Env) (s : Rgn) : Outcome :=
  PreBounds e s >>> Step_Bounds e >>> Step_Finish e.

(** * Properties *)

(** ** Notions used in the statements *)

(** ** Key layout *)
(** The attribute maximum the constructor reads for a criterion. *)
Definition graphMax (g : DataDepGraph) (h : LISTSCHED_HEURISTIC) : Z :=
  match h with
  | LSH_CP | LSH_CPR => rootCrntLwrBound_ g
  | LSH_LUC | LSH_UC => ddgMaxUseCnt_ g
  | LSH_NID | LSH_LLVM => DDG.GetInstCnt g - 1
  | LSH_ISO => ddgMaxFileSchedOrder_ g
  | LSH_SC => ddgMaxScsrCnt_ g
  | LSH_LS => ddgMaxLtncySum_ g
  end.

Definition fieldWidth (g : DataDepGraph) (h : LISTSCHED_HEURISTIC) : Z :=
  Utilities.clcltBitsNeededToHoldNum (graphMax g h).

Definition summedWidths (g : DataDepGraph) (hs : list LISTSCHED_HEURISTIC) : Z :=
  foldr (fun h acc => fieldWidth g h + acc) 0 hs.

(** The key of the maxima in the words of the design document: the
    bitwise OR of each field maximum shifted left into its field, the
    first criterion most significant. *)
Fixpoint packedMaxima (g : DataDepGraph) (hs : list LISTSCHED_HEURISTIC) : Z :=
  match hs with
  | [] => 0
  | h :: rest =>
      Z.lor (Z.shiftl (graphMax g h) (summedWidths g rest)) (packedMaxima g rest)
  end.

(** The value an instruction contributes to the field of a criterion. *)
Definition fieldVal (r : ReadyList) (inst : SchedInstruction)
    (h : LISTSCHED_HEURISTIC) : Z :=
  match h with
  | LSH_CP | LSH_CPR => to_ulong (SchedInst.GetCrtclPath inst)
  | LSH_LUC => to_ulong (wrap_s16 (pendingLastUseCnt_ inst))
  | LSH_UC => to_ulong (SchedInst.GetUseCnt inst)
  | LSH_NID | LSH_LLVM => to_ulong (maxNodeID_ r - SchedInst.GetNodeID inst)
  | LSH_ISO => to_ulong (maxInptSchedOrder_ r - SchedInst.GetFileSchedOrder inst)
  | LSH_SC => to_ulong (SchedInst.GetScsrCnt inst)
  | LSH_LS => to_ulong (SchedInst.GetLtncySum inst)
  end.

(** A configuration the constructor can be given: every configured
    maximum is a non-negative [unsigned long]. *)
Definition maxima_ok (g : DataDepGraph) (hs : list LISTSCHED_HEURISTIC) : Prop :=
  Forall (fun h => 0 <= graphMax g h < 2 ^ ULONG_BITS) hs.

(** The key layout of [r] is the one the constructor derives from [g]. *)
Definition Configured (g : DataDepGraph) (r : ReadyList) : Prop :=
  maxima_ok g (vctr (prirts_ r)) /\
  summedWidths g (vctr (prirts_ r)) <= ULONG_BITS /\
  Forall (fun h => fieldMax r h = graphMax g h /\ fieldBits r h = fieldWidth g h)
         (vctr (prirts_ r)).

(** Fields fed to [AddPrirtyToKey_] one after the other. *)
Fixpoint packFrom (fs : list (Z * Z * Z)) (acc : option (Z * Z)) : option (Z * Z) :=
  match fs with
  | [] => acc
  | f :: rest =>
      packFrom rest ('(k, ks) ← acc; AddPrirtyToKey_ k ks (f.1.1) (f.1.2) (f.2))
  end.

Fixpoint packZ (fs : list (Z * Z * Z)) (k : Z) : Z :=
  match fs with
  | [] => k
  | f :: rest => packZ rest (k * 2 ^ (f.1.1) + f.1.2)
  end.

Definition widthsOf (fs : list (Z * Z * Z)) : Z :=
  foldr (fun f acc => f.1.1 + acc) 0 fs.

Definition field_ok (f : Z * Z * Z) : Prop :=
  0 <= f.1.1 /\ 0 <= f.1.2 <= f.2 /\ f.2 < 2 ^ (f.1.1).

(** *** The loops of the source as packings *)
Definition maxFields (r : ReadyList) (hs : list LISTSCHED_HEURISTIC)
    : list (Z * Z * Z) :=
  map (fun h => (fieldBits r h, to_ulong (fieldMax r h), to_ulong (fieldMax r h))) hs.

Definition keyFields (r : ReadyList) (inst : SchedInstruction)
    (hs : list LISTSCHED_HEURISTIC) : list (Z * Z * Z) :=
  map (fun h => (fieldBits r h, fieldVal r inst h, to_ulong (fieldMax r h))) hs.

Definition isLUC (h : LISTSCHED_HEURISTIC) : bool :=
  match h with LSH_LUC => true | _ => false end.

Definition hasLUC (hs : list LISTSCHED_HEURISTIC) : bool := existsb isLUC hs.

Definition lucChanged (inst : SchedInstruction) : bool :=
  negb (wrap_s16 (pendingLastUseCnt_ inst) =? wrap_s16 (lastUseCnt_ inst)).

Definition instAfter (hs : list LISTSCHED_HEURISTIC) (inst : SchedInstruction)
    : SchedInstruction :=
  if hasLUC hs then (SchedInst.CmputLastUseCnt inst).2 else inst.

Definition changedAfter (hs : list LISTSCHED_HEURISTIC) (c : bool)
    (inst : SchedInstruction) : bool :=
  c || (hasLUC hs && lucChanged inst).

(** *** The constructor *)
Definition layout_of (g : DataDepGraph) (r : ReadyList) (h : LISTSCHED_HEURISTIC) : Prop :=
  fieldMax r h = graphMax g h /\ fieldBits r h = fieldWidth g h.

Definition wInst0 : SchedInstruction := mkInst 0 0 3 1 0 2 1 4 0 false.

Definition wInst1 : SchedInstruction := mkInst 1 1 2 1 0 2 0 3 1 false.

Definition wInst2 : SchedInstruction := mkInst 2 2 1 0 0 0 2 1 2 false.

Definition wGraph : DataDepGraph := mkDDG [wInst0; wInst1; wInst2] 3 2 2 2 4.

Definition wPrirts : SchedPriorities := mkPrirts true [LSH_CP; LSH_LUC; LSH_UC].

Definition wReady : ReadyList :=
  mkReadyList wPrirts [] [] 2 2 0 0 0 0 2 3 0 0 0 0 58.

(** ** Ready-queued flags *)
(** The flag of the instruction in slot [i]. *)
Definition queued (g : DataDepGraph) (i : nat) : bool :=
  match insts_ g !! i with
  | Some x => ready_ x
  | None => false
  end.

Definition flags (g : DataDepGraph) : list bool := map ready_ (insts_ g).

(** What one scan of [AddLatestSubList_] adds, given the flags [q] at its
    start: the elements up to the first one that is queued by then. *)
Fixpoint scanned (q : nat -> bool) (todo : list nat) : list nat :=
  match todo with
  | [] => []
  | i :: rest =>
      if q i then []
      else i :: scanned (fun j => Nat.eqb j i || q j) rest
  end.

Fixpoint takeUntil (q : nat -> bool) (l : list nat) : list nat :=
  match l with
  | [] => []
  | i :: rest => if q i then [] else i :: takeUntil q rest
  end.

(** The graph is indexed by instruction number. *)
Definition numbered (g : DataDepGraph) : Prop :=
  forall i x, insts_ g !! i = Some x -> num_ x = i.

(** Every queue entry is flagged. *)
Definition entries_flagged (w : World) : Prop :=
  forall e, e ∈ map fst (prirtyLst_ (rdy w)) -> queued (ddg w) e = true.

(** The key layout fits the graph and every instruction respects the
    field maxima (so that no [assert] of the key computation fires). *)
Definition keys_ok (g : DataDepGraph) (r : ReadyList) : Prop :=
  Configured g r /\
  Forall (fun x => Forall (fun h => fieldVal r x h <= fieldMax r h)
                          (vctr (prirts_ r))) (insts_ g).

(** Two lists with the same configuration. *)
Definition same_config (r r' : ReadyList) : Prop :=
  prirts_ r' = prirts_ r /\
  (forall h, fieldMax r' h = fieldMax r h /\ fieldBits r' h = fieldBits r h).

(** Once the scan meets a queued element, everything behind it is queued. *)
Definition queued_tail (q : nat -> bool) (t : list nat) : Prop :=
  forall l1 x l2, t = l1 ++ x :: l2 -> q x = true -> Forall (fun y => q y = true) l2.

(** *** One iteration of [AddLatestSubList_] *)
Definition afterAdd (i : nat) (x : SchedInstruction) (w1 : World) : World :=
  mkWorld (DDG.store i (SchedInst.PutInReadyList x) (ddg w1))
          (RL.set_latestSubLst (latestSubLst_ (rdy w1) ++ [i]) (rdy w1)).

Definition wWorld : World := mkWorld wGraph wReady.

(** The state after instructions 0 and 1, then 2, were announced. *)
Definition wAdded : World :=
  default wWorld (AddLatestSubLists (Some [0%nat; 1%nat]) (Some [2%nat]) wWorld).

(** A state in which instruction 0 is queued already. *)
Definition wHalf : World :=
  default wWorld (AddLatestSubLists (Some [0%nat]) None wWorld).

Definition wOne : World := default wWorld (AddInst 0 wWorld).

(** ** Dynamic re-prioritisation *)
(** The instruction as its key was last computed: the last-use count is
    the stored one. *)
Definition asStored (x : SchedInstruction) : SchedInstruction :=
  mkInst (num_ x) (nodeID_ x) (crtclPathBkwrd_ x) (useCnt_ x) (lastUseCnt_ x)
         (lastUseCnt_ x) (scsrCnt_ x) (ltncySum_ x) (fileSchedOrder_ x) (ready_ x).

(** The key [UpdatePriorities] computes for the instruction in slot [n]. *)
Definition recomputedKey (w : World) (n : nat) : Z :=
  match insts_ (ddg w) !! n ≫= (fun x => CmputKey_ (rdy w) x true) with
  | Some (k, _, _) => k
  | None => 0
  end.

(** The key of an entry is the one computed from the stored last-use
    count of its instruction (what [AddInst] and every update leave). *)
Definition key_is_current (w : World) (e : nat * Z) : Prop :=
  exists x c x',
    insts_ (ddg w) !! e.1 = Some x /\
    CmputKey_ (rdy w) (asStored x) true = Some (e.2, c, x').

Definition pureKey (r : ReadyList) (x : SchedInstruction) : Z :=
  packZ (keyFields r x (vctr (prirts_ r))) 0.

Definition chg (r : ReadyList) (x : SchedInstruction) : bool :=
  hasLUC (vctr (prirts_ r)) && lucChanged x.

(** *** The update loop *)
Definition pureKeyAt (w : World) (n : nat) : Z :=
  match insts_ (ddg w) !! n with
  | Some x => pureKey (rdy w) x
  | None => 0
  end.

Definition chgAt (w : World) (n : nat) : bool :=
  match insts_ (ddg w) !! n with
  | Some x => chg (rdy w) x
  | None => false
  end.

Definition boostIf (w : World) (l : list (nat * Z)) (n : nat) : list (nat * Z) :=
  if chgAt w n then PriorityArrayList.BoostElmnt n (pureKeyAt w n) l else l.

(** All three instructions queued; the last-use counts of instructions 1
    and 2 have moved since their keys were computed. *)
Definition wDyn : World :=
  mkWorld
    (mkDDG [mkInst 0 0 3 1 2 2 1 4 0 true;
            mkInst 1 1 2 1 2 1 0 3 1 true;
            mkInst 2 2 1 0 0 1 2 1 2 true] 3 2 2 2 4)
    (mkReadyList wPrirts [(0%nat, 57); (1%nat, 41); (2%nat, 16)] []
       2 2 0 0 0 0 2 3 0 0 0 0 58).

(** Events that never happen before the enumeration gate is passed. *)
Definition pre_gate_event (ev : Event) : Prop :=
  match ev with
  | EvEnumerate _ | EvVerify _ | EvSetFinalBounds _ _ | EvDelete _
  | EvRegAlloc | EvChkSchedule | EvFinishOptml | EvSetHard => False
  | _ => True
  end.

(** What holds from the entry up to the gate. *)
Definition pre_gate_inv (s0 s : Rgn) : Prop :=
  bestCost s = bestCost s0 /\
  bestSchedLngth s = bestSchedLngth s0 /\
  hurstcCost s = hurstcCost s0 /\
  hurstcSchedLngth s = hurstcSchedLngth s0 /\
  bestSched s = bestSched_ s /\
  Forall pre_gate_event (events s).





(** *** A pass of cost zero *)
Definition not_enumerate (ev : Event) : Prop :=
  match ev with EvEnumerate _ => False | _ => True end.

(** Where a step leaves the run: [I] if control goes on, [P] if the
    function returns; it does not abort. *)
Definition advance (I P : Rgn -> Prop) (o : Outcome) : Prop :=
  match o with
  | Go s => I s
  | Return _ s => P s
  | Abort => False
  end.

(** The pass that produced [p] has settled optimality. *)
Definition settled (e : Env) (p : SchedObj) (s : Rgn) : Prop :=
  isLstOptml s = true /\
  bestSched_ s = Some p /\
  bestCost_ s = 0 /\
  bestSchedLngth_ s = GetCrntLngth e p /\
  Forall not_enumerate (events s).

Definition settled_before_gate (e : Env) (p : SchedObj) (s : Rgn) : Prop :=
  settled e p s /\ bestSched s = Some p /\
  schedLwrBound_ s <= GetCrntLngth e p /\
  rslt s = RES_SUCCESS.

Definition settled_after_gate (e : Env) (p : SchedObj) (s : Rgn) : Prop :=
  settled e p s /\ bestSched s = Some p /\
  InitialSchedule s = Some p /\
  InitialScheduleCost s = 0 /\
  InitialScheduleLength s = GetCrntLngth e p /\
  rslt s = RES_SUCCESS.

(** The discard of the last step, for a best cost of 0 that is the cost
    of the initial schedule: only the policy that keeps improved blocks
    discards it. *)
Definition drops_unimproved (e : Env) : bool :=
  is_SLIL (spillCostFunc_ e) &&
  match blocksToKeep e with IMPROVED => true | _ => false end.

(** A state that differs from [s] only by later events of kind [K]. *)
Definition extends (K : Event -> Prop) (s s' : Rgn) : Prop :=
  exists l, Forall K l /\ s' = set_events (events s ++ l) s.

Definition freeing (ev : Event) : Prop :=
  match ev with
  | EvDelete _ | EvDeleteLstSchdulr | EvChkSchedule => True
  | _ => False
  end.

(** The pass that produces [p] runs and yields cost zero.  For the ant
    colony this includes that the heuristic pass, if it runs, succeeds
    with a cost that is not zero, and that the caller's flag is clear. *)
Definition zero_cost_pass (e : Env) (isLstOptml0 : bool) (p : SchedObj) : Prop :=
  match p with
  | LstSched =>
      HEUR_ENABLED e || IsSecondPass e = true /\
      lstSchdulr_FindSchedule e = RES_SUCCESS /\
      GetCost e LstSched = 0
  | AcoSched =>
      isLstOptml0 = false /\
      (HEUR_ENABLED e || IsSecondPass e = true ->
       lstSchdulr_FindSchedule e = RES_SUCCESS /\ GetCost e LstSched <> 0) /\
      ACO_ENABLED e = true /\ ACO_BEFORE_ENUM e = true /\
      20 <= InstCnt e /\
      runACO e AcoSched = RES_SUCCESS /\
      GetCost e AcoSched = 0
  | _ => False
  end.

(** *** The result code and the final bounds *)
(** What the enumerator reported, in order. *)
Definition reported (ev : Event) : option FUNC_RESULT :=
  match ev with EvEnumerate r => Some r | _ => None end.


(** The bounds handed to [SetFinalBounds], in order. *)
Definition persisted_bounds (ev : Event) : option (Z * Z) :=
  match ev with EvSetFinalBounds l u => Some (l, u) | _ => None end.

Definition persisted (evs : list Event) : list (Z * Z) := omap persisted_bounds evs.

Definition not_bounds (ev : Event) : Prop :=
  match ev with EvSetFinalBounds _ _ => False | _ => True end.



(** *** Sample regions *)
(** The state the caller hands in: outputs cleared, nothing logged. *)
Definition rgn0 : Rgn :=
  mkRgn false 0 0 0 0 None None 0 0 0 None None 0 0 0 false None None 0 0 0
        RES_SUCCESS false false None 0 0 [].

(** A region of 25 instructions, schedule lower bound 3, cost lower bound
    7, both schedules of length 5; the parameters are what the sample runs
    vary. *)
Definition sampleEnv (enum aco gate : bool) (heurCost acoCost : Z)
    (reply : FUNC_RESULT) : Env :=
  mkEnv 1000 100 false ALL true aco enum true false "NO"%string true SCF_OTHER
        false 25 RES_SUCCESS [] 3 (fun _ => 7) 3 3 9 RES_SUCCESS
        (fun _ => RES_SUCCESS) (fun _ => 5)
        (fun o => match o with LstSched => heurCost | _ => acoCost end)
        [] (fun _ => gate) (fun _ => (reply, heurCost, 5)) (fun _ => 0)
        (fun _ => true) (fun _ _ => true).

(** The state a step leaves, when it goes on. *)
Definition reached (o : Outcome) : Rgn :=
  match o with Go s => s | _ => rgn0 end.

Definition envZero : Env := sampleEnv true false true 0 4 RES_SUCCESS.




Definition envNoSearch : Env := sampleEnv false false true 10 4 RES_SUCCESS.

Definition envGate : Env := sampleEnv true false false 10 4 RES_SUCCESS.

(** The enumerator improves the cost from 10 to 6 and the final check
    then rejects the best schedule. *)
Definition envRejected : Env :=
  mkEnv 1000 100 false ALL true false true true false "NO"%string true SCF_OTHER
        false 25 RES_SUCCESS [] 3 (fun _ => 7) 3 3 9 RES_SUCCESS
        (fun _ => RES_SUCCESS) (fun _ => 5)
        (fun o => match o with LstSched => 10 | _ => 4 end)
        [] (fun _ => true) (fun _ => (RES_SUCCESS, 6, 5)) (fun _ => 0)
        (fun _ => true) (fun _ _ => false).

(** The ant colony finds a schedule of cost 0 after a heuristic schedule
    of cost 10, and the gate closes on the heuristic cost. *)
Definition envZeroGate : Env :=
  mkEnv 1000 100 false ALL true true true true false "NO"%string true SCF_OTHER
        false 25 RES_SUCCESS [] 3 (fun _ => 7) 3 3 9 RES_SUCCESS
        (fun _ => RES_SUCCESS) (fun _ => 5)
        (fun o => match o with LstSched => 10 | _ => 0 end)
        [] (fun s => hurstcCost_ s <=? 5) (fun _ => (RES_SUCCESS, 0, 5))
        (fun _ => 0) (fun _ => true) (fun _ _ => true).

(** The heuristic schedule has cost 0; the cost function is SLIL and only
    improved blocks are kept. *)
Definition envZeroDiscard : Env :=
  mkEnv 1000 100 false IMPROVED true false true true false "NO"%string true
        SCF_SLIL false 25 RES_SUCCESS [] 3 (fun _ => 7) 3 3 9 RES_SUCCESS
        (fun _ => RES_SUCCESS) (fun _ => 5)
        (fun o => match o with LstSched => 0 | _ => 4 end)
        [] (fun _ => true) (fun _ => (RES_SUCCESS, 0, 5)) (fun _ => 0)
        (fun _ => true) (fun _ _ => true).

(** A caller whose cost and length variables hold 99. *)
Definition rgnStale : Rgn := set_bestSchedLngth 99 (set_bestCost 99 rgn0).

(** The cost lower bound is the largest [int]; the enumerator is off. *)
Definition envWide : Env :=
  mkEnv 1000 100 false ALL true false false true false "NO"%string true SCF_OTHER
        false 25 RES_SUCCESS [] 3 (fun _ => 2147483647) 3 3 9 RES_SUCCESS
        (fun _ => RES_SUCCESS) (fun _ => 5)
        (fun o => match o with LstSched => 10 | _ => 4 end)
        [] (fun _ => true) (fun _ => (RES_SUCCESS, 10, 5)) (fun _ => 0)
        (fun _ => true) (fun _ _ => true).

(** ** Further notions *)

(** An entry whose instruction holds its recomputed last-use count
    already. *)
Definition up_to_date (w : World) (n : nat) : Prop :=
  exists x,
    insts_ (ddg w) !! n = Some x /\
    instAfter (vctr (prirts_ (rdy w))) x = x /\
    chg (rdy w) x = false.

(** Instructions 0 and 1 queued under a scheme without [LSH_LUC]. *)
Definition wStatic : World :=
  mkWorld wGraph
    (mkReadyList (mkPrirts true [LSH_CP; LSH_UC]) [(0%nat, 13); (1%nat, 9)] []
       2 2 0 0 0 0 2 3 0 0 0 0 14).

(** ** More on the pipeline *)
(** What holds of an outcome: [Q] of the state control goes on with, [R]
    of the result and state of a return; an abort satisfies it. *)
Definition post (Q : Rgn -> Prop) (R : FUNC_RESULT -> Rgn -> Prop)
    (o : Outcome) : Prop :=
  match o with
  | Go s => Q s
  | Return r s => R r s
  | Abort => True
  end.

(** *** The setup calls *)
(** The calls of the transformation loop from index [i] on, each with
    the result it reports. *)
Fixpoint trans_calls (e : Env) (i : nat) (gts : list (FUNC_RESULT * FUNC_RESULT))
    : list (Event * FUNC_RESULT) :=
  match gts with
  | [] => []
  | (applied, updated) :: rest =>
      (EvApplyTrans i, applied) ::
      (EvUpdateSetupForSchdulng (needTransitiveClosure e), updated) ::
      trans_calls e (S i) rest
  end.

(** The calls that set the graph up, in order. *)
Definition setup_calls (e : Env) : list (Event * FUNC_RESULT) :=
  (EvSetupForSchdulng (needTransitiveClosure e), SetupForSchdulng e) ::
  trans_calls e 0 (GraphTrans e).

Definition failed (c : Event * FUNC_RESULT) : Prop := is_success c.2 = false.

Global Instance failed_dec c : Decision (failed c).
Proof. unfold failed. apply _. Defined.

(** *** Events a run can log *)
(** A step keeps a class of events: if the log holds only events of the
    class, so does the log the step leaves, however it ends. *)
Definition keeps (K : Event -> Prop) (step : Rgn -> Outcome) : Prop :=
  forall s, Forall K (events s) ->
    post (fun s' => Forall K (events s')) (fun _ s' => Forall K (events s'))
         (step s).

(** The events of the search stage. *)
Definition search_event (ev : Event) : Prop :=
  match ev with
  | EvEnumerate _ | EvSetHard | EvRegAlloc => True
  | _ => False
  end.

(** *** Returns before the final bounds *)
(** A step that returns only with a result that is not a success. *)
Definition fails_only (step : Rgn -> Outcome) : Prop :=
  forall s r s', step s = Return r s' -> is_success r = false.

(** The events of the last two steps. *)
Definition closing_event (ev : Event) : Prop :=
  match ev with
  | EvSetFinalBounds _ _ | EvFinishOptml | EvChkSchedule => True
  | _ => False
  end.

(** *** The schedules a run deletes *)
Definition deleted_obj (ev : Event) : option SchedObj :=
  match ev with EvDelete o => Some o | _ => None end.

(** The schedule objects deleted so far, oldest first. *)
Definition deleted (evs : list Event) : list SchedObj := omap deleted_obj evs.

(** No schedule was deleted twice, and the schedule handed back through
    [bestSched] was not deleted. *)
Definition Safe (s : Rgn) : Prop :=
  NoDup (deleted (events s)) /\
  forall o, bestSched s = Some o -> o ∉ deleted (events s).

(** What [delete p] adds to the deleted objects unless [p] is the best
    schedule. *)
Definition loser (best p : option SchedObj) : list SchedObj :=
  if ptr_eqb best p then [] else option_list p.

(** The candidates the last step deletes. *)
Definition losers (s : Rgn) : list SchedObj :=
  loser (bestSched s) (lstSched s) ++
  loser (bestSched s) (AcoSchedule s) ++
  loser (bestSched s) (enumBestSched_ s) ++
  option_list (enumCrntSched_ s).

(** Two states with the same schedule pointers. *)
Definition same_ptrs (s s' : Rgn) : Prop :=
  bestSched s' = bestSched s /\
  lstSched s' = lstSched s /\
  AcoSchedule s' = AcoSchedule s /\
  enumBestSched_ s' = enumBestSched_ s /\
  enumCrntSched_ s' = enumCrntSched_ s.

(** The pointer is null or points to [o]. *)
Definition null_or (o : SchedObj) (p : option SchedObj) : Prop :=
  p = None \/ p = Some o.

(** The pointer is null or points to a schedule made before the search. *)
Definition early (p : option SchedObj) : Prop :=
  p = None \/ p = Some LstSched \/ p = Some AcoSched.

(** Up to the heuristic pass: nothing allocated, nothing deleted. *)
Definition mem_clear (s : Rgn) : Prop :=
  deleted (events s) = [] /\
  lstSched s = None /\ AcoSchedule s = None /\
  enumBestSched_ s = None /\ enumCrntSched_ s = None /\
  bestSched s = None /\ bestSched_ s = None.

(** After the heuristic pass: [bestSched] is set only if the list
    schedule is optimal. *)
Definition mem_heur (s : Rgn) : Prop :=
  deleted (events s) = [] /\
  null_or LstSched (lstSched s) /\ AcoSchedule s = None /\
  enumBestSched_ s = None /\ enumCrntSched_ s = None /\
  null_or LstSched (bestSched s) /\ null_or LstSched (bestSched_ s) /\
  (isLstOptml s = false -> bestSched s = None).

(** Before the search. *)
Definition mem_early (s : Rgn) : Prop :=
  deleted (events s) = [] /\
  null_or LstSched (lstSched s) /\ null_or AcoSched (AcoSchedule s) /\
  enumBestSched_ s = None /\ enumCrntSched_ s = None /\
  early (bestSched s) /\ early (bestSched_ s).

(** The objects each pointer can hold. *)
Definition typed (s : Rgn) : Prop :=
  null_or LstSched (lstSched s) /\ null_or AcoSched (AcoSchedule s) /\
  null_or EnumBestSched (enumBestSched_ s) /\
  null_or EnumCrntSched (enumCrntSched_ s) /\
  bestSched s <> Some EnumCrntSched.

(** After the search. *)
Definition mem_searched (s : Rgn) : Prop :=
  deleted (events s) = [] /\ typed s /\
  bestSched s <> Some AcoAfterEnumSched.

(** After the ant colony that follows the search. *)
Definition mem_late (s : Rgn) : Prop :=
  typed s /\
  (deleted (events s) = [] \/
   (deleted (events s) = [AcoAfterEnumSched] /\
    bestSched s <> Some AcoAfterEnumSched)).

(** After the gate the initial schedule is noted. *)
Definition mem_gated (s : Rgn) : Prop :=
  mem_early s /\ early (InitialSchedule s).

(** *** Complete runs free every losing schedule *)
Definition ran_aco_after (ev : Event) : Prop :=
  match ev with EvRunACO AcoAfterEnumSched _ => True | _ => False end.

Global Instance ran_aco_after_dec ev : Decision (ran_aco_after ev).
Proof. destruct ev as [| | | | |[] ?| | | | | | | | | | |]; cbn; apply _. Defined.

(** The schedule objects a run has allocated when it reaches the final
    bounds: those its four schedule pointers hold, and the schedule made
    for the ant colony after the search if that pass ran. *)
Definition allocated (s : Rgn) : list SchedObj :=
  omap id [lstSched s; AcoSchedule s; enumBestSched_ s; enumCrntSched_ s] ++
  (if bool_decide (Exists ran_aco_after (events s))
   then [AcoAfterEnumSched] else []).

(** The schedule of the late ant colony is the best schedule or was
    deleted. *)
Definition aco_after_placed (s : Rgn) : Prop :=
  Exists ran_aco_after (events s) ->
  bestSched s = Some AcoAfterEnumSched \/
  AcoAfterEnumSched ∈ deleted (events s).

(** Optimality is settled and the enumerator has not run. *)
Definition optimal_unsearched (s : Rgn) : Prop :=
  isLstOptml s = true /\ Forall not_enumerate (events s).

(** *** The reported cost *)
(** The best cost is at most [c] and the initial cost is [c]. *)
Definition cost_capped (c : Z) (s : Rgn) : Prop :=
  bestCost_ s <= c /\ InitialScheduleCost s = c.

(** *** The reference outputs before the last step *)
(** The four cost and length outputs hold what they held in [s0]. *)
Definition outs_kept (s0 s : Rgn) : Prop :=
  bestCost s = bestCost s0 /\
  bestSchedLngth s = bestSchedLngth s0 /\
  hurstcCost s = hurstcCost s0 /\
  hurstcSchedLngth s = hurstcSchedLngth s0.

Definition keeps_outs (step : Rgn -> Outcome) : Prop :=
  forall s0 s, outs_kept s0 s ->
    post (outs_kept s0) (fun _ => outs_kept s0) (step s).

(** *** More sample regions *)
(** A region whose list schedule costs 10 and whose enumerator lowers
    the best cost to 6 at most; register pressure is within the physical
    limits.  The parameters are what the sample runs vary. *)
Definition cfgEnv (heur aco acoAfter filter : bool) (scf : SPILL_COST_FUNCTION)
    (insts : Z) (gts : list (FUNC_RESULT * FUNC_RESULT)) (acoCost : Z) : Env :=
  mkEnv 1000 100 filter ALL heur aco true true acoAfter "NO"%string true scf
        false insts RES_SUCCESS gts 3 (fun _ => 7) 3 3 9 RES_SUCCESS
        (fun _ => RES_SUCCESS) (fun _ => 5)
        (fun o => match o with LstSched => 10 | _ => acoCost end)
        [(4, 6); (8, 8)] (fun _ => true)
        (fun s => (RES_SUCCESS, Z.min (bestCost_ s) 6, 5)) (fun _ => 0)
        (fun _ => true) (fun _ _ => true).

(** The result and the state of a run that returns. *)
Definition result_of (o : Outcome) : FUNC_RESULT :=
  match o with Return r _ => r | _ => RES_END end.

Definition returned (o : Outcome) : Rgn :=
  match o with Return _ s => s | _ => rgn0 end.

Definition envNone : Env := cfgEnv false false false false SCF_OTHER 25 [] 4.

Definition envBadTrans : Env :=
  cfgEnv true false false false SCF_OTHER 25
         [(RES_SUCCESS, RES_SUCCESS); (RES_ERROR, RES_SUCCESS)] 4.

Definition envAll : Env := cfgEnv true true true false SCF_OTHER 25 [] 7.

Definition envSmall : Env := cfgEnv false true false false SCF_OTHER 10 [] 4.

Definition envAcoPerp : Env := cfgEnv false true false true SCF_SLIL 25 [] 4.

Definition envPerp : Env := cfgEnv true false false true SCF_SLIL 25 [] 4.

(** ** Lemmas and theorems *)

(** *** Arithmetic of one packing step *)
Lemma bits_nonneg m : 0 <= Utilities.clcltBitsNeededToHoldNum m.
Proof. apply Z.log2_up_nonneg. Qed.

Lemma bits_holds m : 0 <= m -> m < 2 ^ Utilities.clcltBitsNeededToHoldNum m.
Proof.
  intros Hm. unfold Utilities.clcltBitsNeededToHoldNum.
  destruct (Z.eq_dec m 0) as [->|Hne].
  - reflexivity.
  - pose proof (Z.log2_up_spec (m + 1) ltac:(lia)) as [_ H]. lia.
Qed.

Lemma bits_le_word m : 0 <= m < 2 ^ ULONG_BITS ->
  Utilities.clcltBitsNeededToHoldNum m <= ULONG_BITS.
Proof.
  intros [H0 H1]. unfold Utilities.clcltBitsNeededToHoldNum.
  destruct (Z.eq_dec m 0) as [->|Hne]; [discriminate|].
  apply Z.log2_up_le_pow2; unfold ULONG_BITS in *; lia.
Qed.

Lemma lor_shiftl_small k b v :
  0 <= b -> 0 <= v < 2 ^ b -> Z.lor (Z.shiftl k b) v = k * 2 ^ b + v.
Proof.
  intros Hb Hv.
  rewrite Z.shiftl_mul_pow2 by lia.
  rewrite <- Z.lxor_lor, <- Z.add_nocarry_lxor; try reflexivity.
  all: apply Z.bits_inj'; intros n Hn; rewrite Z.land_spec, Z.bits_0;
    destruct (Z.lt_ge_cases n b) as [Hlt|Hge].
  all: try (rewrite Z.mul_pow2_bits_low by lia; reflexivity).
  all: destruct (Z.eq_dec v 0) as [->|Hv0];
    [ rewrite Z.bits_0; apply andb_false_r
    | rewrite (Z.bits_above_log2 v n); [apply andb_false_r | lia |
        apply Z.log2_lt_pow2; [lia|];
        apply Z.lt_le_trans with (2 ^ b); [lia | apply Z.pow_le_mono_r; lia] ] ].
Qed.

Lemma to_ulong_small z : 0 <= z < 2 ^ ULONG_BITS -> to_ulong z = z.
Proof. intros. unfold to_ulong. apply Z.mod_small. lia. Qed.

Lemma wrap_s16_small z : - 2 ^ 15 <= z < 2 ^ 15 -> wrap_s16 z = z.
Proof. intros. unfold wrap_s16. rewrite Z.mod_small; lia. Qed.

Lemma wrap_u16_small z : 0 <= z < 2 ^ 16 -> wrap_u16 z = z.
Proof. intros. unfold wrap_u16. apply Z.mod_small. lia. Qed.

Lemma pow2_le_word n : 0 <= n <= ULONG_BITS -> 2 ^ n <= 2 ^ ULONG_BITS.
Proof. intros. apply Z.pow_le_mono_r; lia. Qed.

Lemma AddPrirtyToKey_ok key ks b v mx :
  0 <= ks -> 0 <= key < 2 ^ ks -> ks + b <= ULONG_BITS ->
  field_ok (b, v, mx) ->
  AddPrirtyToKey_ key ks b v mx = Some (key * 2 ^ b + v, ks + b) /\
  0 <= key * 2 ^ b + v < 2 ^ (ks + b).
Proof.
  intros Hks Hkey Hsum (Hb & Hv & Hmx). simpl in *.
  assert (Hbound : 0 <= key * 2 ^ b + v < 2 ^ (ks + b)).
  { rewrite Z.pow_add_r by lia.
    assert (0 < 2 ^ b) by (apply Z.pow_pos_nonneg; lia). nia. }
  split; [|exact Hbound].
  unfold AddPrirtyToKey_.
  destruct (Z.leb_spec v mx); [|lia].
  rewrite wrap_s16_small by (unfold ULONG_BITS in *; lia).
  f_equal. f_equal.
  destruct (Z.ltb_spec 0 ks).
  - assert (Hsh : 0 <= Z.shiftl key b < 2 ^ ULONG_BITS).
    { rewrite Z.shiftl_mul_pow2 by lia.
      pose proof (pow2_le_word (ks + b) ltac:(lia)).
      assert (0 < 2 ^ b) by (apply Z.pow_pos_nonneg; lia). nia. }
    rewrite to_ulong_small by exact Hsh.
    apply lor_shiftl_small; lia.
  - assert (ks = 0) by lia. subst ks. simpl in Hkey.
    assert (key = 0) by lia. subst key.
    rewrite Z.lor_0_l. lia.
Qed.

Lemma widthsOf_cons b v mx fs : widthsOf ((b, v, mx) :: fs) = b + widthsOf fs.
Proof. reflexivity. Qed.

Lemma widthsOf_nonneg fs : Forall field_ok fs -> 0 <= widthsOf fs.
Proof.
  induction 1 as [|f fs Hf _ IH]; simpl; [lia|].
  destruct Hf as (? & _). lia.
Qed.

Lemma packFrom_None fs : packFrom fs None = None.
Proof. induction fs; simpl; auto. Qed.

Lemma packFrom_ok fs : forall key ks,
  Forall field_ok fs ->
  0 <= ks -> 0 <= key < 2 ^ ks -> ks + widthsOf fs <= ULONG_BITS ->
  packFrom fs (Some (key, ks)) = Some (packZ fs key, ks + widthsOf fs) /\
  0 <= packZ fs key < 2 ^ (ks + widthsOf fs).
Proof.
  induction fs as [|[[b v] mx] fs IH]; intros key ks Hok Hks Hkey Hsum.
  - simpl. rewrite Z.add_0_r. auto.
  - inversion Hok as [|? ? Hf Hfs]; subst.
    pose proof (widthsOf_nonneg fs Hfs) as Hw.
    simpl in Hsum.
    destruct (AddPrirtyToKey_ok key ks b v mx Hks Hkey ltac:(lia) Hf) as [Heq Hb].
    cbn [packFrom packZ mbind option_bind fst snd]. rewrite Heq.
    destruct Hf as (Hb0 & _). simpl in Hb0.
    destruct (IH (key * 2 ^ b + v) (ks + b) Hfs ltac:(lia) Hb ltac:(lia)) as [E B].
    rewrite E, widthsOf_cons, Z.add_assoc. auto.
Qed.

(** A field that breaks its maximum stops the packing (the [assert]). *)
Lemma packZ_split fs : forall k,
  Forall field_ok fs ->
  packZ fs k = k * 2 ^ widthsOf fs + packZ fs 0.
Proof.
  induction fs as [|[[b v] mx] fs IH]; intros k Hok.
  - simpl. lia.
  - inversion Hok as [|? ? Hf Hfs]; subst.
    pose proof (widthsOf_nonneg fs Hfs).
    destruct Hf as (Hb & _). simpl in Hb.
    cbn [packZ fst snd]. rewrite widthsOf_cons.
    rewrite (IH (k * 2 ^ b + v) Hfs), (IH (0 * 2 ^ b + v) Hfs).
    rewrite Z.pow_add_r by lia. lia.
Qed.

Lemma packZ_0_bound fs :
  Forall field_ok fs -> 0 <= packZ fs 0 < 2 ^ widthsOf fs.
Proof.
  induction fs as [|[[b v] mx] fs IH]; intros Hok.
  - simpl. lia.
  - inversion Hok as [|? ? Hf Hfs]; subst.
    pose proof (widthsOf_nonneg fs Hfs).
    destruct Hf as (Hb & Hv & Hmx). simpl in Hb, Hv, Hmx.
    cbn [packZ fst snd]. rewrite widthsOf_cons.
    rewrite (packZ_split fs _ Hfs).
    specialize (IH Hfs).
    rewrite Z.pow_add_r by lia.
    assert (0 < 2 ^ widthsOf fs) by (apply Z.pow_pos_nonneg; lia).
    nia.
Qed.

Lemma ctor_maxkey_pack r hs : forall acc,
  fold_left (ctor_maxkey r) hs acc = packFrom (maxFields r hs) acc.
Proof.
  induction hs as [|h hs IH]; intros acc; [reflexivity|].
  cbn [fold_left maxFields map packFrom]. rewrite IH. f_equal.
  destruct acc as [[k ks]|]; [|reflexivity]. destruct h; reflexivity.
Qed.

Lemma fold_CmputKey_None r hs : fold_left (CmputKey_step r) hs None = None.
Proof. induction hs; simpl; auto. Qed.

Lemma fieldVal_recomputed r inst h :
  fieldVal r (SchedInst.CmputLastUseCnt inst).2 h = fieldVal r inst h.
Proof. destruct h; reflexivity. Qed.

Lemma keyFields_recomputed r inst hs :
  keyFields r (SchedInst.CmputLastUseCnt inst).2 hs = keyFields r inst hs.
Proof.
  unfold keyFields. apply map_ext. intros h. by rewrite fieldVal_recomputed.
Qed.

Lemma lucChanged_recomputed inst :
  lucChanged (SchedInst.CmputLastUseCnt inst).2 = false.
Proof. unfold lucChanged. simpl. by rewrite Z.eqb_refl. Qed.

Lemma CmputLastUseCnt_idem inst :
  (SchedInst.CmputLastUseCnt (SchedInst.CmputLastUseCnt inst).2).2 =
  (SchedInst.CmputLastUseCnt inst).2.
Proof. reflexivity. Qed.

Lemma CmputKey_fold r hs : forall k ks c inst,
  fold_left (CmputKey_step r) hs (Some (k, ks, c, inst)) =
  '(k', ks') ← packFrom (keyFields r inst hs) (Some (k, ks));
  Some (k', ks', changedAfter hs c inst, instAfter hs inst).
Proof.
  induction hs as [|h hs IH]; intros k ks c inst.
  - simpl. unfold changedAfter, instAfter. simpl. by rewrite orb_false_r.
  - cbn [fold_left keyFields map packFrom].
    assert (Hstep : forall v,
      fieldVal r inst h = v ->
      isLUC h = false ->
      CmputKey_step r (Some (k, ks, c, inst)) h =
      '(k1, ks1) ← AddPrirtyToKey_ k ks (fieldBits r h) v (to_ulong (fieldMax r h));
      Some (k1, ks1, c, inst)).
    { intros v <- Hl. destruct h; try discriminate; reflexivity. }
    destruct (isLUC h) eqn:Hl.
    + destruct h; try discriminate. clear Hstep.
      cbn [CmputKey_step mbind option_bind SchedInst.CmputLastUseCnt
           SchedInst.GetLastUseCnt fieldBits fieldVal fieldMax fst snd].
      destruct (AddPrirtyToKey_ k ks (useCntBits_ r)
                  (to_ulong (wrap_s16 (pendingLastUseCnt_ inst)))
                  (to_ulong (maxUseCnt_ r))) as [[k1 ks1]|] eqn:E.
      * cbn [mbind option_bind]. rewrite IH.
        change (mkInst _ _ _ _ _ _ _ _ _ _) with (SchedInst.CmputLastUseCnt inst).2.
        rewrite keyFields_recomputed.
        destruct (packFrom _ _) as [[k' ks']|]; [|reflexivity].
        cbn [mbind option_bind]. f_equal. f_equal; [f_equal|].
        -- unfold changedAfter. rewrite lucChanged_recomputed, andb_false_r, orb_false_r.
           unfold lucChanged, SchedInst.GetLastUseCnt, hasLUC.
           cbn [existsb isLUC orb andb].
           destruct (_ =? _); destruct c; reflexivity.
        -- unfold instAfter, hasLUC. cbn [existsb isLUC orb].
           destruct (existsb isLUC hs); reflexivity.
      * cbn [mbind option_bind]. rewrite fold_CmputKey_None.
        by rewrite packFrom_None.
    + rewrite (Hstep _ eq_refl eq_refl). cbn [fst snd mbind option_bind].
      destruct (AddPrirtyToKey_ _ _ _ _ _) as [[k1 ks1]|] eqn:E.
      * cbn [mbind option_bind]. rewrite IH.
        destruct (packFrom _ _) as [[k' ks']|]; [|reflexivity].
        cbn [mbind option_bind]. unfold changedAfter, instAfter, hasLUC.
        cbn [existsb]. rewrite Hl. reflexivity.
      * cbn [mbind option_bind]. rewrite fold_CmputKey_None.
        by rewrite packFrom_None.
Qed.

Lemma CmputKey_eq r inst u :
  CmputKey_ r inst u =
  '(k, _) ← packFrom (keyFields r inst (vctr (prirts_ r))) (Some (0, 0));
  Some (k, changedAfter (vctr (prirts_ r)) (negb u) inst,
        instAfter (vctr (prirts_ r)) inst).
Proof.
  unfold CmputKey_. rewrite CmputKey_fold.
  destruct (packFrom _ _) as [[k ks]|]; [|reflexivity].
  cbn [mbind option_bind]. by destruct u.
Qed.

Lemma ctor_width_sets g r t h : layout_of g (ctor_width g (r, t) h).1 h.
Proof. destruct h; split; reflexivity. Qed.

Lemma ctor_width_keeps g r t h0 h :
  layout_of g r h -> layout_of g (ctor_width g (r, t) h0).1 h.
Proof. intros [H1 H2]. destruct h0, h; split; solve [reflexivity | assumption]. Qed.

Lemma ctor_width_frame g r t h :
  prirts_ (ctor_width g (r, t) h).1 = prirts_ r /\
  prirtyLst_ (ctor_width g (r, t) h).1 = prirtyLst_ r /\
  latestSubLst_ (ctor_width g (r, t) h).1 = latestSubLst_ r.
Proof. destruct h; repeat split; reflexivity. Qed.

Lemma ctor_width_total g r t h :
  (ctor_width g (r, t) h).2 = wrap_u16 (t + fieldWidth g h).
Proof. destruct h; reflexivity. Qed.

Lemma fieldWidth_nonneg g h : 0 <= fieldWidth g h.
Proof. apply bits_nonneg. Qed.

Lemma summedWidths_nonneg g hs : 0 <= summedWidths g hs.
Proof.
  induction hs as [|h hs IH]; simpl; [lia|].
  pose proof (fieldWidth_nonneg g h). lia.
Qed.

Lemma summedWidths_le g hs :
  maxima_ok g hs -> summedWidths g hs <= ULONG_BITS * Z.of_nat (length hs).
Proof.
  induction 1 as [|h hs Hh _ IH]; [simpl; lia|].
  cbn [summedWidths foldr length]. fold (summedWidths g hs).
  pose proof (bits_le_word _ Hh). unfold fieldWidth. lia.
Qed.

Lemma ctor_width_fold g hs : forall r0 t0,
  0 <= t0 -> t0 + summedWidths g hs < 2 ^ 16 ->
  let res := fold_left (ctor_width g) hs (r0, t0) in
  res.2 = t0 + summedWidths g hs /\
  prirts_ res.1 = prirts_ r0 /\
  prirtyLst_ res.1 = prirtyLst_ r0 /\
  latestSubLst_ res.1 = latestSubLst_ r0 /\
  (forall h, layout_of g r0 h -> layout_of g res.1 h) /\
  Forall (layout_of g res.1) hs.
Proof.
  induction hs as [|h hs IH]; intros r0 t0 Ht0 Hsum.
  - simpl. rewrite Z.add_0_r. split_and!; auto.
  - cbn [summedWidths foldr] in Hsum. fold (summedWidths g hs) in Hsum.
    pose proof (fieldWidth_nonneg g h). pose proof (summedWidths_nonneg g hs).
    cbn [fold_left].
    destruct (ctor_width g (r0, t0) h) as [r1 t1] eqn:E.
    pose proof (ctor_width_total g r0 t0 h) as Ht.
    pose proof (ctor_width_frame g r0 t0 h) as (F1 & F2 & F3).
    pose proof (ctor_width_sets g r0 t0 h) as Hset.
    pose proof (ctor_width_keeps g r0 t0 h) as Hkeep.
    rewrite E in *. cbn [fst snd] in *.
    rewrite wrap_u16_small in Ht by lia. subst t1.
    destruct (IH r1 (t0 + fieldWidth g h) ltac:(lia) ltac:(lia))
      as (I1 & I2 & I3 & I4 & I5 & I6).
    cbn zeta. split_and!.
    + rewrite I1. cbn [summedWidths foldr]. fold (summedWidths g hs). lia.
    + congruence.
    + congruence.
    + congruence.
    + intros h' Hh'. apply I5, Hkeep, Hh'.
    + constructor; [apply I5, Hset | exact I6].
Qed.

Lemma maxFields_ok g r hs :
  maxima_ok g hs -> Forall (layout_of g r) hs -> Forall field_ok (maxFields r hs).
Proof.
  intros Hm Hl. unfold maxima_ok in Hm.
  induction hs as [|h hs IH]; [constructor|].
  inversion Hm as [|? ? Hh Hm']; inversion Hl as [|? ? [E1 E2] Hl']; subst.
  constructor; [|by apply IH]. clear IH Hm Hl Hm' Hl'. rename Hh into Hm.
  unfold field_ok. cbn [fst snd]. rewrite E1, E2.
  rewrite to_ulong_small by exact Hm.
  unfold fieldWidth. pose proof (bits_nonneg (graphMax g h)).
  pose proof (bits_holds (graphMax g h)). lia.
Qed.

Lemma widthsOf_maxFields g r hs :
  Forall (layout_of g r) hs -> widthsOf (maxFields r hs) = summedWidths g hs.
Proof.
  induction 1 as [|h hs [_ Hh] _ IH]; [reflexivity|].
  cbn [maxFields map]. fold (maxFields r hs). rewrite widthsOf_cons, IH.
  cbn [summedWidths foldr]. fold (summedWidths g hs). by rewrite Hh.
Qed.

Lemma widthsOf_keyFields g r inst hs :
  Forall (layout_of g r) hs -> widthsOf (keyFields r inst hs) = summedWidths g hs.
Proof.
  induction 1 as [|h hs [_ Hh] _ IH]; [reflexivity|].
  cbn [keyFields map]. fold (keyFields r inst hs). rewrite widthsOf_cons, IH.
  cbn [summedWidths foldr]. fold (summedWidths g hs). by rewrite Hh.
Qed.

Lemma packZ_maxima g r hs :
  maxima_ok g hs -> Forall (layout_of g r) hs ->
  packZ (maxFields r hs) 0 = packedMaxima g hs.
Proof.
  intros Hm Hl. induction hs as [|h hs IH]; [reflexivity|].
  inversion Hm as [|? ? Hh Hm']; inversion Hl as [|? ? [E1 E2] Hl']; subst.
  pose proof (maxFields_ok g r hs Hm' Hl') as Hok.
  cbn [maxFields map packZ packedMaxima fst snd]. fold (maxFields r hs).
  rewrite (packZ_split _ _ Hok), Z.mul_0_l, Z.add_0_l.
  rewrite (widthsOf_maxFields g r hs Hl'), E1, (to_ulong_small _ Hh), (IH Hm' Hl').
  symmetry. apply lor_shiftl_small; [apply summedWidths_nonneg|].
  rewrite <- (IH Hm' Hl'), <- (widthsOf_maxFields g r hs Hl').
  apply packZ_0_bound, Hok.
Qed.

Lemma ctor_layout g p :
  maxima_ok g (vctr p) -> (length (vctr p) <= 1023)%nat ->
  let res := fold_left (ctor_width g) (vctr p) (ReadyList_blank p, 0) in
  res.2 = summedWidths g (vctr p) /\
  prirts_ res.1 = p /\ prirtyLst_ res.1 = [] /\ latestSubLst_ res.1 = [] /\
  Forall (layout_of g res.1) (vctr p).
Proof.
  intros Hm Hlen.
  pose proof (summedWidths_le g (vctr p) Hm) as Hle.
  assert (Hno : 0 + summedWidths g (vctr p) < 2 ^ 16).
  { unfold ULONG_BITS in Hle. change (2 ^ 16) with 65536. lia. }
  destruct (ctor_width_fold g (vctr p) (ReadyList_blank p) 0 ltac:(lia) Hno)
    as (H1 & H2 & H3 & H4 & _ & H6).
  cbn zeta. split_and!; auto.
Qed.

Lemma fieldVal_nonneg r inst h : 0 <= fieldVal r inst h.
Proof.
  destruct h; cbn [fieldVal]; unfold to_ulong;
    apply Z.mod_pos_bound; reflexivity.
Qed.

Lemma keyFields_ok g r inst hs :
  maxima_ok g hs -> Forall (layout_of g r) hs ->
  Forall (fun h => fieldVal r inst h <= fieldMax r h) hs ->
  Forall field_ok (keyFields r inst hs).
Proof.
  intros Hm Hl Hv. unfold maxima_ok in Hm.
  induction hs as [|h hs IH]; [constructor|].
  inversion Hm as [|? ? Hh Hm']; inversion Hl as [|? ? [E1 E2] Hl'];
    inversion Hv as [|? ? Hv1 Hv']; subst.
  constructor; [|by apply IH].
  unfold field_ok. cbn [fst snd].
  pose proof (fieldVal_nonneg r inst h).
  rewrite E1 in Hv1 |- *. rewrite E2, (to_ulong_small _ Hh).
  unfold fieldWidth. pose proof (bits_nonneg (graphMax g h)).
  pose proof (bits_holds (graphMax g h)). lia.
Qed.

(** The key of an instruction whose fields respect the maxima. *)
Lemma CmputKey_packed g r inst u :
  Configured g r ->
  Forall (fun h => fieldVal r inst h <= fieldMax r h) (vctr (prirts_ r)) ->
  CmputKey_ r inst u =
    Some (packZ (keyFields r inst (vctr (prirts_ r))) 0,
          changedAfter (vctr (prirts_ r)) (negb u) inst,
          instAfter (vctr (prirts_ r)) inst) /\
  0 <= packZ (keyFields r inst (vctr (prirts_ r))) 0 < 2 ^ ULONG_BITS.
Proof.
  intros (Hm & Hsum & Hl) Hv.
  pose proof (keyFields_ok g r inst _ Hm Hl Hv) as Hok.
  pose proof (widthsOf_keyFields g r inst _ Hl) as Hw.
  destruct (packFrom_ok (keyFields r inst (vctr (prirts_ r))) 0 0 Hok
              ltac:(lia) ltac:(simpl; lia) ltac:(lia)) as [E B].
  rewrite CmputKey_eq, E. split; [reflexivity|].
  rewrite Z.add_0_l, Hw in B.
  pose proof (pow2_le_word (summedWidths g (vctr (prirts_ r)))
                ltac:(pose proof (summedWidths_nonneg g (vctr (prirts_ r))); lia)).
  lia.
Qed.

(** The constructor yields a configured list. *)
Lemma ReadyList_new_Configured g p r :
  maxima_ok g (vctr p) -> (length (vctr p) <= 1023)%nat ->
  ReadyList_new g p = Some r ->
  Configured g r /\ prirts_ r = p /\ prirtyLst_ r = [] /\ latestSubLst_ r = [].
Proof.
  intros Hm Hlen. unfold ReadyList_new.
  pose proof (ctor_layout g p Hm Hlen) as H. cbn zeta in H.
  destruct (fold_left (ctor_width g) (vctr p) (ReadyList_blank p, 0)) as [r1 t].
  cbn [fst snd] in H. destruct H as (Ht & Hp & Hq & Hs & Hl).
  destruct (Z.leb_spec t (8 * 8)); [|discriminate].
  destruct (fold_left _ _ _) as [[key ks]|]; [|discriminate].
  cbn [mbind option_bind]. intros [= <-].
  unfold Configured. cbn [RL.set_maxPriority prirts_ prirtyLst_ latestSubLst_].
  rewrite Hp. split_and!; auto.
  unfold ULONG_BITS. lia.
Qed.

(** The stronger, lexicographic form: a larger first field wins whatever
    the later fields hold. *)
Lemma first_field_dominates fa fb fs1 fs2 :
  field_ok fa -> field_ok fb -> Forall field_ok fs1 -> Forall field_ok fs2 ->
  widthsOf fs1 = widthsOf fs2 ->
  fb.1.2 < fa.1.2 ->
  packZ (fb :: fs2) 0 < packZ (fa :: fs1) 0.
Proof.
  intros Ha Hb H1 H2 Hw Hlt.
  cbn [packZ]. rewrite (packZ_split fs1 _ H1), (packZ_split fs2 _ H2).
  pose proof (packZ_0_bound fs1 H1). pose proof (packZ_0_bound fs2 H2).
  pose proof (widthsOf_nonneg fs1 H1). rewrite <- Hw in *.
  assert (0 < 2 ^ widthsOf fs1) by (apply Z.pow_pos_nonneg; lia).
  nia.
Qed.

(** C5. A configuration whose summed field widths exceed the width of
    [unsigned long] makes the constructor fail; one within the budget
    constructs, and [MaxPriority()] is the bitwise OR of each configured
    maximum shifted left into its field, the first criterion most
    significant.  (The criteria vector is a bounded array: with at most
    1023 entries the [uint16_t] running total cannot wrap.) *)
Theorem ReadyList_key_budget (g : DataDepGraph) (p : SchedPriorities) :
  maxima_ok g (vctr p) ->
  (length (vctr p) <= 1023)%nat ->
  (ULONG_BITS < summedWidths g (vctr p) -> ReadyList_new g p = None) /\
  (summedWidths g (vctr p) <= ULONG_BITS ->
   exists r, ReadyList_new g p = Some r /\
             MaxPriority r = packedMaxima g (vctr p)).
Proof.
  intros Hm Hlen.
  pose proof (ctor_layout g p Hm Hlen) as H. cbn zeta in H.
  unfold ReadyList_new.
  destruct (fold_left (ctor_width g) (vctr p) (ReadyList_blank p, 0)) as [r1 t].
  cbn [fst snd] in H. destruct H as (Ht & Hp & _ & _ & Hl).
  unfold ULONG_BITS. split; intros Hsum.
  - destruct (Z.leb_spec t (8 * 8)); [lia|reflexivity].
  - destruct (Z.leb_spec t (8 * 8)); [|lia].
    rewrite ctor_maxkey_pack.
    pose proof (maxFields_ok g r1 _ Hm Hl) as Hok.
    destruct (packFrom_ok (maxFields r1 (vctr p)) 0 0 Hok ltac:(lia)
                ltac:(simpl; lia)) as [E _].
    { rewrite (widthsOf_maxFields g r1 _ Hl). unfold ULONG_BITS. lia. }
    rewrite E. cbn [mbind option_bind]. eexists. split; [reflexivity|].
    unfold MaxPriority. cbn [RL.set_maxPriority maxPriority_].
    apply packZ_maxima; assumption.
Qed.

(** C4. Two instructions whose field values agree on every configured
    criterion but the first: the one with the larger first field has the
    strictly larger key.  Keys are [unsigned long] values, so the integer
    order is the unsigned comparison. *)
Theorem first_criterion_decides (g : DataDepGraph) (r : ReadyList)
    (h : LISTSCHED_HEURISTIC) (hs : list LISTSCHED_HEURISTIC)
    (a b : SchedInstruction) (u : bool) :
  Configured g r ->
  vctr (prirts_ r) = h :: hs ->
  Forall (fun h' => fieldVal r a h' <= fieldMax r h') (h :: hs) ->
  Forall (fun h' => fieldVal r b h' <= fieldMax r h') (h :: hs) ->
  Forall (fun h' => fieldVal r a h' = fieldVal r b h') hs ->
  fieldVal r b h < fieldVal r a h ->
  exists ka ca a' kb cb b',
    CmputKey_ r a u = Some (ka, ca, a') /\
    CmputKey_ r b u = Some (kb, cb, b') /\
    0 <= kb < ka /\ ka < 2 ^ ULONG_BITS.
Proof.
  intros Hc Hv Ha Hb Hagree Hlt.
  rewrite <- Hv in Ha, Hb.
  destruct (CmputKey_packed g r a u Hc Ha) as [Ea Ba].
  destruct (CmputKey_packed g r b u Hc Hb) as [Eb Bb].
  do 6 eexists. split; [exact Ea|]. split; [exact Eb|].
  split; [|lia]. split; [lia|].
  destruct Hc as (Hm & _ & Hl). rewrite Hv in *.
  pose proof (keyFields_ok g r a _ Hm Hl Ha) as Hoka.
  pose proof (keyFields_ok g r b _ Hm Hl Hb) as Hokb.
  cbn [keyFields map] in Hoka, Hokb |- *.
  inversion Hoka; inversion Hokb; subst.
  apply first_field_dominates; auto.
  fold (keyFields r a hs) (keyFields r b hs).
  inversion Hl; subst.
  by rewrite (widthsOf_keyFields g r a hs), (widthsOf_keyFields g r b hs).
Qed.

Lemma wGraph_maxima : maxima_ok wGraph (vctr wPrirts).
Proof. repeat constructor; vm_compute; congruence. Qed.

Lemma wReady_new : ReadyList_new wGraph wPrirts = Some wReady.
Proof. reflexivity. Qed.

Lemma wReady_Configured : Configured wGraph wReady.
Proof.
  apply (ReadyList_new_Configured wGraph wPrirts wReady wGraph_maxima);
    [simpl; lia | exact wReady_new].
Qed.

(** [ReadyList_key_budget] on a sample input. *)
Lemma ReadyList_key_budget_witness :
  exists r, ReadyList_new wGraph wPrirts = Some r /\ MaxPriority r = 58.
Proof.
  destruct (ReadyList_key_budget wGraph wPrirts wGraph_maxima) as [_ H].
  - simpl. lia.
  - exact (H ltac:(vm_compute; congruence)).
Defined.

(** [first_criterion_decides] on a sample input. *)
Lemma first_criterion_decides_witness :
  exists ka ca a' kb cb b',
    CmputKey_ wReady wInst0 false = Some (ka, ca, a') /\
    CmputKey_ wReady wInst1 false = Some (kb, cb, b') /\
    0 <= kb < ka /\ ka < 2 ^ ULONG_BITS.
Proof.
  apply (first_criterion_decides wGraph wReady LSH_CP [LSH_LUC; LSH_UC]
           wInst0 wInst1 false wReady_Configured eq_refl).
  - repeat constructor; vm_compute; congruence.
  - repeat constructor; vm_compute; congruence.
  - repeat constructor.
  - vm_compute. reflexivity.
Defined.

(** *** Stores *)
Lemma length_store i x g : length (insts_ (DDG.store i x g)) = length (insts_ g).
Proof. unfold DDG.store. simpl. apply length_insert. Qed.

Lemma queued_store g i x j :
  (i < length (insts_ g))%nat ->
  queued (DDG.store i x g) j = if decide (j = i) then ready_ x else queued g j.
Proof.
  intros Hi. unfold queued, DDG.store. cbn [insts_ DDG.set_insts].
  case_decide as Hji.
  - subst j. by rewrite list_lookup_insert_eq.
  - by rewrite list_lookup_insert_ne.
Qed.

Lemma graphMax_store i x g h : graphMax (DDG.store i x g) h = graphMax g h.
Proof.
  destruct h; try reflexivity;
    unfold graphMax, DDG.GetInstCnt; by rewrite length_store.
Qed.

Lemma summedWidths_store i x g hs :
  summedWidths (DDG.store i x g) hs = summedWidths g hs.
Proof.
  induction hs as [|h hs IH]; [reflexivity|].
  cbn [summedWidths foldr]. fold (summedWidths (DDG.store i x g) hs).
  fold (summedWidths g hs). unfold fieldWidth. by rewrite IH, graphMax_store.
Qed.

Lemma Configured_store i x g r : Configured g r -> Configured (DDG.store i x g) r.
Proof.
  intros (Hm & Hs & Hl). split_and!.
  - eapply Forall_impl; [exact Hm|]. intros h Hh. by rewrite graphMax_store.
  - by rewrite summedWidths_store.
  - eapply Forall_impl; [exact Hl|]. intros h [E1 E2].
    unfold fieldWidth. by rewrite graphMax_store.
Qed.

Lemma Configured_same_config g r r' :
  same_config r r' -> Configured g r -> Configured g r'.
Proof.
  intros [Hp Hf] (Hm & Hs & Hl). unfold Configured. rewrite Hp. split_and!; auto.
  eapply Forall_impl; [exact Hl|]. intros h [E1 E2].
  destruct (Hf h) as [-> ->]. auto.
Qed.

Lemma fieldVal_same_config r r' x h :
  same_config r r' -> fieldVal r' x h = fieldVal r x h.
Proof.
  intros [_ Hf].
  pose proof (Hf LSH_NID) as [E1 _]. pose proof (Hf LSH_ISO) as [E2 _].
  cbn [fieldMax] in E1, E2. destruct h; cbn [fieldVal]; congruence.
Qed.

Lemma same_config_refl r : same_config r r.
Proof. split; auto. Qed.

Lemma same_config_trans r1 r2 r3 :
  same_config r1 r2 -> same_config r2 r3 -> same_config r1 r3.
Proof.
  intros [P1 F1] [P2 F2]. split; [congruence|].
  intros h. destruct (F1 h), (F2 h). split; congruence.
Qed.

Lemma same_config_prirtyLst l r : same_config r (RL.set_prirtyLst l r).
Proof. split; [reflexivity|]. intros h. destruct h; split; reflexivity. Qed.

Lemma same_config_latestSubLst l r : same_config r (RL.set_latestSubLst l r).
Proof. split; [reflexivity|]. intros h. destruct h; split; reflexivity. Qed.

Lemma keys_ok_same_config g r r' : same_config r r' -> keys_ok g r -> keys_ok g r'.
Proof.
  intros Hs [Hc Hf]. split; [by eapply Configured_same_config|].
  destruct Hs as [Hp Hm]. rewrite Hp.
  eapply Forall_impl; [exact Hf|]. intros x Hx.
  eapply Forall_impl; [exact Hx|]. intros h Hh.
  rewrite (fieldVal_same_config r r' x h (conj Hp Hm)).
  destruct (Hm h) as [-> _]. exact Hh.
Qed.

Lemma keys_ok_store g r i x y :
  insts_ g !! i = Some x ->
  (forall h, fieldVal r y h = fieldVal r x h) ->
  keys_ok g r -> keys_ok (DDG.store i y g) r.
Proof.
  intros Hi Hy [Hc Hf]. split; [by apply Configured_store|].
  unfold DDG.store. cbn [insts_ DDG.set_insts].
  apply Forall_insert; [exact Hf|].
  rewrite Forall_lookup in Hf. specialize (Hf i x Hi).
  eapply Forall_impl; [exact Hf|]. intros h Hh. by rewrite Hy.
Qed.

(** *** The container *)
Lemma elem_of_InsrtElmnt e k l x :
  x ∈ PriorityArrayList.InsrtElmnt e k l <-> x = (e, k) \/ x ∈ l.
Proof.
  induction l as [|[e' k'] l IH]; cbn [PriorityArrayList.InsrtElmnt].
  - rewrite list_elem_of_singleton, elem_of_nil. tauto.
  - destruct (k' <? k).
    + rewrite elem_of_cons. tauto.
    + rewrite !elem_of_cons, IH. tauto.
Qed.

Lemma InsrtElmnt_perm e k l :
  PriorityArrayList.InsrtElmnt e k l ≡ₚ (e, k) :: l.
Proof.
  induction l as [|[e' k'] l IH]; cbn [PriorityArrayList.InsrtElmnt]; [done|].
  destruct (k' <? k); [done|]. rewrite IH. apply Permutation_swap.
Qed.

(** *** Instructions after a key computation *)
Lemma instAfter_ready hs x : ready_ (instAfter hs x) = ready_ x.
Proof. unfold instAfter. by destruct (hasLUC hs). Qed.

Lemma instAfter_num hs x : num_ (instAfter hs x) = num_ x.
Proof. unfold instAfter. by destruct (hasLUC hs). Qed.

Lemma instAfter_fieldVal r hs x h : fieldVal r (instAfter hs x) h = fieldVal r x h.
Proof.
  unfold instAfter. destruct (hasLUC hs); [|reflexivity].
  apply fieldVal_recomputed.
Qed.

Lemma set_ready_fieldVal r b x h :
  fieldVal r (SchedInst.set_ready b x) h = fieldVal r x h.
Proof. destruct h; reflexivity. Qed.

(** *** [AddInst] *)
Lemma AddInst_inv i w w' :
  AddInst i w = Some w' ->
  exists x key,
    insts_ (ddg w) !! i = Some x /\
    CmputKey_ (rdy w) x false =
      Some (key, true, instAfter (vctr (prirts_ (rdy w))) x) /\
    ddg w' = DDG.store i (instAfter (vctr (prirts_ (rdy w))) x) (ddg w) /\
    rdy w' = RL.set_prirtyLst
               (PriorityArrayList.InsrtElmnt (num_ x) key (prirtyLst_ (rdy w)))
               (rdy w).
Proof.
  unfold AddInst, DDG.GetInstByIndx. intros H.
  destruct (insts_ (ddg w) !! i) as [x|] eqn:Hx; [|discriminate].
  cbn [mbind option_bind] in H.
  pose proof (CmputKey_eq (rdy w) x false) as E.
  destruct (CmputKey_ (rdy w) x false) as [[[key c] x']|] eqn:Hk; [|discriminate].
  cbn [mbind option_bind] in H.
  destruct (packFrom _ _) as [[k ks]|]; [|discriminate].
  cbn [mbind option_bind negb] in E. injection E as -> -> ->.
  unfold changedAfter in H. cbn [orb] in H. injection H as <-.
  exists x, k. split_and!; try done.
  cbn [rdy]. unfold SchedInst.GetNum. by rewrite instAfter_num.
Qed.

Lemma AddInst_total i x w :
  insts_ (ddg w) !! i = Some x -> keys_ok (ddg w) (rdy w) ->
  is_Some (AddInst i w).
Proof.
  intros Hx [Hc Hf].
  rewrite Forall_lookup in Hf. specialize (Hf i x Hx).
  destruct (CmputKey_packed (ddg w) (rdy w) x false Hc Hf) as [E _].
  unfold AddInst, DDG.GetInstByIndx. rewrite Hx. cbn [mbind option_bind].
  rewrite E. cbn [mbind option_bind]. unfold changedAfter. cbn [negb orb]. eauto.
Qed.

(** *** Scans *)
Lemma bool_decide_elem_nil (j : nat) : bool_decide (j ∈ @nil nat) = false.
Proof. apply bool_decide_false, not_elem_of_nil. Qed.

Lemma bool_decide_elem_cons (j i : nat) (l : list nat) :
  bool_decide (j ∈ i :: l) = Nat.eqb j i || bool_decide (j ∈ l).
Proof.
  destruct (Nat.eqb_spec j i) as [->|Hne]; cbn [orb].
  - apply bool_decide_true. left.
  - apply bool_decide_ext. rewrite elem_of_cons. tauto.
Qed.

Lemma scanned_ext q1 q2 l :
  (forall j, q1 j = q2 j) -> scanned q1 l = scanned q2 l.
Proof.
  revert q1 q2. induction l as [|i l IH]; intros q1 q2 H; [reflexivity|].
  cbn [scanned]. rewrite (H i). destruct (q2 i); [reflexivity|].
  f_equal. apply IH. intros j. by rewrite (H j).
Qed.

Lemma scanned_agree q1 q2 l :
  (forall j, j ∈ l -> q1 j = q2 j) -> scanned q1 l = scanned q2 l.
Proof.
  revert q1 q2. induction l as [|i l IH]; intros q1 q2 H; [reflexivity|].
  cbn [scanned]. rewrite (H i) by (left; reflexivity).
  destruct (q2 i); [reflexivity|].
  f_equal. apply IH. intros j Hj. by rewrite (H j) by (right; exact Hj).
Qed.

Lemma scanned_unqueued q l : Forall (fun j => q j = false) (scanned q l).
Proof.
  revert q. induction l as [|i l IH]; intros q; [constructor|].
  cbn [scanned]. destruct (q i) eqn:Hq; constructor; [exact Hq|].
  eapply Forall_impl; [apply IH|]. intros j Hj. cbn beta in Hj.
  by apply orb_false_iff in Hj as [_ ?].
Qed.

Lemma scanned_NoDup q l : NoDup (scanned q l).
Proof.
  revert q. induction l as [|i l IH]; intros q; [constructor|].
  cbn [scanned]. destruct (q i); constructor; [|apply IH].
  intros Hin.
  pose proof (scanned_unqueued (fun j => Nat.eqb j i || q j) l) as H.
  rewrite Forall_forall in H. specialize (H i Hin). cbn beta in H.
  by rewrite Nat.eqb_refl in H.
Qed.

Lemma scanned_NoDup_takeUntil q l :
  NoDup l -> scanned q l = takeUntil q l.
Proof.
  revert q. induction l as [|i l IH]; intros q Hnd; [reflexivity|].
  inversion Hnd as [|? ? Hni Hnd']; subst.
  cbn [scanned takeUntil]. destruct (q i); [reflexivity|]. f_equal.
  rewrite <- (IH q Hnd'). apply scanned_agree. intros j Hj.
  destruct (Nat.eqb_spec j i) as [->|_]; [contradiction|reflexivity].
Qed.

Lemma takeUntil_filter q t :
  queued_tail q t -> takeUntil q t = filter (fun j => q j = false) t.
Proof.
  induction t as [|i t IH]; intros Ht; [reflexivity|].
  cbn [takeUntil]. rewrite filter_cons. destruct (q i) eqn:Hq.
  - rewrite decide_False by congruence.
    specialize (Ht [] i t eq_refl Hq).
    symmetry. clear IH. induction Ht as [|y t Hy _ IHt]; [reflexivity|].
    rewrite filter_cons, decide_False by congruence. exact IHt.
  - rewrite decide_True by reflexivity. f_equal. apply IH.
    intros l1 x l2 -> Hx. exact (Ht (i :: l1) x l2 eq_refl Hx).
Qed.

Lemma AddLatestSubList_loop_cons i rest w :
  AddLatestSubList_loop (i :: rest) w =
  match insts_ (ddg w) !! i with
  | None => None
  | Some x =>
      if ready_ x then Some w
      else
        match AddInst i w with
        | None => None
        | Some w1 =>
            AddLatestSubList_loop rest
              (afterAdd i (instAfter (vctr (prirts_ (rdy w))) x) w1)
        end
  end.
Proof.
  cbn [AddLatestSubList_loop]. unfold DDG.GetInstByIndx.
  destruct (insts_ (ddg w) !! i) as [x|] eqn:Hx; [|reflexivity].
  cbn [mbind option_bind]. unfold SchedInst.IsInReadyList.
  destruct (ready_ x); [reflexivity|].
  destruct (AddInst i w) as [w1|] eqn:Ha; [|reflexivity].
  cbn [mbind option_bind].
  destruct (AddInst_inv i w w1 Ha) as (x' & key & Hx' & _ & Hd & _).
  rewrite Hx in Hx'. injection Hx' as <-.
  assert (Hl : insts_ (ddg w1) !! i =
               Some (instAfter (vctr (prirts_ (rdy w))) x)).
  { rewrite Hd. unfold DDG.store. cbn [insts_ DDG.set_insts].
    apply list_lookup_insert_eq. by eapply lookup_lt_Some. }
  rewrite Hl. reflexivity.
Qed.

(** What one iteration does to an instruction that is not queued. *)
Lemma AddLatest_step i x w w1 :
  insts_ (ddg w) !! i = Some x -> ready_ x = false ->
  AddInst i w = Some w1 ->
  let w2 := afterAdd i (instAfter (vctr (prirts_ (rdy w))) x) w1 in
  length (insts_ (ddg w2)) = length (insts_ (ddg w)) /\
  same_config (rdy w) (rdy w2) /\
  latestSubLst_ (rdy w2) = latestSubLst_ (rdy w) ++ [i] /\
  (forall j, queued (ddg w2) j = Nat.eqb j i || queued (ddg w) j) /\
  (exists key, prirtyLst_ (rdy w2) =
     PriorityArrayList.InsrtElmnt (num_ x) key (prirtyLst_ (rdy w))) /\
  (numbered (ddg w) -> numbered (ddg w2)) /\
  (keys_ok (ddg w) (rdy w) -> keys_ok (ddg w2) (rdy w2)).
Proof.
  intros Hx Hr Ha.
  destruct (AddInst_inv i w w1 Ha) as (x' & key & Hx' & _ & Hd & Hq).
  rewrite Hx in Hx'. injection Hx' as <-.
  pose proof (lookup_lt_Some _ _ _ Hx) as Hi.
  set (hs := vctr (prirts_ (rdy w))) in *.
  assert (Hi1 : (i < length (insts_ (ddg w1)))%nat)
    by (rewrite Hd, length_store; exact Hi).
  cbn zeta. unfold afterAdd. cbn [ddg rdy]. split_and!.
  - by rewrite length_store, Hd, length_store.
  - rewrite Hq. eapply same_config_trans; [apply same_config_prirtyLst|].
    apply same_config_latestSubLst.
  - by rewrite Hq.
  - intros j. rewrite queued_store by exact Hi1.
    rewrite Hd, queued_store by exact Hi. case_decide as Hj.
    + subst j. by rewrite Nat.eqb_refl.
    + by destruct (Nat.eqb_spec j i).
  - exists key. by rewrite Hq.
  - intros Hn j y Hy. rewrite Hd in Hy.
    unfold DDG.store in Hy. cbn [insts_ DDG.set_insts] in Hy.
    rewrite list_insert_insert_eq in Hy.
    destruct (decide (j = i)) as [->|Hne].
    + rewrite list_lookup_insert_eq in Hy by exact Hi. injection Hy as <-.
      cbn. rewrite instAfter_num. by apply Hn.
    + rewrite list_lookup_insert_ne in Hy by congruence. by apply Hn.
  - intros Hk.
    assert (Hk1 : keys_ok (ddg w1) (rdy w)).
    { rewrite Hd. eapply keys_ok_store; [exact Hx| |exact Hk].
      intros h. apply instAfter_fieldVal. }
    assert (Hl1 : insts_ (ddg w1) !! i = Some (instAfter hs x)).
    { rewrite Hd. unfold DDG.store. cbn [insts_ DDG.set_insts].
      by apply list_lookup_insert_eq. }
    eapply keys_ok_same_config.
    2:{ eapply keys_ok_store; [exact Hl1| |exact Hk1].
        intros h. apply set_ready_fieldVal. }
    rewrite Hq. eapply same_config_trans; [apply same_config_prirtyLst|].
    apply same_config_latestSubLst.
Qed.

(** *** The whole scan *)
Lemma AddLatestSubList_loop_inv todo : forall w w',
  AddLatestSubList_loop todo w = Some w' ->
  let added := scanned (queued (ddg w)) todo in
  length (insts_ (ddg w')) = length (insts_ (ddg w)) /\
  same_config (rdy w) (rdy w') /\
  latestSubLst_ (rdy w') = latestSubLst_ (rdy w) ++ added /\
  (forall j, queued (ddg w') j = queued (ddg w) j || bool_decide (j ∈ added)) /\
  (forall e, e ∈ prirtyLst_ (rdy w) -> e ∈ prirtyLst_ (rdy w')) /\
  (numbered (ddg w) ->
   numbered (ddg w') /\
   map fst (prirtyLst_ (rdy w')) ≡ₚ added ++ map fst (prirtyLst_ (rdy w))) /\
  (keys_ok (ddg w) (rdy w) -> keys_ok (ddg w') (rdy w')).
Proof.
  induction todo as [|i rest IH]; intros w w' H; cbn zeta.
  - injection H as <-. cbn [scanned]. rewrite app_nil_r.
    split_and!; auto using same_config_refl.
    intros j. by rewrite bool_decide_elem_nil, orb_false_r.
  - rewrite AddLatestSubList_loop_cons in H.
    destruct (insts_ (ddg w) !! i) as [x|] eqn:Hx; [|discriminate].
    assert (Hqi : queued (ddg w) i = ready_ x) by (unfold queued; by rewrite Hx).
    cbn [scanned]. rewrite Hqi.
    destruct (ready_ x) eqn:Hr.
    + injection H as <-. rewrite app_nil_r.
      split_and!; auto using same_config_refl.
      intros j. by rewrite bool_decide_elem_nil, orb_false_r.
    + destruct (AddInst i w) as [w1|] eqn:Ha; [|discriminate].
      destruct (AddLatest_step i x w w1 Hx Hr Ha)
        as (S1 & S2 & S3 & S4 & (key & S5) & S6 & S7).
      destruct (IH _ _ H) as (I1 & I2 & I3 & I4 & I5 & I6 & I7).
      set (w2 := afterAdd i (instAfter (vctr (prirts_ (rdy w))) x) w1) in *.
      assert (Hsc : scanned (queued (ddg w2)) rest =
                    scanned (fun j => Nat.eqb j i || queued (ddg w) j) rest)
        by (apply scanned_ext; exact S4).
      rewrite Hsc in *. split_and!.
      * congruence.
      * eapply same_config_trans; eassumption.
      * rewrite I3, S3, <- app_assoc. reflexivity.
      * intros j. rewrite I4, S4, bool_decide_elem_cons.
        destruct (Nat.eqb j i), (queued (ddg w) j); reflexivity.
      * intros e He. apply I5. rewrite S5. apply elem_of_InsrtElmnt. by right.
      * intros Hn. destruct (I6 (S6 Hn)) as [N P]. split; [exact N|].
        rewrite P, S5, InsrtElmnt_perm. cbn [map fst app].
        rewrite (Hn i x Hx). symmetry. apply Permutation_middle.
      * intros Hk. apply I7, S7, Hk.
Qed.

Lemma flags_ext g1 g2 :
  length (insts_ g1) = length (insts_ g2) ->
  (forall j, queued g1 j = queued g2 j) ->
  flags g1 = flags g2.
Proof.
  intros Hlen Hq. apply list_eq. intros j. unfold flags.
  rewrite !list_lookup_fmap. specialize (Hq j). unfold queued in Hq.
  destruct (insts_ g1 !! j) as [x|] eqn:E1, (insts_ g2 !! j) as [y|] eqn:E2;
    cbn [fmap option_fmap option_map]; try congruence.
  - apply lookup_lt_Some in E1. apply lookup_ge_None in E2. lia.
  - apply lookup_lt_Some in E2. apply lookup_ge_None in E1. lia.
Qed.

Lemma queued_flags g j : queued g j = default false (flags g !! j).
Proof.
  unfold queued, flags. rewrite list_lookup_fmap.
  by destruct (insts_ g !! j).
Qed.

(** *** [RemoveLatestSubList] *)
Lemma RemoveLatestSubList_loop_spec todo : forall g,
  NoDup todo -> Forall (fun j => queued g j = true) todo ->
  exists g',
    RemoveLatestSubList_loop todo g = Some g' /\
    length (insts_ g') = length (insts_ g) /\
    (forall j, queued g' j = queued g j && negb (bool_decide (j ∈ todo))).
Proof.
  induction todo as [|i rest IH]; intros g Hnd Hq.
  - exists g. split_and!; auto. intros j.
    by rewrite bool_decide_elem_nil, andb_true_r.
  - inversion Hnd as [|? ? Hni Hnd']; inversion Hq as [|? ? Hqi Hq']; subst.
    unfold queued in Hqi.
    destruct (insts_ g !! i) as [x|] eqn:Hx; [|discriminate].
    pose proof (lookup_lt_Some _ _ _ Hx) as Hi.
    set (g1 := DDG.store i (SchedInst.RemoveFromReadyList x) g).
    assert (Hq1 : forall j, queued g1 j = queued g j && negb (Nat.eqb j i)).
    { intros j. unfold g1. rewrite queued_store by exact Hi.
      case_decide as Hj.
      - subst j. rewrite Nat.eqb_refl. cbn. by rewrite andb_false_r.
      - destruct (Nat.eqb_spec j i); [contradiction|]. by rewrite andb_true_r. }
    destruct (IH g1 Hnd') as (g' & E & L & Q).
    { rewrite Forall_forall in Hq' |- *. intros j Hj.
      rewrite Hq1, (Hq' j Hj).
      destruct (Nat.eqb_spec j i) as [->|_]; [contradiction|reflexivity]. }
    exists g'. split_and!.
    + cbn [RemoveLatestSubList_loop]. unfold DDG.GetInstByIndx. rewrite Hx.
      cbn [mbind option_bind]. unfold SchedInst.IsInReadyList. rewrite Hqi.
      exact E.
    + rewrite L. unfold g1. apply length_store.
    + intros j. rewrite Q, Hq1, bool_decide_elem_cons.
      destruct (queued g j), (Nat.eqb j i), (bool_decide (j ∈ rest)); reflexivity.
Qed.

(** *** [AddLatestSubLists] *)
Lemma AddLatestSubList_opt (lst : option (list nat)) (w : World) :
  match lst with
  | Some l => AddLatestSubList_ l w
  | None => Some w
  end = AddLatestSubList_loop (rev (default [] lst)) w.
Proof. destruct lst; reflexivity. Qed.

Lemma AddLatestSubLists_inv lst1 lst2 w w1 :
  AddLatestSubLists lst1 lst2 w = Some w1 ->
  latestSubLst_ (rdy w) = [] /\
  NoDup (latestSubLst_ (rdy w1)) /\
  Forall (fun j => queued (ddg w) j = false) (latestSubLst_ (rdy w1)) /\
  length (insts_ (ddg w1)) = length (insts_ (ddg w)) /\
  same_config (rdy w) (rdy w1) /\
  (forall j, queued (ddg w1) j =
             queued (ddg w) j || bool_decide (j ∈ latestSubLst_ (rdy w1))).
Proof.
  unfold AddLatestSubLists. case_bool_decide as Hl; [|discriminate].
  rewrite !AddLatestSubList_opt.
  destruct (AddLatestSubList_loop (rev (default [] lst1)) w) as [wa|] eqn:Ea;
    [|discriminate].
  cbn [mbind option_bind]. intros Eb. rewrite AddLatestSubList_opt in Eb.
  destruct (AddLatestSubList_loop_inv _ _ _ Ea) as (A1 & A2 & A3 & A4 & _).
  destruct (AddLatestSubList_loop_inv _ _ _ Eb) as (B1 & B2 & B3 & B4 & _).
  cbn zeta in *.
  set (a1 := scanned (queued (ddg w)) (rev (default [] lst1))) in *.
  set (a2 := scanned (queued (ddg wa)) (rev (default [] lst2))) in *.
  rewrite Hl in A3. cbn [app] in A3. rewrite A3 in B3.
  pose proof (scanned_unqueued (queued (ddg w)) (rev (default [] lst1))) as U1.
  pose proof (scanned_unqueued (queued (ddg wa)) (rev (default [] lst2))) as U2.
  fold a1 in U1. fold a2 in U2.
  rewrite Forall_forall in U1, U2.
  assert (U2' : forall j, j ∈ a2 -> queued (ddg w) j = false /\ j ∉ a1).
  { intros j Hj. specialize (U2 j Hj). rewrite A4 in U2.
    apply orb_false_iff in U2 as [? Hb]. split; [done|].
    by apply bool_decide_eq_false in Hb. }
  split_and!.
  - exact Hl.
  - rewrite B3. apply NoDup_app. split_and!; try apply scanned_NoDup.
    intros j Hj1 Hj2. by destruct (U2' j Hj2).
  - rewrite B3. apply Forall_app. split; apply Forall_forall; intros j Hj.
    + by apply U1.
    + by apply U2'.
  - congruence.
  - eapply same_config_trans; eassumption.
  - intros j. rewrite B4, A4, B3. rewrite <- orb_assoc. f_equal.
    destruct (bool_decide (j ∈ a1)) eqn:D1, (bool_decide (j ∈ a2)) eqn:D2;
      cbn [orb]; symmetry.
    all: try (apply bool_decide_eq_true; rewrite elem_of_app;
              try apply bool_decide_eq_true in D1;
              try apply bool_decide_eq_true in D2; tauto).
    apply bool_decide_eq_false. rewrite elem_of_app.
    apply bool_decide_eq_false in D1. apply bool_decide_eq_false in D2. tauto.
Qed.

(** The instructions an [AddLatestSubLists] call may name without
    failing: any slots of a graph whose instructions respect the key
    layout. *)
Lemma AddLatestSubList_loop_total todo : forall w,
  keys_ok (ddg w) (rdy w) ->
  Forall (fun j => (j < length (insts_ (ddg w)))%nat) todo ->
  is_Some (AddLatestSubList_loop todo w).
Proof.
  induction todo as [|i rest IH]; intros w Hk Hr; [by eexists|].
  inversion Hr as [|? ? Hi Hr']; subst.
  rewrite AddLatestSubList_loop_cons.
  destruct (lookup_lt_is_Some_2 _ _ Hi) as [x Hx]. rewrite Hx.
  destruct (ready_ x) eqn:Hrx; [by eexists|].
  destruct (AddInst_total i x w Hx Hk) as [w1 Ha]. rewrite Ha.
  destruct (AddLatest_step i x w w1 Hx Hrx Ha) as (S1 & _ & _ & _ & _ & _ & S7).
  apply IH; [by apply S7|].
  eapply Forall_impl; [exact Hr'|]. intros j Hj. cbn beta. by rewrite S1.
Qed.

Lemma AddLatestSubLists_total lst1 lst2 w :
  latestSubLst_ (rdy w) = [] ->
  keys_ok (ddg w) (rdy w) ->
  Forall (fun j => (j < length (insts_ (ddg w)))%nat)
         (default [] lst1 ++ default [] lst2) ->
  is_Some (AddLatestSubLists lst1 lst2 w).
Proof.
  intros Hl Hk Hr. apply Forall_app in Hr as [H1 H2].
  unfold AddLatestSubLists. rewrite bool_decide_true by exact Hl.
  rewrite !AddLatestSubList_opt.
  destruct (AddLatestSubList_loop_total (rev (default [] lst1)) w Hk) as [wa Ea].
  { by apply Forall_rev. }
  rewrite Ea. cbn [mbind option_bind]. rewrite AddLatestSubList_opt.
  destruct (AddLatestSubList_loop_inv _ _ _ Ea) as (A1 & _ & _ & _ & _ & _ & A7).
  apply AddLatestSubList_loop_total; [by apply A7|].
  apply Forall_rev. eapply Forall_impl; [exact H2|].
  intros j Hj. cbn beta. by rewrite A1.
Qed.

Lemma rev_is_reverse {A} (l : list A) : rev l = reverse l.
Proof. by rewrite rev_alt. Qed.

Lemma AddLatestSubList_loop_entries todo : forall w w',
  AddLatestSubList_loop todo w = Some w' ->
  Forall (fun j => exists x key, insts_ (ddg w) !! j = Some x /\
                                 (num_ x, key) ∈ prirtyLst_ (rdy w'))
         (scanned (queued (ddg w)) todo).
Proof.
  induction todo as [|i rest IH]; intros w w' H; [constructor|].
  rewrite AddLatestSubList_loop_cons in H.
  destruct (insts_ (ddg w) !! i) as [x|] eqn:Hx; [|discriminate].
  assert (Hqi : queued (ddg w) i = ready_ x) by (unfold queued; by rewrite Hx).
  cbn [scanned]. rewrite Hqi.
  destruct (ready_ x) eqn:Hr; [constructor|].
  destruct (AddInst i w) as [w1|] eqn:Ha; [|discriminate].
  destruct (AddLatest_step i x w w1 Hx Hr Ha) as (_ & _ & _ & S4 & (key & S5) & _).
  destruct (AddInst_inv i w w1 Ha) as (x' & key' & _ & _ & Hd & _).
  destruct (AddLatestSubList_loop_inv _ _ _ H) as (_ & _ & _ & _ & I5 & _).
  pose proof (IH _ _ H) as IHr.
  set (w2 := afterAdd i (instAfter (vctr (prirts_ (rdy w))) x) w1) in *.
  rewrite (scanned_ext _ _ rest S4) in IHr.
  constructor.
  - exists x, key. split; [exact Hx|]. apply I5. rewrite S5.
    apply elem_of_InsrtElmnt. by left.
  - pose proof (scanned_unqueued (fun j => Nat.eqb j i || queued (ddg w) j) rest) as U.
    rewrite Forall_forall in IHr, U |- *. intros j Hj.
    destruct (IHr j Hj) as (y & k & Hy & Hin). specialize (U j Hj). cbn beta in U.
    apply orb_false_iff in U as [Hne _]. apply Nat.eqb_neq in Hne.
    exists y, k. split; [|exact Hin].
    unfold w2, afterAdd in Hy. cbn [ddg] in Hy. rewrite Hd in Hy.
    unfold DDG.store in Hy. cbn [insts_ DDG.set_insts] in Hy.
    by rewrite !list_lookup_insert_ne in Hy by congruence.
Qed.

Lemma entries_flagged_scan todo w w' :
  numbered (ddg w) -> entries_flagged w ->
  AddLatestSubList_loop todo w = Some w' -> entries_flagged w'.
Proof.
  intros Hn Hf H.
  destruct (AddLatestSubList_loop_inv _ _ _ H) as (_ & _ & _ & I4 & _ & I6 & _).
  destruct (I6 Hn) as [_ P]. intros e He. rewrite P in He.
  rewrite I4. apply elem_of_app in He as [He|He].
  - by rewrite bool_decide_true, orb_true_r.
  - by rewrite (Hf e He).
Qed.

(** C3 (as the code has it).  After [AddLatestSubLists] on a list whose
    tracking set is empty, [RemoveLatestSubList] succeeds and every
    ready-queued flag is back at its value before the add.  The tracking
    set is not emptied by the removal: it still holds what the add
    recorded, and so does the priority list. *)
Theorem latest_sublist_round_trip (lst1 lst2 : option (list nat)) (w w1 : World) :
  latestSubLst_ (rdy w) = [] ->
  AddLatestSubLists lst1 lst2 w = Some w1 ->
  exists w2,
    RemoveLatestSubList w1 = Some w2 /\
    flags (ddg w2) = flags (ddg w) /\
    latestSubLst_ (rdy w2) = latestSubLst_ (rdy w1) /\
    prirtyLst_ (rdy w2) = prirtyLst_ (rdy w1).
Proof.
  intros _ Ha.
  destruct (AddLatestSubLists_inv _ _ _ _ Ha) as (_ & Hnd & Hu & Hlen & _ & Hq).
  destruct (RemoveLatestSubList_loop_spec (latestSubLst_ (rdy w1)) (ddg w1) Hnd)
    as (g' & E & L & Q).
  { rewrite Forall_forall. intros j Hj. rewrite Hq.
    by rewrite bool_decide_true, orb_true_r. }
  exists (mkWorld g' (rdy w1)). split_and!; try reflexivity.
  - unfold RemoveLatestSubList. by rewrite E.
  - cbn [ddg]. apply flags_ext; [congruence|].
    intros j. rewrite Q, Hq.
    destruct (bool_decide (j ∈ latestSubLst_ (rdy w1))) eqn:D; cbn [negb].
    + apply bool_decide_eq_true in D. rewrite Forall_forall in Hu.
      rewrite (Hu j D). reflexivity.
    + by rewrite orb_false_r, andb_true_r.
Qed.

(** Where a scan stops: what it adds is a prefix of the elements in scan
    order, and the element it stopped at, if any, was queued by then,
    from the start or by this scan. *)
Lemma scanned_stops l : forall q,
  exists rest,
    l = scanned q l ++ rest /\
    match rest with
    | [] => True
    | x :: _ => q x = true \/ x ∈ scanned q l
    end.
Proof.
  induction l as [|i l IH]; intros q; cbn [scanned].
  - exists []. by split.
  - destruct (q i) eqn:Hq.
    + exists (i :: l). split; [reflexivity|]. by left.
    + destruct (IH (fun j => Nat.eqb j i || q j)) as (rest & E & Hr).
      exists rest. split; [cbn [app]; by rewrite <- E|].
      destruct rest as [|x rest]; [exact I|].
      destruct Hr as [Hr|Hr].
      * apply orb_true_iff in Hr as [Hr|Hr].
        -- apply Nat.eqb_eq in Hr. subst x. right. by left.
        -- by left.
      * right. by right.
Qed.

(** C7 (as the code has it).  One scan of [AddLatestSubList_], for every
    sequence: in scan order, from the tail of the sequence, the scan adds
    a prefix [added] of the elements and leaves the rest unvisited.  The
    elements added are pairwise distinct and none was queued; the scan
    stopped at the first element that was queued when it was met, at the
    start or by this very scan; each element added is recorded in the
    latest sublist, has an entry in the priority list and is queued
    afterwards, and no other flag changes.  When the sequence names no
    instruction twice and every element in front of a queued element is
    queued, the elements added are exactly the elements that were not
    queued. *)
Theorem AddLatestSubList_adds_unqueued (lst : list nat) (w w' : World) :
  AddLatestSubList_ lst w = Some w' ->
  exists added rest,
    rev lst = added ++ rest /\
    NoDup added /\
    Forall (fun j => queued (ddg w) j = false) added /\
    match rest with
    | [] => True
    | x :: _ => queued (ddg w) x = true \/ x ∈ added
    end /\
    latestSubLst_ (rdy w') = latestSubLst_ (rdy w) ++ added /\
    (forall j, queued (ddg w') j = queued (ddg w) j || bool_decide (j ∈ added)) /\
    Forall (fun j => exists x key, insts_ (ddg w) !! j = Some x /\
                                   (num_ x, key) ∈ prirtyLst_ (rdy w')) added /\
    (NoDup lst ->
     (forall l1 x l2, lst = l1 ++ x :: l2 -> queued (ddg w) x = true ->
                      Forall (fun y => queued (ddg w) y = true) l1) ->
     added = rev (filter (fun j => queued (ddg w) j = false) lst) /\
     forall j, j ∈ added <-> j ∈ lst /\ queued (ddg w) j = false).
Proof.
  intros H. unfold AddLatestSubList_ in H.
  destruct (AddLatestSubList_loop_inv _ _ _ H) as (_ & _ & I3 & I4 & _).
  pose proof (AddLatestSubList_loop_entries _ _ _ H) as He.
  cbn zeta in *.
  destruct (scanned_stops (rev lst) (queued (ddg w))) as (rest & E & Hr).
  exists (scanned (queued (ddg w)) (rev lst)), rest.
  split_and!.
  - exact E.
  - apply scanned_NoDup.
  - apply scanned_unqueued.
  - exact Hr.
  - exact I3.
  - exact I4.
  - exact He.
  - intros Hnd Hpre.
    assert (Hs : scanned (queued (ddg w)) (rev lst) =
                 rev (filter (fun j => queued (ddg w) j = false) lst)).
    { rewrite scanned_NoDup_takeUntil
        by (by rewrite rev_is_reverse, reverse_Permutation).
      rewrite takeUntil_filter.
      - by rewrite !rev_is_reverse, filter_reverse.
      - intros l1 x l2 E' Hx.
        assert (E'' : lst = rev l2 ++ x :: rev l1).
        { rewrite <- (rev_involutive lst), E', rev_app_distr. cbn [rev].
          by rewrite <- app_assoc. }
        specialize (Hpre _ _ _ E'' Hx). rewrite rev_is_reverse in Hpre.
        exact (proj1 (Forall_reverse _ _) Hpre). }
    split; [exact Hs|]. rewrite Hs.
    intros j. rewrite rev_is_reverse, elem_of_reverse, list_elem_of_filter. tauto.
Qed.

(** C9 (as the code has it).  [AddInst] on an instruction that is not
    queued inserts it with its computed key in priority order and leaves
    every ready-queued flag as it was; the flag is set by the caller,
    [AddLatestSubList_], right after the insertion, which keeps every
    entry of the priority list flagged. *)
Theorem AddInst_inserts_caller_flags (i : nat) (x : SchedInstruction)
    (w w1 : World) :
  insts_ (ddg w) !! i = Some x ->
  ready_ x = false ->
  AddInst i w = Some w1 ->
  (exists key c x',
     CmputKey_ (rdy w) x false = Some (key, c, x') /\
     prirtyLst_ (rdy w1) =
       PriorityArrayList.InsrtElmnt (SchedInst.GetNum x) key (prirtyLst_ (rdy w)) /\
     (SchedInst.GetNum x, key) ∈ prirtyLst_ (rdy w1)) /\
  flags (ddg w1) = flags (ddg w) /\
  queued (ddg w1) i = false /\
  (forall w2, AddLatestSubList_ [i] w = Some w2 ->
     queued (ddg w2) i = true /\
     (exists key, (SchedInst.GetNum x, key) ∈ prirtyLst_ (rdy w2)) /\
     (numbered (ddg w) -> entries_flagged w -> entries_flagged w2)).
Proof.
  intros Hx Hr Ha.
  destruct (AddInst_inv i w w1 Ha) as (x0 & key & Hx0 & Hk & Hd & Hq).
  rewrite Hx in Hx0. injection Hx0 as <-.
  pose proof (lookup_lt_Some _ _ _ Hx) as Hi.
  assert (Hqd : forall j, queued (ddg w1) j = queued (ddg w) j).
  { intros j. rewrite Hd, queued_store by exact Hi. case_decide as Hj; [|done].
    subst j. rewrite instAfter_ready. unfold queued. by rewrite Hx. }
  split_and!.
  - exists key, true, (instAfter (vctr (prirts_ (rdy w))) x).
    split_and!; [exact Hk | by rewrite Hq |].
    rewrite Hq. cbn [prirtyLst_ RL.set_prirtyLst].
    apply elem_of_InsrtElmnt. by left.
  - apply flags_ext; [by rewrite Hd, length_store | exact Hqd].
  - rewrite Hqd. unfold queued. by rewrite Hx.
  - intros w2 H2. unfold AddLatestSubList_ in H2. cbn [rev app] in H2.
    destruct (AddLatestSubList_loop_inv _ _ _ H2) as (_ & _ & _ & I4 & _).
    pose proof (AddLatestSubList_loop_entries _ _ _ H2) as He.
    cbn zeta in *. cbn [scanned] in I4, He.
    assert (Hqi : queued (ddg w) i = false) by (unfold queued; by rewrite Hx).
    rewrite Hqi in I4, He. split_and!.
    + rewrite I4, Hqi. by rewrite bool_decide_true by left.
    + inversion He as [|? ? (y & k & Hy & Hin) _]; subst.
      rewrite Hx in Hy. injection Hy as <-. by exists k.
    + intros Hn Hf. by eapply entries_flagged_scan.
Qed.

(** [latest_sublist_round_trip] on a sample input. *)
Lemma latest_sublist_round_trip_witness :
  exists w2,
    RemoveLatestSubList wAdded = Some w2 /\
    flags (ddg w2) = flags (ddg wWorld) /\
    latestSubLst_ (rdy w2) = latestSubLst_ (rdy wAdded) /\
    prirtyLst_ (rdy w2) = prirtyLst_ (rdy wAdded).
Proof.
  apply (latest_sublist_round_trip (Some [0%nat; 1%nat]) (Some [2%nat]) wWorld wAdded).
  - reflexivity.
  - vm_compute. reflexivity.
Defined.

(** C3, as stated, fails: the tracking set is not empty after the
    removal. *)
Lemma RemoveLatestSubList_leaves_tracking_set :
  latestSubLst_ (rdy wWorld) = [] /\
  exists w1 w2,
    AddLatestSubLists (Some [0%nat]) None wWorld = Some w1 /\
    RemoveLatestSubList w1 = Some w2 /\
    latestSubLst_ (rdy w2) = [0%nat] /\
    latestSubLst_ (rdy w2) <> [].
Proof.
  split; [reflexivity|]. do 2 eexists.
  split; [vm_compute; reflexivity|].
  split; [vm_compute; reflexivity|].
  split; [reflexivity|discriminate].
Qed.

Lemma wHalf_prefix_closed (l1 : list nat) (x : nat) (l2 : list nat) :
  [0%nat; 1%nat; 2%nat] = l1 ++ x :: l2 ->
  queued (ddg wHalf) x = true ->
  Forall (fun y => queued (ddg wHalf) y = true) l1.
Proof.
  intros E Hx.
  destruct l1 as [|a [|b [|c l1]]]; cbn [app] in E.
  - constructor.
  - injection E as <- <- _. discriminate Hx.
  - injection E as <- <- <- _. discriminate Hx.
  - injection E as _ _ _ E. destruct l1; discriminate E.
Qed.

(** [AddLatestSubList_adds_unqueued] on a sample input. *)
Lemma AddLatestSubList_adds_unqueued_witness :
  exists w' added rest,
    AddLatestSubList_ [0%nat; 1%nat; 2%nat] wHalf = Some w' /\
    rev [0%nat; 1%nat; 2%nat] = added ++ rest /\
    added = [2%nat; 1%nat] /\
    latestSubLst_ (rdy w') = latestSubLst_ (rdy wHalf) ++ added /\
    Forall (fun j => queued (ddg w') j = true) added.
Proof.
  eexists.
  destruct (AddLatestSubList_adds_unqueued [0%nat; 1%nat; 2%nat] wHalf _ eq_refl)
    as (added & rest & H1 & _ & _ & _ & H5 & H6 & _ & H8).
  destruct (H8 ltac:(apply (bool_decide_unpack _); vm_compute; exact I)
               wHalf_prefix_closed) as [Ha _].
  exists added, rest. split; [vm_compute; reflexivity|].
  split; [exact H1|]. split; [exact Ha|]. split; [exact H5|].
  rewrite Forall_forall. intros j Hj. rewrite H6.
  by rewrite bool_decide_true, orb_true_r.
Defined.

(** C7, as stated, fails on a sequence that names an instruction twice:
    nothing is queued, so the precondition holds, yet instruction 1 is
    not added. *)
Lemma AddLatestSubLists_repeated_element :
  (forall l1 x l2, [1%nat; 0%nat; 2%nat; 0%nat] = l1 ++ x :: l2 ->
                   queued (ddg wWorld) x = true ->
                   Forall (fun y => queued (ddg wWorld) y = true) l1) /\
  exists w',
    AddLatestSubLists (Some [1%nat; 0%nat; 2%nat; 0%nat]) None wWorld = Some w' /\
    latestSubLst_ (rdy w') = [0%nat; 2%nat] /\
    queued (ddg wWorld) 1 = false /\
    1%nat ∈ [1%nat; 0%nat; 2%nat; 0%nat] /\
    1%nat ∉ latestSubLst_ (rdy w').
Proof.
  split.
  - intros l1 x l2 _ Hx. exfalso.
    destruct x as [|[|[|x]]]; discriminate Hx.
  - eexists. split; [vm_compute; reflexivity|].
    split; [reflexivity|]. split; [reflexivity|].
    split; [left|].
    cbn [latestSubLst_ rdy]. intros H.
    apply elem_of_cons in H as [H|H]; [discriminate|].
    apply elem_of_cons in H as [H|H]; [discriminate|].
    by apply elem_of_nil in H.
Qed.

(** [AddInst_inserts_caller_flags] on a sample input. *)
Lemma AddInst_inserts_caller_flags_witness :
  (exists key c x',
     CmputKey_ (rdy wWorld) wInst0 false = Some (key, c, x') /\
     prirtyLst_ (rdy wOne) =
       PriorityArrayList.InsrtElmnt (SchedInst.GetNum wInst0) key
         (prirtyLst_ (rdy wWorld)) /\
     (SchedInst.GetNum wInst0, key) ∈ prirtyLst_ (rdy wOne)) /\
  flags (ddg wOne) = flags (ddg wWorld) /\
  queued (ddg wOne) 0 = false.
Proof.
  destruct (AddInst_inserts_caller_flags 0 wInst0 wWorld wOne eq_refl eq_refl
              ltac:(vm_compute; reflexivity)) as (H1 & H2 & H3 & _).
  auto.
Defined.

(** C9, as stated, fails: after [AddInst] the instruction is in the
    priority list and its ready-queued flag is still clear. *)
Lemma AddInst_does_not_flag :
  queued (ddg wWorld) 0 = false /\
  exists w1,
    AddInst 0 wWorld = Some w1 /\
    prirtyLst_ (rdy w1) = [(0%nat, 57)] /\
    queued (ddg w1) 0 = false.
Proof.
  split; [reflexivity|]. eexists.
  split; [vm_compute; reflexivity|]. split; reflexivity.
Qed.

(** *** Keys determine their fields *)
Lemma packZ_cons_0 f fs :
  Forall field_ok fs ->
  packZ (f :: fs) 0 = f.1.2 * 2 ^ widthsOf fs + packZ fs 0.
Proof.
  intros H. cbn [packZ]. rewrite (packZ_split fs _ H). lia.
Qed.

Lemma packZ_inj fs1 : forall fs2,
  Forall field_ok fs1 -> Forall field_ok fs2 ->
  map (fun f => f.1.1) fs1 = map (fun f => f.1.1) fs2 ->
  packZ fs1 0 = packZ fs2 0 ->
  map (fun f => f.1.2) fs1 = map (fun f => f.1.2) fs2.
Proof.
  induction fs1 as [|f1 fs1 IH]; intros [|f2 fs2] H1 H2 Hw Hp;
    try discriminate Hw; [reflexivity|].
  inversion H1 as [|? ? Hf1 H1']; inversion H2 as [|? ? Hf2 H2']; subst.
  cbn [map] in Hw |- *. injection Hw as Hb Hw.
  assert (HW : widthsOf fs1 = widthsOf fs2).
  { clear -Hw. revert fs2 Hw. induction fs1 as [|a l IHl]; intros [|b m] E;
      try discriminate E; [reflexivity|].
    cbn [map] in E. injection E as E1 E2.
    destruct a as [[? ?] ?], b as [[? ?] ?]. rewrite !widthsOf_cons.
    cbn [fst snd] in E1. rewrite (IHl _ E2). lia. }
  rewrite (packZ_cons_0 _ _ H1'), (packZ_cons_0 _ _ H2'), <- HW in Hp.
  pose proof (packZ_0_bound fs1 H1') as B1.
  pose proof (packZ_0_bound fs2 H2') as B2. rewrite <- HW in B2.
  pose proof (widthsOf_nonneg fs1 H1').
  assert (0 < 2 ^ widthsOf fs1) by (apply Z.pow_pos_nonneg; lia).
  assert (Hv : f1.1.2 = f2.1.2) by nia.
  f_equal; [exact Hv|]. apply IH; auto. nia.
Qed.

Lemma to_ulong_s16_inj a b :
  to_ulong (wrap_s16 a) = to_ulong (wrap_s16 b) -> wrap_s16 a = wrap_s16 b.
Proof.
  assert (R : forall z, - 2 ^ 15 <= wrap_s16 z < 2 ^ 15).
  { intros z. unfold wrap_s16.
    pose proof (Z.mod_pos_bound (z + 2 ^ 15) (2 ^ 16) ltac:(reflexivity)). lia. }
  pose proof (R a). pose proof (R b).
  generalize dependent (wrap_s16 b). generalize dependent (wrap_s16 a).
  intros u Hu v Hv E. unfold to_ulong, ULONG_BITS in E.
  pose proof (Z.div_mod u (2 ^ 64) ltac:(discriminate)).
  pose proof (Z.div_mod v (2 ^ 64) ltac:(discriminate)).
  assert (u - v = 2 ^ 64 * (u / 2 ^ 64 - v / 2 ^ 64)) by lia.
  change (2 ^ 15) with 32768 in *. change (2 ^ 64) with 18446744073709551616 in *.
  lia.
Qed.

Lemma fieldVal_asStored r x h :
  isLUC h = false -> fieldVal r (asStored x) h = fieldVal r x h.
Proof. destruct h; intros; try discriminate; reflexivity. Qed.

(** With a dynamic criterion configured, the recomputed key differs from
    the key at the stored last-use count exactly when the last-use count
    changed, which is what [CmputKey_] reports in [changed]. *)
Lemma key_changed_iff g r x :
  Configured g r ->
  Forall (fun h => fieldVal r x h <= fieldMax r h) (vctr (prirts_ r)) ->
  Forall (fun h => fieldVal r (asStored x) h <= fieldMax r h) (vctr (prirts_ r)) ->
  pureKey r x <> pureKey r (asStored x) <-> chg r x = true.
Proof.
  intros Hc H1 H2. pose proof Hc as (Hm & _ & Hl).
  pose proof (keyFields_ok g r x _ Hm Hl H1) as Hok1.
  pose proof (keyFields_ok g r (asStored x) _ Hm Hl H2) as Hok2.
  unfold pureKey, chg. set (hs := vctr (prirts_ r)) in *.
  clearbody hs. clear Hc Hm Hl H1 H2.
  destruct (hasLUC hs) eqn:HL; cbn [andb].
  - unfold lucChanged. destruct (Z.eqb_spec (wrap_s16 (pendingLastUseCnt_ x))
                                             (wrap_s16 (lastUseCnt_ x))) as [E|E];
      cbn [negb].
    + split; [|discriminate]. intros Hne. exfalso. apply Hne. f_equal.
      unfold keyFields. apply map_ext. intros h.
      destruct h; try reflexivity. cbn [fieldVal asStored pendingLastUseCnt_].
      by rewrite E.
    + split; [reflexivity|]. intros _ Hp.
      apply packZ_inj in Hp; auto.
      2:{ unfold keyFields. rewrite !map_map. reflexivity. }
      unfold keyFields in Hp. rewrite !map_map in Hp. cbn [fst snd] in Hp.
      unfold hasLUC in HL. apply existsb_exists in HL as (h & Hin & Hh).
      destruct h; try discriminate Hh.
      assert (Hf : fieldVal r x LSH_LUC = fieldVal r (asStored x) LSH_LUC).
      { clear -Hp Hin. induction hs as [|h hs IH]; [destruct Hin|].
        cbn [map] in Hp. injection Hp as Hp1 Hp2.
        destruct Hin as [->|Hin]; [exact Hp1|by apply IH]. }
      cbn [fieldVal asStored pendingLastUseCnt_] in Hf.
      by apply to_ulong_s16_inj in Hf.
  - split; [|discriminate]. intros Hne. exfalso. apply Hne. f_equal.
    unfold keyFields. apply map_ext_in. intros h Hin.
    rewrite fieldVal_asStored; [reflexivity|].
    destruct (isLUC h) eqn:Hh; [|reflexivity].
    assert (hasLUC hs = true) by (apply existsb_exists; eauto). congruence.
Qed.

(** *** The container under a boost *)
Lemma filter_InsrtElmnt (keep : nat -> bool) n k l :
  keep n = false ->
  filter (fun e : nat * Z => keep e.1 = true) (PriorityArrayList.InsrtElmnt n k l) =
  filter (fun e : nat * Z => keep e.1 = true) l.
Proof.
  intros Hn. induction l as [|[e' k'] l IH]; cbn [PriorityArrayList.InsrtElmnt].
  - rewrite filter_cons. cbn [fst]. by rewrite decide_False by congruence.
  - destruct (k' <? k).
    + rewrite filter_cons. cbn [fst]. by rewrite decide_False by congruence.
    + rewrite !filter_cons, IH. reflexivity.
Qed.

Lemma filter_RmvElmnt (keep : nat -> bool) n l :
  keep n = false ->
  filter (fun e : nat * Z => keep e.1 = true) (PriorityArrayList.RmvElmnt n l) =
  filter (fun e : nat * Z => keep e.1 = true) l.
Proof.
  intros Hn. induction l as [|[e' k'] l IH]; cbn [PriorityArrayList.RmvElmnt];
    [reflexivity|].
  destruct (Nat.eqb_spec e' n) as [->|Hne].
  - rewrite filter_cons. cbn [fst]. by rewrite decide_False by congruence.
  - rewrite !filter_cons, IH. reflexivity.
Qed.

Lemma filter_BoostElmnt (keep : nat -> bool) n k l :
  keep n = false ->
  filter (fun e : nat * Z => keep e.1 = true) (PriorityArrayList.BoostElmnt n k l) =
  filter (fun e : nat * Z => keep e.1 = true) l.
Proof.
  intros Hn. unfold PriorityArrayList.BoostElmnt.
  by rewrite filter_InsrtElmnt, filter_RmvElmnt.
Qed.

Lemma elem_of_RmvElmnt_other n l (e : nat * Z) :
  e.1 <> n -> e ∈ l -> e ∈ PriorityArrayList.RmvElmnt n l.
Proof.
  intros Hne. induction l as [|[e' k'] l IH]; cbn [PriorityArrayList.RmvElmnt];
    [done|].
  intros Hin. apply elem_of_cons in Hin as [->|Hin].
  - cbn [fst] in Hne. destruct (Nat.eqb_spec e' n); [contradiction|left].
  - destruct (Nat.eqb_spec e' n); [exact Hin|right; by apply IH].
Qed.

Lemma elem_of_BoostElmnt_other n k l (e : nat * Z) :
  e.1 <> n -> e ∈ l -> e ∈ PriorityArrayList.BoostElmnt n k l.
Proof.
  intros Hne Hin. apply elem_of_InsrtElmnt. right.
  by apply elem_of_RmvElmnt_other.
Qed.

Lemma elem_of_BoostElmnt_self n k l : (n, k) ∈ PriorityArrayList.BoostElmnt n k l.
Proof. apply elem_of_InsrtElmnt. by left. Qed.

Lemma keyFields_same_config r r' x hs :
  same_config r r' -> keyFields r' x hs = keyFields r x hs.
Proof.
  intros Hs. unfold keyFields. apply map_ext. intros h.
  rewrite (fieldVal_same_config r r' x h Hs).
  destruct Hs as [_ Hf]. by destruct (Hf h) as [-> ->].
Qed.

Lemma pureKey_same_config r r' x :
  same_config r r' -> pureKey r' x = pureKey r x.
Proof.
  intros Hs. unfold pureKey. rewrite (keyFields_same_config r r' x _ Hs).
  by destruct Hs as [-> _].
Qed.

Lemma chg_same_config r r' x : same_config r r' -> chg r' x = chg r x.
Proof. intros [Hp _]. unfold chg. by rewrite Hp. Qed.

Lemma fold_left_agree {A B} (f g : A -> B -> A) (l : list B) : forall a,
  (forall a x, x ∈ l -> f a x = g a x) -> fold_left f l a = fold_left g l a.
Proof.
  induction l as [|x l IH]; intros a H; [reflexivity|].
  cbn [fold_left]. rewrite (H a x) by left. apply IH.
  intros a' y Hy. apply H. by right.
Qed.

Lemma UpdatePriorities_loop_cons n rest w x :
  insts_ (ddg w) !! n = Some x ->
  Configured (ddg w) (rdy w) ->
  Forall (fun h => fieldVal (rdy w) x h <= fieldMax (rdy w) h)
         (vctr (prirts_ (rdy w))) ->
  UpdatePriorities_loop (n :: rest) w =
  UpdatePriorities_loop rest
    (mkWorld (DDG.store n (instAfter (vctr (prirts_ (rdy w))) x) (ddg w))
             (RL.set_prirtyLst (boostIf w (prirtyLst_ (rdy w)) n) (rdy w))).
Proof.
  intros Hx Hc Hf.
  destruct (CmputKey_packed (ddg w) (rdy w) x true Hc Hf) as [E _].
  cbn [UpdatePriorities_loop]. unfold DDG.GetInstByIndx. rewrite Hx.
  cbn [mbind option_bind]. rewrite E. cbn [mbind option_bind].
  unfold boostIf, chgAt, pureKeyAt. rewrite Hx.
  unfold changedAfter, chg, pureKey. cbn [negb orb].
  destruct (hasLUC _ && lucChanged x); [reflexivity|].
  f_equal. destruct w as [g r]. cbn [ddg rdy]. f_equal. by destruct r.
Qed.

Lemma UpdatePriorities_loop_spec todo : forall w,
  NoDup todo ->
  keys_ok (ddg w) (rdy w) ->
  Forall (fun n => (n < length (insts_ (ddg w)))%nat) todo ->
  exists w',
    UpdatePriorities_loop todo w = Some w' /\
    prirtyLst_ (rdy w') = fold_left (boostIf w) todo (prirtyLst_ (rdy w)) /\
    latestSubLst_ (rdy w') = latestSubLst_ (rdy w) /\
    flags (ddg w') = flags (ddg w).
Proof.
  induction todo as [|n rest IH]; intros w Hnd Hk Hr.
  - exists w. auto.
  - inversion Hnd as [|? ? Hni Hnd']; inversion Hr as [|? ? Hn Hr']; subst.
    destruct (lookup_lt_is_Some_2 _ _ Hn) as [x Hx].
    pose proof Hk as [Hc Hf]. rewrite Forall_lookup in Hf.
    rewrite (UpdatePriorities_loop_cons n rest w x Hx Hc (Hf n x Hx)).
    set (hs := vctr (prirts_ (rdy w))) in *.
    set (w1 := mkWorld _ _).
    assert (Hs : same_config (rdy w) (rdy w1)) by apply same_config_prirtyLst.
    assert (Hk1 : keys_ok (ddg w1) (rdy w1)).
    { eapply keys_ok_same_config; [exact Hs|]. unfold w1. cbn [ddg].
      eapply keys_ok_store; [exact Hx| |exact Hk].
      intros h. apply instAfter_fieldVal. }
    destruct (IH w1 Hnd' Hk1) as (w' & E & P & L & F).
    { eapply Forall_impl; [exact Hr'|]. intros j Hj. cbn beta.
      unfold w1. cbn [ddg]. by rewrite length_store. }
    exists w'. split_and!.
    + exact E.
    + rewrite P. cbn [fold_left]. unfold w1 at 2. cbn [rdy prirtyLst_ RL.set_prirtyLst].
      apply fold_left_agree. intros l m Hm.
      assert (Hne : m <> n) by (intros ->; contradiction).
      assert (Hl : insts_ (ddg w1) !! m = insts_ (ddg w) !! m).
      { unfold w1, DDG.store. cbn [ddg insts_ DDG.set_insts].
        by rewrite list_lookup_insert_ne by congruence. }
      unfold boostIf, chgAt, pureKeyAt. rewrite Hl.
      destruct (insts_ (ddg w) !! m) as [y|]; [|reflexivity].
      by rewrite (chg_same_config _ _ y Hs), (pureKey_same_config _ _ y Hs).
    + rewrite L. reflexivity.
    + rewrite F. unfold w1. cbn [ddg]. apply flags_ext; [apply length_store|].
      intros j. rewrite queued_store by exact Hn. case_decide as Hj; [|done].
      subst j. rewrite instAfter_ready. unfold queued. by rewrite Hx.
Qed.

(** *** From the [changed] flag to a comparison of keys *)
Lemma recomputedKey_pure w n x :
  insts_ (ddg w) !! n = Some x ->
  keys_ok (ddg w) (rdy w) ->
  recomputedKey w n = pureKeyAt w n.
Proof.
  intros Hx [Hc Hf]. rewrite Forall_lookup in Hf.
  destruct (CmputKey_packed (ddg w) (rdy w) x true Hc (Hf n x Hx)) as [E _].
  unfold recomputedKey, pureKeyAt. rewrite Hx. cbn [mbind option_bind].
  by rewrite E.
Qed.

Lemma packFrom_Some_le fs : forall acc res,
  packFrom fs acc = Some res -> Forall (fun f => f.1.2 <= f.2) fs.
Proof.
  induction fs as [|f fs IH]; intros acc res H; [constructor|].
  cbn [packFrom] in H.
  destruct acc as [[k ks]|]; [|by rewrite packFrom_None in H].
  cbn [mbind option_bind] in H. unfold AddPrirtyToKey_ in H.
  destruct (Z.leb_spec f.1.2 f.2) as [Hle|Hgt];
    [|by rewrite packFrom_None in H].
  constructor; [exact Hle|]. eapply IH, H.
Qed.

(** A key computation that succeeds respected the maxima and returned
    the packed fields. *)
Lemma CmputKey_Some_inv g r y u k c y' :
  Configured g r ->
  CmputKey_ r y u = Some (k, c, y') ->
  Forall (fun h => fieldVal r y h <= fieldMax r h) (vctr (prirts_ r)) /\
  k = pureKey r y.
Proof.
  intros Hc H. pose proof Hc as (Hm & _ & Hl).
  assert (Hf : Forall (fun h => fieldVal r y h <= fieldMax r h) (vctr (prirts_ r))).
  { rewrite CmputKey_eq in H.
    destruct (packFrom _ _) as [res|] eqn:E; [|discriminate].
    apply packFrom_Some_le in E. unfold keyFields in E. unfold maxima_ok in Hm.
    rewrite Forall_forall in E. rewrite Forall_forall in Hm.
    rewrite Forall_forall in Hl. rewrite Forall_forall. intros h Hh.
    specialize (E (fieldBits r h, fieldVal r y h, to_ulong (fieldMax r h))).
    cbn [fst snd] in E. destruct (Hl h Hh) as [E1 _].
    rewrite <- (to_ulong_small (fieldMax r h)) by (rewrite E1; by apply Hm).
    apply E. apply list_elem_of_fmap. by exists h. }
  split; [exact Hf|].
  destruct (CmputKey_packed g r y u Hc Hf) as [E _]. rewrite E in H.
  by injection H as <- _ _.
Qed.

Lemma filter_fold_boost (c : nat -> bool) (f : list (nat * Z) -> nat -> list (nat * Z))
    (L : list (nat * Z)) : forall l0,
  fold_left (fun l n => if c n then f l n else l) (map fst L) l0 =
  fold_left (fun l (e : nat * Z) => f l e.1)
            (filter (fun e : nat * Z => c e.1 = true) L) l0.
Proof.
  induction L as [|e L IH]; intros l0; [reflexivity|].
  cbn [map fold_left]. rewrite filter_cons.
  destruct (c e.1) eqn:E.
  - rewrite decide_True by reflexivity. cbn [fold_left]. apply IH.
  - rewrite decide_False by congruence. apply IH.
Qed.

Lemma fold_boost_keeps (keep : nat -> bool) (key : nat -> Z) (B : list (nat * Z)) :
  forall l,
  Forall (fun e : nat * Z => keep e.1 = false) B ->
  filter (fun e : nat * Z => keep e.1 = true)
    (fold_left (fun l (e : nat * Z) => PriorityArrayList.BoostElmnt e.1 (key e.1) l) B l) =
  filter (fun e : nat * Z => keep e.1 = true) l.
Proof.
  induction B as [|b B IH]; intros l HB; [reflexivity|].
  inversion HB as [|? ? Hb HB']; subst.
  cbn [fold_left]. rewrite (IH _ HB'). by apply filter_BoostElmnt.
Qed.

Lemma fold_boost_has (key : nat -> Z) (B : list (nat * Z)) : forall l,
  NoDup (map fst B) ->
  Forall (fun e : nat * Z => (e.1, key e.1) ∈
            fold_left (fun l (e : nat * Z) =>
                         PriorityArrayList.BoostElmnt e.1 (key e.1) l) B l) B.
Proof.
  assert (Hkeep : forall (B : list (nat * Z)) l (e : nat * Z),
            e.1 ∉ map fst B -> e ∈ l ->
            e ∈ fold_left (fun l (e : nat * Z) =>
                             PriorityArrayList.BoostElmnt e.1 (key e.1) l) B l).
  { clear. induction B as [|b B IH]; intros l e Hn Hin; [exact Hin|].
    cbn [fold_left]. cbn [map] in Hn. apply not_elem_of_cons in Hn as [Hne Hn].
    apply IH; [exact Hn|]. by apply elem_of_BoostElmnt_other. }
  induction B as [|b B IH]; intros l Hnd; [constructor|].
  cbn [map] in Hnd. inversion Hnd as [|? ? Hni Hnd']; subst.
  cbn [fold_left]. constructor; [|by apply IH].
  apply Hkeep; [exact Hni|]. apply elem_of_BoostElmnt_self.
Qed.

Lemma filter_agree {A} (P Q : A -> Prop) `{!forall x, Decision (P x)}
    `{!forall x, Decision (Q x)} (l : list A) :
  (forall x, x ∈ l -> P x <-> Q x) -> filter P l = filter Q l.
Proof.
  induction l as [|a l IH]; intros Hpq; [reflexivity|].
  rewrite !filter_cons.
  rewrite IH by (intros x Hx; apply Hpq; by right).
  destruct (decide (P a)) as [Hp|Hp], (decide (Q a)) as [Hq|Hq]; try reflexivity.
  - exfalso. apply Hq, (Hpq a); [left|exact Hp].
  - exfalso. apply Hp, (Hpq a); [left|exact Hq].
Qed.

Lemma elem_of_map_fst_filter (P : nat * Z -> Prop) `{!forall x, Decision (P x)}
    (l : list (nat * Z)) n :
  n ∈ map fst (filter P l) -> n ∈ map fst l.
Proof.
  intros Hn. apply list_elem_of_fmap in Hn as (e & -> & He).
  apply list_elem_of_filter in He as [_ He].
  apply list_elem_of_fmap. by exists e.
Qed.

Lemma NoDup_map_fst_filter (P : nat * Z -> Prop) `{!forall x, Decision (P x)}
    (l : list (nat * Z)) :
  NoDup (map fst l) -> NoDup (map fst (filter P l)).
Proof.
  induction l as [|a l IH]; intros Hl; [constructor|].
  cbn [map] in Hl. inversion Hl as [|? ? Hni Hnd]; subst.
  rewrite filter_cons. destruct (decide (P a)); [|by apply IH].
  cbn [map]. constructor; [|by apply IH].
  intros Hin. apply Hni. by eapply elem_of_map_fst_filter.
Qed.

Lemma NoDup_map_fst_inj (l : list (nat * Z)) (e e' : nat * Z) :
  NoDup (map fst l) -> e ∈ l -> e' ∈ l -> e.1 = e'.1 -> e = e'.
Proof.
  induction l as [|a l IH]; intros H He He' E; [by apply elem_of_nil in He|].
  cbn [map] in H. inversion H as [|? ? Hni Hnd]; subst.
  apply elem_of_cons in He as [->|He]; apply elem_of_cons in He' as [->|He'].
  - reflexivity.
  - exfalso. apply Hni. rewrite E. apply list_elem_of_fmap. by exists e'.
  - exfalso. apply Hni. rewrite <- E. apply list_elem_of_fmap. by exists e.
  - by apply IH.
Qed.

(** C6.  On a list with a dynamic scheme, whose entries carry the keys of
    their instructions' stored last-use counts, [UpdatePriorities]
    applies [BoostElmnt] to exactly the entries whose recomputed key
    differs from their previous key, each with its recomputed key.  The
    entries whose key is unchanged are never handed to [BoostElmnt]: they
    keep their keys and their order among one another, and a boosted
    entry ends up in the list with its new key. *)
Theorem UpdatePriorities_boosts_changed (w : World) :
  isDynmc (prirts_ (rdy w)) = true ->
  keys_ok (ddg w) (rdy w) ->
  NoDup (map fst (prirtyLst_ (rdy w))) ->
  Forall (key_is_current w) (prirtyLst_ (rdy w)) ->
  let L := prirtyLst_ (rdy w) in
  let changed := fun e : nat * Z => recomputedKey w e.1 <> e.2 in
  exists w',
    UpdatePriorities w = Some w' /\
    prirtyLst_ (rdy w') =
      fold_left (fun l (e : nat * Z) =>
                   PriorityArrayList.BoostElmnt e.1 (recomputedKey w e.1) l)
                (filter changed L) L /\
    filter (fun e : nat * Z => e.1 ∉ map fst (filter changed L))
           (prirtyLst_ (rdy w')) =
      filter (fun e => ~ changed e) L /\
    Forall (fun e : nat * Z => (e.1, recomputedKey w e.1) ∈ prirtyLst_ (rdy w'))
           (filter changed L) /\
    flags (ddg w') = flags (ddg w) /\
    latestSubLst_ (rdy w') = latestSubLst_ (rdy w).
Proof.
  intros Hdyn Hk Hnd Hcur L changed.
  assert (Hent : forall e, e ∈ L ->
            (e.1 < length (insts_ (ddg w)))%nat /\
            recomputedKey w e.1 = pureKeyAt w e.1 /\
            (changed e <-> chgAt w e.1 = true)).
  { intros e He. rewrite Forall_forall in Hcur.
    destruct (Hcur e He) as (x & c & x' & Hx & Hs).
    pose proof Hk as [Hc Hf]. rewrite Forall_lookup in Hf.
    destruct (CmputKey_Some_inv _ _ _ _ _ _ _ Hc Hs) as [Hfs Hks].
    pose proof (recomputedKey_pure w e.1 x Hx Hk) as Hrk.
    split_and!; [by eapply lookup_lt_Some | exact Hrk |].
    unfold changed. rewrite Hrk, Hks. unfold pureKeyAt, chgAt. rewrite Hx.
    eapply key_changed_iff; eauto. }
  destruct (UpdatePriorities_loop_spec (map fst L) w Hnd Hk) as (w' & E & P & Lt & F).
  { rewrite Forall_forall. intros n Hn.
    apply list_elem_of_fmap in Hn as (e & -> & He). by apply Hent. }
  assert (HB : filter (fun e : nat * Z => chgAt w e.1 = true) L = filter changed L).
  { apply filter_agree. intros e He. symmetry. by apply Hent. }
  assert (Hfold : prirtyLst_ (rdy w') =
            fold_left (fun l (e : nat * Z) =>
                         PriorityArrayList.BoostElmnt e.1 (recomputedKey w e.1) l)
                      (filter changed L) L).
  { rewrite P. unfold boostIf.
    rewrite (filter_fold_boost (chgAt w)
               (fun l n => PriorityArrayList.BoostElmnt n (pureKeyAt w n) l)), HB.
    apply fold_left_agree. intros l e He.
    apply list_elem_of_filter in He as [_ He].
    by destruct (Hent e He) as (_ & -> & _). }
  exists w'. split_and!.
  - unfold UpdatePriorities. by rewrite Hdyn.
  - exact Hfold.
  - set (B := filter changed L) in *.
    set (keep := fun n => negb (bool_decide (n ∈ map fst B))).
    transitivity (filter (fun e : nat * Z => keep e.1 = true) (prirtyLst_ (rdy w'))).
    { apply list_filter_iff. intros e. unfold keep.
      rewrite negb_true_iff, bool_decide_eq_false. reflexivity. }
    rewrite Hfold, fold_boost_keeps.
    + apply filter_agree. intros e He. unfold keep.
      rewrite negb_true_iff, bool_decide_eq_false.
      split; intros H Hc; apply H.
      * apply list_elem_of_fmap. exists e. split; [reflexivity|].
        apply list_elem_of_filter. by split.
      * apply list_elem_of_fmap in Hc as (e' & E1 & He').
        apply list_elem_of_filter in He' as [Hc' He'].
        by rewrite (NoDup_map_fst_inj L e e' Hnd He He' E1).
    + rewrite Forall_forall. intros e He. unfold keep.
      rewrite negb_false_iff, bool_decide_eq_true.
      apply list_elem_of_fmap. by exists e.
  - rewrite Hfold. apply fold_boost_has. by apply NoDup_map_fst_filter.
  - exact F.
  - exact Lt.
Qed.

(** [AddInst] leaves the new entry with a current key. *)
Lemma AddInst_key_is_current i x w w1 :
  insts_ (ddg w) !! i = Some x ->
  AddInst i w = Some w1 ->
  exists key, (num_ x, key) ∈ prirtyLst_ (rdy w1) /\
              (num_ x = i -> key_is_current w1 (num_ x, key)).
Proof.
  intros Hx Ha.
  destruct (AddInst_inv i w w1 Ha) as (x0 & key & Hx0 & Hk & Hd & Hq).
  rewrite Hx in Hx0. injection Hx0 as <-.
  exists key. split.
  - rewrite Hq. cbn [prirtyLst_ RL.set_prirtyLst].
    apply elem_of_InsrtElmnt. by left.
  - intros Hn. unfold key_is_current. cbn [fst snd]. rewrite Hn.
    exists (instAfter (vctr (prirts_ (rdy w))) x).
    rewrite Hd. unfold DDG.store. cbn [insts_ DDG.set_insts].
    rewrite list_lookup_insert_eq by (by eapply lookup_lt_Some).
    rewrite Hq.
    assert (Hcfg : forall y u, CmputKey_ (RL.set_prirtyLst
                     (PriorityArrayList.InsrtElmnt (num_ x) key (prirtyLst_ (rdy w)))
                     (rdy w)) y u = CmputKey_ (rdy w) y u).
    { intros y u. by destruct (rdy w). }
    rewrite Hcfg.
    rewrite !CmputKey_eq in *.
    destruct (packFrom (keyFields (rdy w) x _) _) as [[k ks]|] eqn:E;
      [|discriminate].
    cbn [mbind option_bind] in Hk. injection Hk as ->.
    assert (Ek : keyFields (rdy w) (asStored (instAfter (vctr (prirts_ (rdy w))) x))
                   (vctr (prirts_ (rdy w))) =
                 keyFields (rdy w) x (vctr (prirts_ (rdy w)))).
    { unfold keyFields. apply map_ext_in. intros h Hh.
      destruct (isLUC h) eqn:Hl.
      - destruct h; try discriminate Hl.
        assert (HL : hasLUC (vctr (prirts_ (rdy w))) = true)
          by (apply existsb_exists; eauto).
        unfold instAfter. rewrite HL. reflexivity.
      - rewrite fieldVal_asStored by exact Hl. by rewrite instAfter_fieldVal. }
    rewrite Ek, E. cbn [mbind option_bind]. eauto.
Qed.

Lemma wDyn_keys_ok : keys_ok (ddg wDyn) (rdy wDyn).
Proof.
  split.
  - split_and!.
    + repeat constructor; vm_compute; congruence.
    + vm_compute. congruence.
    + repeat constructor.
  - repeat constructor; vm_compute; congruence.
Qed.

(** [UpdatePriorities_boosts_changed] on a sample input. *)
Lemma UpdatePriorities_boosts_changed_witness :
  exists w',
    UpdatePriorities wDyn = Some w' /\
    prirtyLst_ (rdy w') = [(0%nat, 57); (1%nat, 37); (2%nat, 20)].
Proof.
  destruct (UpdatePriorities_boosts_changed wDyn eq_refl wDyn_keys_ok)
    as (w' & E & _).
  - apply (bool_decide_unpack _). vm_compute. exact I.
  - repeat constructor; do 3 eexists; (split; [reflexivity|]);
      vm_compute; reflexivity.
  - exists w'. split; [exact E|].
    vm_compute in E. injection E as <-. reflexivity.
Defined.

(** ** The pipeline *)
(** Normalise region states built from the setters: call-by-value, so
    that nested updates are evaluated once. *)
Ltac rnorm :=
  cbv beta iota zeta delta
    [set_isLstOptml set_bestCost set_bestSchedLngth set_hurstcCost
     set_hurstcSchedLngth set_bestSched set_bestSched_ set_bestCost_
     set_bestSchedLngth_ set_hurstcCost_ set_enumCrntSched_
     set_enumBestSched_ set_schedLwrBound_ set_schedUprBound_
     set_costLwrBound_ set_lstSchdulr set_lstSched set_AcoSchedule
     set_heuristicScheduleLength set_AcoScheduleLength_ set_AcoScheduleCost_
     set_rslt set_AcoBeforeEnum set_AcoAfterEnum set_InitialSchedule
     set_InitialScheduleCost set_InitialScheduleLength set_events isLstOptml
     bestCost bestSchedLngth hurstcCost hurstcSchedLngth bestSched bestSched_
     bestCost_ bestSchedLngth_ hurstcCost_ enumCrntSched_ enumBestSched_
     schedLwrBound_ schedUprBound_ costLwrBound_ lstSchdulr lstSched
     AcoSchedule heuristicScheduleLength AcoScheduleLength_ AcoScheduleCost_
     rslt AcoBeforeEnum AcoAfterEnum InitialSchedule InitialScheduleCost
     InitialScheduleLength events log].

Ltac rnorm_in H :=
  cbv beta iota zeta delta
    [set_isLstOptml set_bestCost set_bestSchedLngth set_hurstcCost
     set_hurstcSchedLngth set_bestSched set_bestSched_ set_bestCost_
     set_bestSchedLngth_ set_hurstcCost_ set_enumCrntSched_
     set_enumBestSched_ set_schedLwrBound_ set_schedUprBound_
     set_costLwrBound_ set_lstSchdulr set_lstSched set_AcoSchedule
     set_heuristicScheduleLength set_AcoScheduleLength_ set_AcoScheduleCost_
     set_rslt set_AcoBeforeEnum set_AcoAfterEnum set_InitialSchedule
     set_InitialScheduleCost set_InitialScheduleLength set_events isLstOptml
     bestCost bestSchedLngth hurstcCost hurstcSchedLngth bestSched bestSched_
     bestCost_ bestSchedLngth_ hurstcCost_ enumCrntSched_ enumBestSched_
     schedLwrBound_ schedUprBound_ costLwrBound_ lstSchdulr lstSched
     AcoSchedule heuristicScheduleLength AcoScheduleLength_ AcoScheduleCost_
     rslt AcoBeforeEnum AcoAfterEnum InitialSchedule InitialScheduleCost
     InitialScheduleLength events log] in H.

Ltac rnorm_all :=
  cbv beta iota zeta delta
    [set_isLstOptml set_bestCost set_bestSchedLngth set_hurstcCost
     set_hurstcSchedLngth set_bestSched set_bestSched_ set_bestCost_
     set_bestSchedLngth_ set_hurstcCost_ set_enumCrntSched_
     set_enumBestSched_ set_schedLwrBound_ set_schedUprBound_
     set_costLwrBound_ set_lstSchdulr set_lstSched set_AcoSchedule
     set_heuristicScheduleLength set_AcoScheduleLength_ set_AcoScheduleCost_
     set_rslt set_AcoBeforeEnum set_AcoAfterEnum set_InitialSchedule
     set_InitialScheduleCost set_InitialScheduleLength set_events isLstOptml
     bestCost bestSchedLngth hurstcCost hurstcSchedLngth bestSched bestSched_
     bestCost_ bestSchedLngth_ hurstcCost_ enumCrntSched_ enumBestSched_
     schedLwrBound_ schedUprBound_ costLwrBound_ lstSchdulr lstSched
     AcoSchedule heuristicScheduleLength AcoScheduleLength_ AcoScheduleCost_
     rslt AcoBeforeEnum AcoAfterEnum InitialSchedule InitialScheduleCost
     InitialScheduleLength events log] in *.

Ltac rgn_destruct :=
  repeat match goal with
         | s : Rgn |- _ => destruct s
         end.

Lemma andThen_Go o k s' :
  o >>> k = Go s' -> exists s, o = Go s /\ k s = Go s'.
Proof. destruct o; cbn; intros; try discriminate; eauto. Qed.

Ltac split_pipe H :=
  repeat match type of H with
         | _ >>> _ = Go _ =>
             let s := fresh "s" in
             let H1 := fresh "Hpre" in
             let H2 := fresh "Hstep" in
             apply andThen_Go in H as (s & H1 & H2); try split_pipe H1
         end.

(** Case analysis on the tests of a step. *)
Ltac step_cases H :=
  repeat match type of H with
         | context [if ?c then _ else _] => destruct c eqn:?
         | context [match ?c with Some _ => _ | None => _ end] => destruct c eqn:?
         end;
  try discriminate H.

Ltac done_step H :=
  first [ injection H as <- | idtac ].

Lemma Forall_snoc {A} (P : A -> Prop) l x : Forall P l -> P x -> Forall P (l ++ [x]).
Proof. intros. apply Forall_app. split; [done|]. by constructor. Qed.

Lemma ApplyGraphTrans_inv e s0 gts : forall i s s',
  ApplyGraphTrans e i gts s = Go s' ->
  pre_gate_inv s0 s -> pre_gate_inv s0 s'.
Proof.
  induction gts as [|[a u] gts IH]; intros i s s' H Hi.
  - cbn in H. by injection H as <-.
  - cbn [ApplyGraphTrans] in H.
    destruct (is_success a); cbn [negb] in H; [|discriminate].
    destruct (is_success u); cbn [negb] in H; [|discriminate].
    eapply IH; [exact H|].
    destruct Hi as (H1 & H2 & H3 & H4 & H5 & H6). unfold pre_gate_inv. cbn.
    split_and!; auto. repeat apply Forall_snoc; auto; exact I.
Qed.

Lemma Step_Entry_inv e s0 s :
  events s0 = [] -> Step_Entry e s0 = Go s -> pre_gate_inv s0 s.
Proof.
  intros Hev H. unfold Step_Entry in H. step_cases H; injection H as <-;
    unfold pre_gate_inv; cbn; rewrite Hev; split_and!; auto.
Qed.

Lemma Step_Setup_inv e s0 s s' :
  Step_Setup e s = Go s' -> pre_gate_inv s0 s -> pre_gate_inv s0 s'.
Proof.
  intros H Hi. unfold Step_Setup in H.
  destruct (is_success (SetupForSchdulng e)); cbn [negb] in H; [|discriminate].
  apply andThen_Go in H as (s1 & H1 & H2). injection H2 as <-.
  apply (ApplyGraphTrans_inv e s0) in H1.
  - destruct H1 as (H1 & H2 & H3 & H4 & H5 & H6). unfold pre_gate_inv. cbn.
    split_and!; auto.
  - destruct Hi as (H1' & H2 & H3 & H4 & H5 & H6). unfold pre_gate_inv. cbn.
    split_and!; auto. apply Forall_snoc; auto; exact I.
Qed.

Ltac inv_step H Hi :=
  step_cases H; injection H as <-;
  destruct Hi as (?H & ?H & ?H & ?H & ?H & ?H); unfold pre_gate_inv; cbn;
  split_and!; auto; repeat apply Forall_snoc; auto; try exact I.

Lemma Step_LwrBounds_inv e s0 s s' :
  Step_LwrBounds e s = Go s' -> pre_gate_inv s0 s -> pre_gate_inv s0 s'.
Proof.
  intros H Hi. unfold Step_LwrBounds, CmputLwrBounds_ in H. inv_step H Hi.
Qed.

Lemma Step_Heuristic_inv e s0 s s' :
  Step_Heuristic e s = Go s' -> pre_gate_inv s0 s -> pre_gate_inv s0 s'.
Proof.
  intros H Hi. unfold Step_Heuristic in H. cbn in H. inv_step H Hi.
Qed.

Lemma Step_AcoBefore_inv e s0 s s' :
  Step_AcoBefore e s = Go s' -> pre_gate_inv s0 s -> pre_gate_inv s0 s'.
Proof.
  intros H Hi. unfold Step_AcoBefore in H. cbn in H. inv_step H Hi.
Qed.

Lemma Step_Incumbent_inv e s0 s s' :
  Step_Incumbent e s = Go s' -> pre_gate_inv s0 s -> pre_gate_inv s0 s'.
Proof.
  intros H Hi. unfold Step_Incumbent in H. cbn in H. inv_step H Hi.
Qed.

Lemma Step_UprBounds_inv e s0 s s' :
  Step_UprBounds e s = Go s' ->
  pre_gate_inv s0 s -> pre_gate_inv s0 s' /\ is_Some (bestSched_ s').
Proof.
  intros H Hi. unfold Step_UprBounds, CmputUprBounds_ in H. cbn in H.
  step_cases H; injection H as <-;
  destruct Hi as (?H & ?H & ?H & ?H & ?H & ?H); unfold pre_gate_inv; cbn;
  (split; [split_and!; auto; repeat apply Forall_snoc; auto; try exact I | eauto]).
Qed.

Lemma Step_PerpFilter_inv e s0 s s' :
  Step_PerpFilter e s = Go s' ->
  pre_gate_inv s0 s -> pre_gate_inv s0 s' /\ bestSched_ s' = bestSched_ s.
Proof.
  intros H Hi. unfold Step_PerpFilter in H.
  step_cases H; injection H as <-;
  destruct Hi as (?H & ?H & ?H & ?H & ?H & ?H); unfold pre_gate_inv; cbn;
  (split; [split_and!; auto|reflexivity]).
Qed.

Lemma PreGate_inv e s0 s :
  events s0 = [] -> PreGate e s0 = Go s ->
  pre_gate_inv s0 s /\ is_Some (bestSched_ s).
Proof.
  intros Hev H. unfold PreGate, PreIncumbent, PreHeuristic in H.
  apply andThen_Go in H as (s7 & H & H8).
  apply andThen_Go in H as (s6 & H & H7).
  apply andThen_Go in H as (s5 & H & H6).
  apply andThen_Go in H as (s4 & H & H5).
  apply andThen_Go in H as (s3 & H & H4).
  apply andThen_Go in H as (s2 & H & H3).
  apply andThen_Go in H as (s1 & H1 & H2).
  apply (Step_Entry_inv e s0 s1 Hev) in H1.
  apply (Step_Setup_inv e s0 _ _ H2) in H1.
  apply (Step_LwrBounds_inv e s0 _ _ H3) in H1.
  apply (Step_Heuristic_inv e s0 _ _ H4) in H1.
  apply (Step_AcoBefore_inv e s0 _ _ H5) in H1.
  apply (Step_Incumbent_inv e s0 _ _ H6) in H1.
  apply (Step_UprBounds_inv e s0 _ _ H7) in H1 as [H1 Hs].
  apply (Step_PerpFilter_inv e s0 _ _ H8) in H1 as [H1 Hb].
  split; [exact H1|]. by rewrite Hb.
Qed.

(** C10.  A run whose enumeration gate is closed returns [RES_FAIL] at
    the gate.  The reference outputs [bestCost], [bestSchedLngth],
    [hurstcCost] and [hurstcSchedLngth] still hold the caller's values,
    while [bestSched] already points to the incumbent; no verification,
    no final bounds and no delete of a candidate schedule has happened. *)
Theorem gate_closed_returns_fail (e : Env) (s0 s : Rgn) :
  events s0 = [] ->
  PreGate e s0 = Go s ->
  EnableEnum_ e s = false ->
  exists s',
    FindOptimalSchedule e s0 = Return RES_FAIL s' /\
    bestCost s' = bestCost s0 /\
    bestSchedLngth s' = bestSchedLngth s0 /\
    hurstcCost s' = hurstcCost s0 /\
    hurstcSchedLngth s' = hurstcSchedLngth s0 /\
    bestSched s' = bestSched_ s' /\
    is_Some (bestSched s') /\
    Forall (fun ev => match ev with
                      | EvVerify _ | EvSetFinalBounds _ _ | EvDelete _ => False
                      | _ => True
                      end) (events s').
Proof.
  intros Hev Hpre Hgate.
  destruct (PreGate_inv e s0 s Hev Hpre) as [(H1 & H2 & H3 & H4 & H5 & H6) Hs].
  assert (Hrun : FindOptimalSchedule e s0 = Return RES_FAIL (delete_lstSchdulr s)).
  { unfold FindOptimalSchedule, PreBounds. rewrite Hpre.
    cbn [andThen]. unfold Step_Gate. rewrite Hgate. reflexivity. }
  assert (Hd : forall s, delete_lstSchdulr s = s \/
                         delete_lstSchdulr s = log EvDeleteLstSchdulr s).
  { intros x. unfold delete_lstSchdulr. destruct (lstSchdulr x); auto. }
  exists (delete_lstSchdulr s). split; [exact Hrun|]. clear Hrun.
  destruct (Hd s) as [-> | ->]; cbn; split_and!; auto.
  - by rewrite H5.
  - eapply Forall_impl; [exact H6|]. by intros [].
  - by rewrite H5.
  - apply Forall_snoc; [|exact I]. eapply Forall_impl; [exact H6|]. by intros [].
Qed.





Lemma Go_inj a b : Go a = Go b -> a = b.
Proof. by intros [= ->]. Qed.




Lemma advance_bind (I I' P : Rgn -> Prop) o k :
  advance I P o -> (forall s, I s -> advance I' P (k s)) ->
  advance I' P (o >>> k).
Proof. destruct o; cbn; auto. Qed.

Lemma advance_goes (I : Rgn -> Prop) o :
  advance I (fun _ => False) o -> exists s, o = Go s /\ I s.
Proof. destruct o; cbn; intros H; try contradiction; eauto. Qed.

Ltac settle_tac :=
  unfold settled_before_gate, settled_after_gate, settled in *; cbn in *;
  repeat match goal with
         | H : _ /\ _ |- _ => destruct H
         end;
  split_and!; auto; try lia;
  repeat (apply Forall_snoc; [|exact I]); auto.

Section Settled.
Context (e : Env) (p : SchedObj) (P : Rgn -> Prop).

Lemma settled_Step_Incumbent s :
  settled_before_gate e p s ->
  advance (settled_before_gate e p) P (Step_Incumbent e s).
Proof.
  intros H. unfold Step_Incumbent.
  destruct H as ((Ho & ?) & ?). rewrite Ho. cbn. settle_tac.
Qed.

Lemma settled_Step_UprBounds s :
  settled_before_gate e p s ->
  advance (settled_before_gate e p) P (Step_UprBounds e s).
Proof.
  intros H. unfold Step_UprBounds, CmputUprBounds_.
  destruct H as ((Ho & Hb & Hc & Hl & Hev) & Hbs & Hle & Hr).
  rewrite Hl, Hb, Hc.
  destruct (Z.leb_spec (schedLwrBound_ s) (GetCrntLngth e p)); [|lia].
  cbn. settle_tac.
Qed.

Lemma settled_Step_PerpFilter s :
  settled_before_gate e p s ->
  advance (settled_before_gate e p) P (Step_PerpFilter e s).
Proof.
  intros H. unfold Step_PerpFilter.
  destruct H as ((Ho & ?) & ?). rewrite Ho.
  rewrite andb_false_r. cbn. settle_tac.
Qed.

Lemma settled_RegAlloc s :
  settled_after_gate e p s ->
  advance (settled_after_gate e p) P (RegAlloc_ e (InitialSchedule s) s).
Proof.
  intros H. unfold RegAlloc_.
  destruct H as ((Ho & Hb & Hc & Hl & Hev) & Hbs & Hi & Hic & Hil & Hr).
  rewrite Hi, Hbs.
  destruct (simulates_list _), (simulates_best _); cbn [advance];
    destruct (String.eqb _ _);
    try destruct (RegAllocCost e p <? RegAllocCost e p);
    cbn; settle_tac.
Qed.

Lemma settled_Step_Enumerate s :
  settled_after_gate e p s ->
  advance (settled_after_gate e p) P (Step_Enumerate e s).
Proof.
  intros H. unfold Step_Enumerate.
  destruct (isBbEnabled e); [|exact H].
  pose proof H as ((Ho & _) & _). rewrite Ho. cbn [negb andThen].
  destruct (negb _); [|exact H]. by apply settled_RegAlloc.
Qed.

Lemma settled_Step_AcoAfter s :
  settled_after_gate e p s ->
  advance (settled_after_gate e p) P (Step_AcoAfter e s).
Proof.
  intros H. unfold Step_AcoAfter.
  pose proof H as ((_ & _ & Hc & _) & _). rewrite Hc. exact H.
Qed.

Lemma settled_Step_Verify s :
  settled_after_gate e p s ->
  advance (settled_after_gate e p) P (Step_Verify e s).
Proof.
  intros H. unfold Step_Verify.
  destruct (vrfySched_ e); [|exact H].
  pose proof H as (_ & Hbs & _). rewrite Hbs.
  destruct (Verify e p); cbn; settle_tac.
Qed.

Lemma settled_Step_Bounds s :
  settled_after_gate e p s ->
  advance (settled_after_gate e p) P (Step_Bounds e s).
Proof. intros H. unfold Step_Bounds. cbn [advance]. settle_tac. Qed.

End Settled.

(** The gate, open and closed. *)
Lemma settled_gate_open e p s :
  settled_before_gate e p s -> EnableEnum_ e s = true ->
  exists s', Step_Gate e s = Go s' /\ settled_after_gate e p s'.
Proof.
  intros H Hg. unfold Step_Gate. rewrite Hg. cbn [negb].
  eexists. split; [reflexivity|]. settle_tac.
Qed.

Lemma settled_gate_closed e p s :
  settled_before_gate e p s -> EnableEnum_ e s = false ->
  exists s',
    Step_Gate e s = Return RES_FAIL s' /\
    settled e p s' /\ bestSched s' = Some p /\
    bestCost s' = bestCost s /\ bestSchedLngth s' = bestSchedLngth s.
Proof.
  intros H Hg. unfold Step_Gate, delete_lstSchdulr. rewrite Hg. cbn [negb].
  eexists. split; [reflexivity|].
  destruct (lstSchdulr s); settle_tac.
Qed.

Lemma Forall_delete_sched (P : Event -> Prop) q s :
  (forall o, P (EvDelete o)) -> Forall P (events s) ->
  Forall P (events (delete_sched q s)).
Proof.
  intros HP H. destruct q; cbn; [|exact H]. apply Forall_snoc; auto.
Qed.

Lemma Forall_delete_lstSchdulr (P : Event -> Prop) s :
  P EvDeleteLstSchdulr -> Forall P (events s) ->
  Forall P (events (delete_lstSchdulr s)).
Proof.
  intros HP H. unfold delete_lstSchdulr. destruct (lstSchdulr s); cbn; [|exact H].
  apply Forall_snoc; auto.
Qed.

(** *** The last step *)
Lemma set_events_same s : set_events (events s) s = s.
Proof. by destruct s. Qed.

Lemma delete_sched_events q s :
  exists l, Forall (fun ev => exists o, ev = EvDelete o) l /\
            delete_sched q s = set_events (events s ++ l) s.
Proof.
  destruct q as [o|]; cbn.
  - exists [EvDelete o]. split; [repeat constructor; eauto | reflexivity].
  - exists []. split; [constructor|]. by rewrite app_nil_r, set_events_same.
Qed.

Lemma extends_refl K s : extends K s s.
Proof. exists []. split; [constructor|]. by rewrite app_nil_r, set_events_same. Qed.

Lemma extends_trans K s1 s2 s3 :
  extends K s1 s2 -> extends K s2 s3 -> extends K s1 s3.
Proof.
  intros (l1 & F1 & ->) (l2 & F2 & ->). exists (l1 ++ l2).
  split; [by apply Forall_app|]. cbn. by rewrite app_assoc.
Qed.

Lemma extends_delete_sched q s : extends freeing s (delete_sched q s).
Proof.
  destruct q as [o|]; cbn; [|apply extends_refl].
  exists [EvDelete o]. split; [repeat constructor | reflexivity].
Qed.

Lemma extends_delete_unless_best q s : extends freeing s (delete_unless_best q s).
Proof.
  unfold delete_unless_best. destruct (negb _);
    [apply extends_delete_sched | apply extends_refl].
Qed.

Lemma extends_delete_lstSchdulr s : extends freeing s (delete_lstSchdulr s).
Proof.
  unfold delete_lstSchdulr. destruct (lstSchdulr s); [|apply extends_refl].
  exists [EvDeleteLstSchdulr]. split; [repeat constructor | reflexivity].
Qed.

Lemma extends_free_losers s : extends freeing s (free_losers s).
Proof.
  unfold free_losers. cbv zeta.
  eapply extends_trans; [|apply extends_delete_sched].
  eapply extends_trans; [|apply extends_delete_unless_best].
  eapply extends_trans; [|apply extends_delete_unless_best].
  eapply extends_trans; [|apply extends_delete_unless_best].
  apply extends_delete_lstSchdulr.
Qed.

(** What [Step_Finish] returns. *)
Lemma Step_Finish_spec e s :
  exists sF l,
    Step_Finish e s = Return (rslt s) sF /\
    Forall freeing l /\
    events sF = events s ++ l /\
    isLstOptml sF = isLstOptml s /\
    bestSched_ sF = bestSched_ s /\
    costLwrBound_ sF = costLwrBound_ s /\
    ((bestCost_ sF = bestCost_ s /\ bestSchedLngth_ sF = bestSchedLngth_ s) \/
     (bestCost_ sF = InitialScheduleCost s /\
      bestSchedLngth_ sF = InitialScheduleLength s)) /\
    bestCost sF = bestCost_ sF /\
    bestSchedLngth sF = bestSchedLngth_ sF /\
    hurstcCost sF = hurstcCost_ s /\
    hurstcSchedLngth sF = heuristicScheduleLength s.
Proof.
  unfold Step_Finish. cbv zeta.
  set (c := check_result e s).
  assert (Hc : exists l, Forall freeing l /\ events c = events s ++ l /\
             isLstOptml c = isLstOptml s /\ bestSched_ c = bestSched_ s /\
             costLwrBound_ c = costLwrBound_ s /\ rslt c = rslt s /\
             hurstcCost_ c = hurstcCost_ s /\
             heuristicScheduleLength c = heuristicScheduleLength s /\
             ((bestCost_ c = bestCost_ s /\ bestSchedLngth_ c = bestSchedLngth_ s) \/
              (bestCost_ c = InitialScheduleCost s /\
               bestSchedLngth_ c = InitialScheduleLength s))).
  { unfold c, check_result. cbv zeta. exists [EvChkSchedule].
    destruct (negb _); cbn; split_and!; auto; repeat constructor. }
  clearbody c. destruct Hc as (l1 & F1 & E1 & C1 & C2 & C3 & C4 & C5 & C6 & C7).
  destruct (extends_free_losers c) as (l2 & F2 & E2).
  set (f := free_losers c) in *. clearbody f. subst f.
  set (o := assign_outputs _).
  assert (Ho : events o = events s ++ (l1 ++ l2) /\
               isLstOptml o = isLstOptml s /\ bestSched_ o = bestSched_ s /\
               costLwrBound_ o = costLwrBound_ s /\ rslt o = rslt s /\
               bestCost_ o = bestCost_ c /\ bestSchedLngth_ o = bestSchedLngth_ c /\
               bestCost o = bestCost_ c /\ bestSchedLngth o = bestSchedLngth_ c /\
               hurstcCost o = hurstcCost_ s /\
               hurstcSchedLngth o = heuristicScheduleLength s).
  { unfold o, assign_outputs. cbn. rewrite E1, <- app_assoc. split_and!; auto. }
  clearbody o.
  destruct Ho as (O1 & O2 & O3 & O4 & O5 & O6 & O7 & O8 & O9 & O10 & O11).
  destruct (is_SLIL (spillCostFunc_ e) && discards e o).
  - destruct (delete_sched_events (bestSched o) o) as (l3 & F3 & E3).
    rewrite E3. rewrite O5.
    eexists _, ((l1 ++ l2) ++ l3). split; [reflexivity|]. cbn.
    rewrite O1, <- !app_assoc. split_and!; auto; try congruence;
      try (repeat (apply Forall_app; split); auto;
           eapply Forall_impl; [exact F3|]; intros ev [x ->]; exact I);
      try (destruct C7 as [[? ?]|[? ?]]; [left|right]; split; congruence).
  - rewrite O5. eexists _, (l1 ++ l2). split; [reflexivity|].
    split_and!; auto; try congruence;
      try (by apply Forall_app);
      try (destruct C7 as [[? ?]|[? ?]]; [left|right]; split; congruence).
Qed.

(** The last step on a settled run. *)
Lemma settled_Step_Finish e p s :
  settled_after_gate e p s ->
  exists sF,
    Step_Finish e s = Return RES_SUCCESS sF /\
    settled e p sF /\
    bestCost sF = 0 /\
    bestSchedLngth sF = GetCrntLngth e p /\
    bestSched sF = (if drops_unimproved e then None else Some p) /\
    (drops_unimproved e = true -> EvDelete p ∈ events sF).
Proof.
  intros ((Ho & Hb & Hc & Hl & Hev) & Hbs & Hi & Hic & Hil & Hr).
  destruct (Step_Finish_spec e s)
    as (sF & l & E & Fl & Ev & F1 & F2 & _ & F4 & F5 & F6 & _).
  assert (Hcost : bestCost_ sF = 0 /\ bestSchedLngth_ sF = GetCrntLngth e p)
    by (destruct F4 as [[? ?]|[? ?]]; split; congruence).
  destruct Hcost as [Hc0 Hl0].
  assert (Hset : settled e p sF).
  { unfold settled. split_and!; try congruence.
    rewrite Ev. apply Forall_app. split; [exact Hev|].
    eapply Forall_impl; [exact Fl|]. by intros []. }
  assert (Hbest : exists sF',
             Step_Finish e s = Return RES_SUCCESS sF' /\
             bestSched sF' = (if drops_unimproved e then None else Some p) /\
             (drops_unimproved e = true -> EvDelete p ∈ events sF')).
  { clear E Fl Ev F1 F2 F4 F5 F6 Hc0 Hl0 Hset.
    unfold Step_Finish. cbv zeta.
    set (c := check_result e s).
    assert (Hcr : isLstOptml c = true /\ bestSched c = Some p /\
                  bestCost_ c = 0 /\ rslt c = RES_SUCCESS /\
                  InitialScheduleCost c = 0).
    { unfold c, check_result. cbv zeta. destruct (negb _); cbn;
        split_and!; congruence. }
    clearbody c. destruct Hcr as (C1 & C2 & C3 & C4 & C5).
    destruct (extends_free_losers c) as (l2 & _ & E2). rewrite E2.
    set (o := assign_outputs _).
    assert (Hout : isLstOptml o = true /\ bestSched o = Some p /\
                   bestCost o = 0 /\ rslt o = RES_SUCCESS /\
                   InitialScheduleCost o = 0).
    { unfold o, assign_outputs. cbn. split_and!; assumption. }
    clearbody o. destruct Hout as (O1 & O2 & O3 & O4 & O5).
    unfold drops_unimproved, discards. rewrite O1, O3, O4, O5.
    cbv zeta. cbn [orb is_success Z.eqb Z.ltb Z.compare negb].
    destruct (is_SLIL (spillCostFunc_ e)), (blocksToKeep e);
      cbn [andb negb]; eexists; (split; [reflexivity|]);
      (split; [cbn; first [reflexivity | exact O2]|]);
      intros Hd; try discriminate Hd.
    rewrite O2. cbn. apply elem_of_app. right. by left. }
  destruct Hbest as (sF' & E' & Hb' & Hd').
  rewrite E in E'. rewrite Hr in E'. injection E' as <-.
  exists sF. split_and!; try assumption; congruence.
Qed.

Lemma is_success_true r : is_success r = true <-> r = RES_SUCCESS.
Proof. destruct r; cbn; split; congruence. Qed.

Lemma ApplyGraphTrans_frame e gts : forall i s s',
  ApplyGraphTrans e i gts s = Go s' ->
  isLstOptml s' = isLstOptml s /\ AcoBeforeEnum s' = AcoBeforeEnum s /\
  (rslt s = RES_SUCCESS -> rslt s' = RES_SUCCESS).
Proof.
  induction gts as [|[a u] gts IH]; intros i s s' H.
  - cbn in H. injection H as <-. auto.
  - cbn [ApplyGraphTrans] in H.
    destruct (is_success a) eqn:Ea; cbn [negb] in H; [|discriminate].
    destruct (is_success u) eqn:Eu; cbn [negb] in H; [|discriminate].
    destruct (IH _ _ _ H) as (I1 & I2 & I3). cbn in I1, I2, I3.
    split_and!; auto. intros _. apply I3. by apply is_success_true.
Qed.

(** The state in which the heuristic pass is reached. *)
Lemma PreHeuristic_facts e s0 s1 :
  events s0 = [] -> PreHeuristic e s0 = Go s1 ->
  isLstOptml s1 = isLstOptml s0 /\
  AcoBeforeEnum s1 = (if ACO_ENABLED e then ACO_BEFORE_ENUM e else false) /\
  rslt s1 = RES_SUCCESS /\
  pre_gate_inv s0 s1.
Proof.
  intros Hev H. unfold PreHeuristic in H.
  apply andThen_Go in H as (s3 & H & H3).
  apply andThen_Go in H as (s2 & H1 & H2).
  pose proof (Step_Entry_inv e s0 s2 Hev H1) as Hi.
  apply (Step_Setup_inv e s0 _ _ H2) in Hi.
  apply (Step_LwrBounds_inv e s0 _ _ H3) in Hi.
  assert (F2 : isLstOptml s2 = isLstOptml s0 /\
               AcoBeforeEnum s2 = (if ACO_ENABLED e then ACO_BEFORE_ENUM e else false) /\
               rslt s2 = RES_SUCCESS).
  { unfold Step_Entry in H1.
    destruct (negb (HEUR_ENABLED e) && _); [discriminate|].
    injection H1 as <-. cbn. auto. }
  assert (F3 : isLstOptml s3 = isLstOptml s2 /\ AcoBeforeEnum s3 = AcoBeforeEnum s2 /\
               rslt s3 = RES_SUCCESS).
  { unfold Step_Setup in H2.
    destruct (is_success (SetupForSchdulng e)) eqn:Es; cbn [negb] in H2;
      [|discriminate].
    apply andThen_Go in H2 as (sa & Ha & Hb). injection Hb as <-. cbn.
    destruct (ApplyGraphTrans_frame _ _ _ _ _ Ha) as (A1 & A2 & A3).
    cbn in A1, A2, A3. split_and!; auto. apply A3. by apply is_success_true. }
  assert (F4 : isLstOptml s1 = isLstOptml s3 /\ AcoBeforeEnum s1 = AcoBeforeEnum s3 /\
               rslt s1 = rslt s3).
  { unfold Step_LwrBounds, CmputLwrBounds_ in H3.
    step_cases H3; injection H3 as <-; cbn; auto. }
  destruct F2 as (? & ? & ?), F3 as (? & ? & ?), F4 as (? & ? & ?).
  split_and!; congruence.
Qed.

Lemma pre_gate_not_enumerate s0 s :
  pre_gate_inv s0 s -> Forall not_enumerate (events s).
Proof.
  intros (_ & _ & _ & _ & _ & H). eapply Forall_impl; [exact H|]. by intros [].
Qed.

Lemma zero_cost_pass_establishes e s0 s1 p (P : Rgn -> Prop) :
  events s0 = [] ->
  PreHeuristic e s0 = Go s1 ->
  zero_cost_pass e (isLstOptml s0) p ->
  schedLwrBound_ s1 <= GetCrntLngth e p ->
  advance (settled_before_gate e p) P
          (Step_Heuristic e s1 >>> Step_AcoBefore e).
Proof.
  intros Hev Hpre Hz Hle.
  destruct (PreHeuristic_facts e s0 s1 Hev Hpre) as (Ho & Ha & Hrs & Hi).
  pose proof (pre_gate_not_enumerate s0 s1 Hi) as Hne.
  clear Hpre Hi Hev.
  destruct p; cbn [zero_cost_pass] in Hz; try contradiction.
  - destruct Hz as (Hrun & Hres & Hcost).
    unfold Step_Heuristic. rewrite Hrun, Hres.
    unfold Step_AcoBefore, settled_before_gate, settled.
    rgn_destruct. rnorm_all. rewrite Hcost.
    cbn [is_success negb Z.eqb andThen].
    destruct (_ && (InstCnt e <? 20)); cbn [andb negb advance];
      rewrite ?andb_false_r; cbn [advance];
      (split_and!; auto; repeat (apply Forall_snoc; [|exact I]); exact Hne).
  - destruct Hz as (Hopt & Hheur & Hen & Hbef & Hcnt & Hres & Hcost).
    rewrite Hen, Hbef in Ha. rewrite Hopt in Ho.
    assert (Hlt : (InstCnt e <? 20) = false) by (apply Z.ltb_ge; lia).
    unfold Step_Heuristic, Step_AcoBefore, settled_before_gate, settled.
    destruct (HEUR_ENABLED e || IsSecondPass e) eqn:Hrun.
    + destruct (Hheur eq_refl) as [Hl Hc]. rewrite Hl.
      apply Z.eqb_neq in Hc.
      rgn_destruct. rnorm_all. subst.
      repeat (progress (rnorm; rewrite ?Hc, ?Hlt, ?Hres, ?Hcost;
                        cbn [andb negb is_success Z.eqb andThen advance])).
      split_and!; auto; repeat (apply Forall_snoc; [|exact I]); exact Hne.
    + rgn_destruct. rnorm_all. subst.
      repeat (progress (rnorm; rewrite ?Hlt, ?Hres, ?Hcost;
                        cbn [andb negb is_success Z.eqb andThen advance])).
      split_and!; auto; repeat (apply Forall_snoc; [|exact I]); exact Hne.
Qed.

(** C1 (as the code has it).  When the heuristic pass, or the ant-colony
    pass before the search when it runs, produces a schedule of cost
    zero, the run gets to the enumeration gate and then returns: that
    schedule is the region's best schedule, with its length and cost 0,
    [isLstOptml] is set and the enumerator was never called.  With the
    gate open the function returns [RES_SUCCESS] and assigns cost 0 and
    the length of that schedule to [bestCost] and [bestSchedLngth];
    [bestSched] is that schedule, unless the cost function is SLIL and
    only improved blocks are kept, in which case the schedule is deleted
    and [bestSched] is null.  With the gate closed the function returns
    [RES_FAIL]: [bestSched] is that schedule, and [bestCost] and
    [bestSchedLngth] still hold the caller's values.  (The bound
    [schedLwrBound_ <= length] is what the function asserts of any
    incumbent.) *)
Theorem zero_cost_pass_settles (e : Env) (s0 s1 : Rgn) (p : SchedObj) :
  events s0 = [] ->
  PreHeuristic e s0 = Go s1 ->
  zero_cost_pass e (isLstOptml s0) p ->
  schedLwrBound_ s1 <= GetCrntLngth e p ->
  exists r s sg,
    FindOptimalSchedule e s0 = Return r s /\
    PreGate e s0 = Go sg /\
    bestSched_ s = Some p /\
    bestSchedLngth_ s = GetCrntLngth e p /\
    bestCost_ s = 0 /\
    isLstOptml s = true /\
    Forall not_enumerate (events s) /\
    (EnableEnum_ e sg = true ->
       r = RES_SUCCESS /\
       bestCost s = 0 /\
       bestSchedLngth s = GetCrntLngth e p /\
       bestSched s = (if drops_unimproved e then None else Some p) /\
       (drops_unimproved e = true -> EvDelete p ∈ events s)) /\
    (EnableEnum_ e sg = false ->
       r = RES_FAIL /\
       bestSched s = Some p /\
       bestCost s = bestCost s0 /\
       bestSchedLngth s = bestSchedLngth s0).
Proof.
  intros Hev Hpre Hz Hle.
  assert (Hg : advance (settled_before_gate e p) (fun _ => False) (PreGate e s0)).
  { unfold PreGate, PreIncumbent.
    eapply advance_bind; [|apply settled_Step_PerpFilter].
    eapply advance_bind; [|apply settled_Step_UprBounds].
    eapply advance_bind; [|apply settled_Step_Incumbent].
    rewrite Hpre. cbn [andThen].
    by eapply zero_cost_pass_establishes. }
  apply advance_goes in Hg as (sg & Eg & Hsg).
  destruct (PreGate_inv e s0 sg Hev Eg) as [(G1 & G2 & _) _].
  destruct (EnableEnum_ e sg) eqn:Hgate.
  - destruct (settled_gate_open e p sg Hsg Hgate) as (s2 & E2 & H2).
    assert (Hb : advance (settled_after_gate e p) (fun _ => False)
                   (Step_Enumerate e s2 >>> Step_AcoAfter e >>>
                    Step_Verify e >>> Step_Bounds e)).
    { eapply advance_bind; [|apply settled_Step_Bounds].
      eapply advance_bind; [|apply settled_Step_Verify].
      eapply advance_bind; [|apply settled_Step_AcoAfter].
      by apply settled_Step_Enumerate. }
    apply advance_goes in Hb as (s3 & E3 & H3).
    destruct (settled_Step_Finish e p s3 H3)
      as (sF & EF & (S1 & S2 & S3 & S4 & S5) & O1 & O2 & O3 & O4).
    exists RES_SUCCESS, sF, sg. split_and!; try assumption; try reflexivity.
    + unfold FindOptimalSchedule, PreBounds. rewrite Eg. cbn [andThen].
      rewrite E2. cbn [andThen].
      apply andThen_Go in E3 as (c & E3 & Ec).
      apply andThen_Go in E3 as (b & E3 & Eb).
      apply andThen_Go in E3 as (a & Ea & Ew).
      rewrite Ea. cbn [andThen]. rewrite Ew. cbn [andThen].
      rewrite Eb. cbn [andThen]. rewrite Ec. cbn [andThen]. exact EF.
    + intros _. split_and!; [reflexivity|exact O1|exact O2|exact O3|exact O4].
    + intros Hf. congruence.
  - destruct (settled_gate_closed e p sg Hsg Hgate)
      as (sF & EF & (S1 & S2 & S3 & S4 & S5) & O1 & O2 & O3).
    exists RES_FAIL, sF, sg. split_and!; try assumption; try reflexivity.
    + unfold FindOptimalSchedule, PreBounds. rewrite Eg. cbn [andThen].
      rewrite EF. reflexivity.
    + intros Hf. congruence.
    + intros _. split_and!; [reflexivity|exact O1|congruence|congruence].
Qed.

Lemma omap_none {A B} (f : A -> option B) (P : A -> Prop) l :
  (forall x, P x -> f x = None) -> Forall P l -> omap f l = [].
Proof.
  intros Hf. induction 1 as [|x l Hx _ IH]; [reflexivity|].
  cbn. by rewrite (Hf x Hx), IH.
Qed.



















(** [zero_cost_pass_settles] on a sample input. *)
Lemma zero_cost_pass_settles_witness :
  exists r s sg,
    FindOptimalSchedule envZero rgn0 = Return r s /\
    PreGate envZero rgn0 = Go sg /\
    bestSched_ s = Some LstSched /\
    bestSchedLngth_ s = GetCrntLngth envZero LstSched /\
    bestCost_ s = 0 /\
    isLstOptml s = true /\
    Forall not_enumerate (events s) /\
    (EnableEnum_ envZero sg = true ->
       r = RES_SUCCESS /\
       bestCost s = 0 /\
       bestSchedLngth s = GetCrntLngth envZero LstSched /\
       bestSched s = (if drops_unimproved envZero then None else Some LstSched) /\
       (drops_unimproved envZero = true -> EvDelete LstSched ∈ events s)) /\
    (EnableEnum_ envZero sg = false ->
       r = RES_FAIL /\
       bestSched s = Some LstSched /\
       bestCost s = bestCost rgn0 /\
       bestSchedLngth s = bestSchedLngth rgn0).
Proof.
  apply (zero_cost_pass_settles envZero rgn0 (reached (PreHeuristic envZero rgn0))).
  - reflexivity.
  - vm_compute. reflexivity.
  - vm_compute. auto.
  - vm_compute. discriminate.
Defined.

(** C1, as stated, fails when the enumeration gate is closed.  The ant
    colony finds a schedule of cost 0 and length 5, which becomes the
    best schedule of the region, and [isLstOptml] is set; the gate closes
    on the heuristic cost of 10, the function returns [RES_FAIL], and the
    caller's cost and length still hold 99. *)
Lemma zero_cost_gate_closed :
  zero_cost_pass envZeroGate (isLstOptml rgnStale) AcoSched /\
  GetCrntLngth envZeroGate AcoSched = 5 /\
  exists s,
    FindOptimalSchedule envZeroGate rgnStale = Return RES_FAIL s /\
    bestSched_ s = Some AcoSched /\ bestCost_ s = 0 /\ isLstOptml s = true /\
    bestCost s = 99 /\ bestSchedLngth s = 99.
Proof.
  split.
  - cbn. split_and!; try reflexivity; try lia; try discriminate.
    intros _. split; [reflexivity|discriminate].
  - split; [reflexivity|]. eexists. split; [vm_compute; reflexivity|].
    split_and!; reflexivity.
Qed.

(** C1, as stated, fails also under the SLIL cost function when only
    improved blocks are kept: the heuristic schedule of cost 0 is the
    best schedule, the function returns [RES_SUCCESS] with cost 0, and
    the schedule is deleted and [bestSched] returned null. *)
Lemma zero_cost_discarded :
  zero_cost_pass envZeroDiscard (isLstOptml rgn0) LstSched /\
  exists s,
    FindOptimalSchedule envZeroDiscard rgn0 = Return RES_SUCCESS s /\
    bestSched_ s = Some LstSched /\ bestCost s = 0 /\
    bestSched s = None /\
    EvDelete LstSched ∈ events s.
Proof.
  split.
  - cbn. split_and!; reflexivity.
  - eexists. split; [vm_compute; reflexivity|].
    split_and!; try reflexivity.
    cbn [events]. repeat constructor.
Qed.





(** C8, as stated, fails for the cost as well: the bounds are persisted
    before the final check of the best schedule.  The enumerator lowers
    the best cost to 6, the upper bound persisted is 7 + 6 = 13, then the
    check rejects the schedule and the cost returned is the initial
    schedule's 10. *)
Lemma final_bounds_before_check :
  exists r sF,
    FindOptimalSchedule envRejected rgn0 = Return r sF /\
    costLwrBound_ sF = 7 /\ bestCost_ sF = 10 /\ bestCost sF = 10 /\
    persisted (events sF) = [(13, 13)].
Proof.
  do 2 eexists. split; [vm_compute; reflexivity|].
  split_and!; reflexivity.
Qed.

(** C8, as stated, fails where the sum leaves the range of [int]: with a
    cost lower bound of 2147483647 and a best cost of 10 the upper bound
    persisted is -2147483639. *)
Lemma final_bounds_wrap :
  exists r sF,
    FindOptimalSchedule envWide rgn0 = Return r sF /\
    costLwrBound_ sF = 2147483647 /\ bestCost_ sF = 10 /\ bestCost sF = 10 /\
    persisted (events sF) = [(-2147483639, -2147483639)].
Proof.
  do 2 eexists. split; [vm_compute; reflexivity|].
  split_and!; reflexivity.
Qed.

(** [gate_closed_returns_fail] on a sample input. *)
Lemma gate_closed_returns_fail_witness :
  exists s',
    FindOptimalSchedule envGate rgn0 = Return RES_FAIL s' /\
    bestCost s' = 0 /\ bestSchedLngth s' = 0 /\
    hurstcCost s' = 0 /\ hurstcSchedLngth s' = 0 /\
    bestSched s' = Some LstSched.
Proof.
  destruct (gate_closed_returns_fail envGate rgn0
              (reached (PreGate envGate rgn0))
              eq_refl ltac:(vm_compute; reflexivity) eq_refl)
    as (s' & H1 & H2 & H3 & H4 & H5 & H6 & _).
  exists s'. split_and!; try assumption.
  vm_compute in H1. injection H1 as <-. reflexivity.
Defined.

(** ** Further properties *)

(** ** More on keys *)
(** X1.  [AddPrirtyToKey_] can be undone: when the key built so far, the
    new field and its value fit their widths, the low [bitCnt] bits of
    the new key hold the value and the bits above them hold the old
    key. *)
Theorem AddPrirtyToKey_unpack (key keySize bitCnt val maxVal : Z) :
  0 <= keySize -> 0 <= key < 2 ^ keySize ->
  0 <= bitCnt -> keySize + bitCnt <= ULONG_BITS ->
  0 <= val <= maxVal -> maxVal < 2 ^ bitCnt ->
  exists key',
    AddPrirtyToKey_ key keySize bitCnt val maxVal = Some (key', keySize + bitCnt) /\
    Z.shiftr key' bitCnt = key /\
    Z.land key' (Z.ones bitCnt) = val /\
    0 <= key' < 2 ^ (keySize + bitCnt).
Proof.
  intros Hks Hk Hb Hw Hv Hm.
  destruct (AddPrirtyToKey_ok key keySize bitCnt val maxVal Hks Hk Hw) as [E B].
  { unfold field_ok. cbn [fst snd]. lia. }
  exists (key * 2 ^ bitCnt + val). split; [exact E|].
  assert (0 < 2 ^ bitCnt) by (apply Z.pow_pos_nonneg; lia).
  split_and!; try lia.
  - rewrite Z.shiftr_div_pow2 by lia.
    rewrite Z.add_comm, Z.div_add by lia.
    rewrite Z.div_small by lia. lia.
  - rewrite Z.land_ones by lia.
    rewrite Z.add_comm, Z.mod_add by lia.
    apply Z.mod_small. lia.
Qed.

(** [AddPrirtyToKey_unpack] on a sample input. *)
Lemma AddPrirtyToKey_unpack_witness :
  exists key',
    AddPrirtyToKey_ 3 2 3 5 6 = Some (key', 2 + 3) /\
    Z.shiftr key' 3 = 3 /\ Z.land key' (Z.ones 3) = 5 /\
    0 <= key' < 2 ^ (2 + 3).
Proof.
  apply (AddPrirtyToKey_unpack 3 2 3 5 6); vm_compute; try split; congruence.
Defined.

Lemma packFrom_is_Some fs : forall acc,
  is_Some (packFrom fs (Some acc)) <-> Forall (fun f => f.1.2 <= f.2) fs.
Proof.
  induction fs as [|[[b v] mx] fs IH]; intros [k ks]; cbn [packFrom].
  - split; [constructor|]. intros _. by eexists.
  - cbn [mbind option_bind fst snd]. unfold AddPrirtyToKey_.
    destruct (Z.leb_spec v mx) as [Hle|Hgt].
    + rewrite IH. split.
      * intros H. constructor; [exact Hle|exact H].
      * intros H. by inversion H.
    + rewrite packFrom_None. split.
      * intros [? ?]. discriminate.
      * intros H. inversion H; subst. cbn [fst snd] in *. lia.
Qed.

Lemma CmputKey_defined (r : ReadyList) (inst : SchedInstruction)
    (isUpdate : bool) :
  is_Some (CmputKey_ r inst isUpdate) <->
  is_Some (packFrom (keyFields r inst (vctr (prirts_ r))) (Some (0, 0))).
Proof.
  rewrite CmputKey_eq.
  destruct (packFrom _ _) as [[k ks]|]; cbn [mbind option_bind]; split;
    intros [x Hx]; try discriminate; by eexists.
Qed.

Lemma keyFields_in_range (r : ReadyList) (inst : SchedInstruction) hs :
  is_Some (packFrom (keyFields r inst hs) (Some (0, 0))) <->
  Forall (fun h => fieldVal r inst h <= to_ulong (fieldMax r h)) hs.
Proof.
  rewrite packFrom_is_Some. unfold keyFields. rewrite Forall_fmap.
  apply Forall_iff. intros h. reflexivity.
Qed.

(** X2.  The [assert] of the key computation: [CmputKey_] returns a key
    exactly when each configured field value, as the [unsigned long] it is
    passed as, is at most the field's maximum. *)
Theorem CmputKey_succeeds_iff (r : ReadyList) (inst : SchedInstruction)
    (isUpdate : bool) :
  is_Some (CmputKey_ r inst isUpdate) <->
  Forall (fun h => fieldVal r inst h <= to_ulong (fieldMax r h))
         (vctr (prirts_ r)).
Proof.
  rewrite CmputKey_defined. apply keyFields_in_range.
Qed.

Lemma packZ_mono fs1 : forall fs2 k1 k2,
  Forall2 (fun f1 f2 : Z * Z * Z => f1.1.1 = f2.1.1 /\ f1.1.2 <= f2.1.2) fs1 fs2 ->
  0 <= k1 <= k2 -> Forall (fun f : Z * Z * Z => 0 <= f.1.2) fs1 ->
  0 <= packZ fs1 k1 <= packZ fs2 k2.
Proof.
  induction fs1 as [|f1 fs1 IH]; intros fs2 k1 k2 H Hk Hpos.
  - inversion H; subst. cbn. lia.
  - inversion H as [|? f2 ? fs2' [Hb Hv] Hrest]; subst.
    inversion Hpos; subst. cbn [packZ].
    apply IH; [exact Hrest| |assumption].
    rewrite Hb.
    assert (0 <= 2 ^ f2.1.1) by (apply Z.pow_nonneg; lia).
    nia.
Qed.

Lemma key_max_fields r inst hs :
  Forall (fun h => fieldVal r inst h <= to_ulong (fieldMax r h)) hs ->
  Forall2 (fun f1 f2 : Z * Z * Z => f1.1.1 = f2.1.1 /\ f1.1.2 <= f2.1.2)
          (keyFields r inst hs) (maxFields r hs).
Proof.
  induction 1 as [|h hs Hh _ IH]; cbn; constructor; auto.
Qed.

Lemma keyFields_nonneg r inst hs :
  Forall (fun f : Z * Z * Z => 0 <= f.1.2) (keyFields r inst hs).
Proof.
  unfold keyFields. rewrite Forall_fmap. apply Forall_true.
  intros h. cbn. apply fieldVal_nonneg.
Qed.

(** What the constructor leaves in [maxPriority_]. *)
Lemma ReadyList_new_maxPriority g p r :
  maxima_ok g (vctr p) -> (length (vctr p) <= 1023)%nat ->
  ReadyList_new g p = Some r ->
  MaxPriority r = packZ (maxFields r (vctr p)) 0.
Proof.
  intros Hm Hlen. unfold ReadyList_new.
  pose proof (ctor_layout g p Hm Hlen) as H. cbn zeta in H.
  destruct (fold_left (ctor_width g) (vctr p) (ReadyList_blank p, 0)) as [r1 t].
  cbn [fst snd] in H. destruct H as (Ht & Hp & _ & _ & Hl).
  destruct (Z.leb_spec t (8 * 8)); [|discriminate].
  rewrite ctor_maxkey_pack.
  pose proof (maxFields_ok g r1 _ Hm Hl) as Hok.
  destruct (packFrom_ok (maxFields r1 (vctr p)) 0 0 Hok ltac:(lia)
              ltac:(simpl; lia)) as [E _].
  { rewrite (widthsOf_maxFields g r1 _ Hl). unfold ULONG_BITS. lia. }
  rewrite E. cbn [mbind option_bind]. intros [= <-].
  reflexivity.
Qed.

(** X3.  No key exceeds [MaxPriority()]: on a list the constructor built,
    every key [CmputKey_] returns lies between 0 and the key of the
    field maxima. *)
Theorem key_le_MaxPriority (g : DataDepGraph) (p : SchedPriorities)
    (r : ReadyList) (inst inst' : SchedInstruction) (isUpdate changed : bool)
    (key : Z) :
  maxima_ok g (vctr p) -> (length (vctr p) <= 1023)%nat ->
  ReadyList_new g p = Some r ->
  CmputKey_ r inst isUpdate = Some (key, changed, inst') ->
  0 <= key <= MaxPriority r.
Proof.
  intros Hm Hlen Hnew Hkey.
  destruct (ReadyList_new_Configured g p r Hm Hlen Hnew) as (Hc & Hp & _).
  rewrite (ReadyList_new_maxPriority g p r Hm Hlen Hnew).
  assert (Hs : is_Some (CmputKey_ r inst isUpdate)) by (by eexists).
  apply CmputKey_defined, keyFields_in_range in Hs.
  destruct (CmputKey_Some_inv g r inst isUpdate key changed inst' Hc Hkey)
    as [_ ->].
  unfold pureKey. rewrite Hp in *.
  apply packZ_mono; [by apply key_max_fields|lia|apply keyFields_nonneg].
Qed.

(** [key_le_MaxPriority] on a sample input. *)
Lemma key_le_MaxPriority_witness :
  0 <= 57 <= MaxPriority wReady.
Proof.
  apply (key_le_MaxPriority wGraph wPrirts wReady wInst0
           (instAfter (vctr wPrirts) wInst0) false true 57).
  - exact wGraph_maxima.
  - simpl. lia.
  - exact wReady_new.
  - vm_compute. reflexivity.
Defined.

(** X4.  The key determines the fields: two instructions with the same
    key have the same value in every configured field. *)
Theorem equal_keys_equal_fields (g : DataDepGraph) (r : ReadyList)
    (a b a' b' : SchedInstruction) (ua ub ca cb : bool) (key : Z) :
  Configured g r ->
  CmputKey_ r a ua = Some (key, ca, a') ->
  CmputKey_ r b ub = Some (key, cb, b') ->
  Forall (fun h => fieldVal r a h = fieldVal r b h) (vctr (prirts_ r)).
Proof.
  intros Hc Ha Hb. pose proof Hc as (Hm & _ & Hl).
  destruct (CmputKey_Some_inv g r a ua key ca a' Hc Ha) as [Fa Ka].
  destruct (CmputKey_Some_inv g r b ub key cb b' Hc Hb) as [Fb Kb].
  pose proof (keyFields_ok g r a _ Hm Hl Fa) as Oa.
  pose proof (keyFields_ok g r b _ Hm Hl Fb) as Ob.
  assert (E : map (fun f : Z * Z * Z => f.1.2) (keyFields r a (vctr (prirts_ r))) =
              map (fun f : Z * Z * Z => f.1.2) (keyFields r b (vctr (prirts_ r)))).
  { apply packZ_inj; [exact Oa|exact Ob| |].
    - unfold keyFields. rewrite <- !list_fmap_compose. reflexivity.
    - unfold pureKey in Ka, Kb. congruence. }
  unfold keyFields in E. rewrite <- !list_fmap_compose in E.
  clear -E. induction (vctr (prirts_ r)) as [|h hs IH]; [constructor|].
  cbn in E. injection E as E1 E2. constructor; [exact E1|by apply IH].
Qed.

(** [equal_keys_equal_fields] on a sample input. *)
Lemma equal_keys_equal_fields_witness :
  Forall (fun h => fieldVal wReady wInst0 h =
                   fieldVal wReady (SchedInst.set_ready true wInst0) h)
         (vctr (prirts_ wReady)).
Proof.
  apply (equal_keys_equal_fields wGraph wReady wInst0
           (SchedInst.set_ready true wInst0)
           (instAfter (vctr wPrirts) wInst0)
           (instAfter (vctr wPrirts) (SchedInst.set_ready true wInst0))
           false true true true 57).
  - exact wReady_Configured.
  - vm_compute. reflexivity.
  - vm_compute. reflexivity.
Defined.

Lemma packZ_app fs1 : forall fs2 k,
  packZ (fs1 ++ fs2) k = packZ fs2 (packZ fs1 k).
Proof. induction fs1 as [|f fs1 IH]; intros; cbn; [reflexivity|apply IH]. Qed.

Lemma keyFields_app r x hs1 hs2 :
  keyFields r x (hs1 ++ hs2) = keyFields r x hs1 ++ keyFields r x hs2.
Proof. unfold keyFields. apply fmap_app. Qed.

Lemma keyFields_agree r a b hs :
  Forall (fun h => fieldVal r a h = fieldVal r b h) hs ->
  keyFields r a hs = keyFields r b hs.
Proof.
  induction 1 as [|h hs Hh _ IH]; [reflexivity|].
  cbn. rewrite Hh. f_equal. exact IH.
Qed.

(** X5.  Keys order instructions lexicographically: the first configured
    criterion on which two instructions differ decides, whatever the
    later criteria hold. *)
Theorem first_difference_decides (g : DataDepGraph) (r : ReadyList)
    (pre post : list LISTSCHED_HEURISTIC) (h : LISTSCHED_HEURISTIC)
    (a b : SchedInstruction) (ua ub : bool) :
  Configured g r ->
  vctr (prirts_ r) = pre ++ h :: post ->
  Forall (fun h' => fieldVal r a h' <= fieldMax r h') (vctr (prirts_ r)) ->
  Forall (fun h' => fieldVal r b h' <= fieldMax r h') (vctr (prirts_ r)) ->
  Forall (fun h' => fieldVal r a h' = fieldVal r b h') pre ->
  fieldVal r b h < fieldVal r a h ->
  exists ka ca a' kb cb b',
    CmputKey_ r a ua = Some (ka, ca, a') /\
    CmputKey_ r b ub = Some (kb, cb, b') /\
    kb < ka.
Proof.
  intros Hc Hv Ha Hb Hpre Hlt. pose proof Hc as (Hm & _ & Hl).
  destruct (CmputKey_packed g r a ua Hc Ha) as [Ea _].
  destruct (CmputKey_packed g r b ub Hc Hb) as [Eb _].
  do 6 eexists. split; [exact Ea|]. split; [exact Eb|].
  pose proof (keyFields_ok g r a _ Hm Hl Ha) as Oa.
  pose proof (keyFields_ok g r b _ Hm Hl Hb) as Ob.
  rewrite Hv in *. rewrite !keyFields_app in *.
  rewrite !packZ_app. rewrite (keyFields_agree r a b pre Hpre).
  apply Forall_app in Oa as [_ Oa]. apply Forall_app in Ob as [Ob0 Ob].
  apply Forall_app in Hl as [_ Hl].
  set (K := packZ (keyFields r b pre) 0).
  assert (HK : 0 <= K) by (apply packZ_0_bound; exact Ob0).
  change (keyFields r a (h :: post)) with
    ((fieldBits r h, fieldVal r a h, to_ulong (fieldMax r h)) :: keyFields r a post) in *.
  change (keyFields r b (h :: post)) with
    ((fieldBits r h, fieldVal r b h, to_ulong (fieldMax r h)) :: keyFields r b post) in *.
  inversion Oa as [|? ? Fa Oa']; subst. inversion Ob as [|? ? Fb Ob']; subst.
  inversion Hl as [|? ? _ Hl']; subst.
  cbn [packZ fst snd].
  rewrite (packZ_split _ _ Oa'), (packZ_split _ _ Ob').
  pose proof (packZ_0_bound _ Oa'). pose proof (packZ_0_bound _ Ob').
  rewrite (widthsOf_keyFields g r a post Hl') in *.
  rewrite (widthsOf_keyFields g r b post Hl') in *.
  pose proof (summedWidths_nonneg g post).
  assert (0 < 2 ^ summedWidths g post) by (apply Z.pow_pos_nonneg; lia).
  nia.
Qed.

(** [first_difference_decides] on a sample input. *)
Lemma first_difference_decides_witness :
  exists ka ca a' kb cb b',
    CmputKey_ wReady wInst0 false = Some (ka, ca, a') /\
    CmputKey_ wReady (mkInst 1 1 3 2 0 1 0 3 1 false) true = Some (kb, cb, b') /\
    kb < ka.
Proof.
  apply (first_difference_decides wGraph wReady [LSH_CP] [LSH_UC] LSH_LUC
           wInst0 (mkInst 1 1 3 2 0 1 0 3 1 false) false true).
  - exact wReady_Configured.
  - reflexivity.
  - repeat constructor; vm_compute; discriminate.
  - repeat constructor; vm_compute; discriminate.
  - repeat constructor.
  - vm_compute. reflexivity.
Defined.

(** ** More on the ready list operations *)
Lemma store_same i x g : insts_ g !! i = Some x -> DDG.store i x g = g.
Proof.
  intros H. destruct g as [l a b c d f]. unfold DDG.store, DDG.set_insts.
  cbn in *. by rewrite (list_insert_id l i x H).
Qed.

Lemma set_prirtyLst_same r : RL.set_prirtyLst (prirtyLst_ r) r = r.
Proof. by destruct r. Qed.

Lemma World_eta w : mkWorld (ddg w) (rdy w) = w.
Proof. by destruct w. Qed.

Lemma queued_true g i :
  queued g i = true <-> exists x, insts_ g !! i = Some x /\ ready_ x = true.
Proof.
  unfold queued. destruct (insts_ g !! i) as [x|]; split.
  - intros H. by exists x.
  - by intros (y & [= <-] & H).
  - discriminate.
  - by intros (y & ? & _).
Qed.

(** *** [RemoveLatestSubList], read backwards *)
Lemma RemoveLatestSubList_loop_inv todo : forall g g',
  RemoveLatestSubList_loop todo g = Some g' ->
  length (insts_ g') = length (insts_ g) /\
  (forall j, queued g' j = queued g j && negb (bool_decide (j ∈ todo))).
Proof.
  induction todo as [|i rest IH]; intros g g' H; cbn in H.
  - injection H as <-. split; [reflexivity|]. intros j.
    rewrite bool_decide_elem_nil. by rewrite andb_true_r.
  - unfold DDG.GetInstByIndx in H.
    destruct (insts_ g !! i) as [x|] eqn:Hx; [|discriminate].
    cbn in H. unfold SchedInst.IsInReadyList in H.
    destruct (ready_ x) eqn:Hr; [|discriminate].
    apply IH in H as [Hlen Hq].
    rewrite length_store in Hlen. split; [exact Hlen|].
    intros j. rewrite Hq, bool_decide_elem_cons.
    rewrite queued_store by (by eapply lookup_lt_Some).
    destruct (decide (j = i)) as [->|Hne].
    + rewrite Nat.eqb_refl. cbn. by rewrite andb_false_r.
    + apply Nat.eqb_neq in Hne. rewrite Hne. cbn. reflexivity.
Qed.

(** X6.  [RemoveLatestSubList] leaves the list unusable until it is
    reset: after a removal that found recorded instructions, a second
    removal meets the first recorded instruction with its flag clear and
    fails its [assert], and every [AddLatestSubLists] fails its [assert]
    because the record is still there. *)
Theorem RemoveLatestSubList_not_repeatable (w w1 : World) :
  latestSubLst_ (rdy w) <> [] ->
  RemoveLatestSubList w = Some w1 ->
  RemoveLatestSubList w1 = None /\
  forall l1 l2, AddLatestSubLists l1 l2 w1 = None.
Proof.
  intros Hne H. unfold RemoveLatestSubList in *.
  destruct (RemoveLatestSubList_loop _ (ddg w)) as [g|] eqn:E; [|discriminate].
  cbn in H. injection H as <-. cbn [rdy ddg]. split.
  2: { intros l1 l2. unfold AddLatestSubLists. cbn [rdy].
       by rewrite bool_decide_false. }
  destruct (latestSubLst_ (rdy w)) as [|i rest]; [done|].
  destruct (RemoveLatestSubList_loop_inv _ _ _ E) as [Hlen Hq].
  specialize (Hq i). rewrite bool_decide_elem_cons, Nat.eqb_refl in Hq.
  cbn in Hq. rewrite andb_false_r in Hq.
  cbn in E. unfold DDG.GetInstByIndx in E.
  destruct (insts_ (ddg w) !! i) as [x|] eqn:Hx; [|discriminate].
  apply lookup_lt_Some in Hx. rewrite <- Hlen in Hx.
  apply lookup_lt_is_Some in Hx as [y Hy].
  cbn. unfold DDG.GetInstByIndx. rewrite Hy. cbn.
  unfold queued in Hq. rewrite Hy in Hq.
  unfold SchedInst.IsInReadyList. by rewrite Hq.
Qed.

(** [RemoveLatestSubList_not_repeatable] on a sample input. *)
Lemma RemoveLatestSubList_not_repeatable_witness :
  RemoveLatestSubList (default wWorld (RemoveLatestSubList wAdded)) = None /\
  forall l1 l2,
    AddLatestSubLists l1 l2 (default wWorld (RemoveLatestSubList wAdded)) = None.
Proof.
  apply (RemoveLatestSubList_not_repeatable wAdded).
  - vm_compute. discriminate.
  - vm_compute. reflexivity.
Defined.

(** *** Scanning a list a second time *)
Lemma AddLatestSubList_loop_again todo w w' w2 :
  AddLatestSubList_loop todo w = Some w' ->
  (forall j, queued (ddg w') j = true -> queued (ddg w2) j = true) ->
  AddLatestSubList_loop todo w2 = Some w2.
Proof.
  intros H Hq. destruct todo as [|i rest]; [reflexivity|].
  pose proof (AddLatestSubList_loop_inv _ _ _ H) as (_ & _ & _ & Hflag & _).
  rewrite AddLatestSubList_loop_cons in H.
  destruct (insts_ (ddg w) !! i) as [x|] eqn:Hx; [|discriminate].
  assert (Hi : queued (ddg w') i = true).
  { rewrite Hflag. cbn [scanned].
    destruct (queued (ddg w) i); [reflexivity|].
    cbn. apply bool_decide_eq_true. apply elem_of_cons. by left. }
  apply Hq, queued_true in Hi as (y & Hy & Hr).
  rewrite AddLatestSubList_loop_cons, Hy, Hr. reflexivity.
Qed.

Lemma AddLatestSubList_loop_flags_grow todo w w' j :
  AddLatestSubList_loop todo w = Some w' ->
  queued (ddg w) j = true -> queued (ddg w') j = true.
Proof.
  intros H Hj.
  pose proof (AddLatestSubList_loop_inv _ _ _ H) as (_ & _ & _ & Hflag & _).
  by rewrite Hflag, Hj.
Qed.

(** X7.  [Reset] empties the queue and the record but leaves the
    ready-queued flags set: announcing the same lists again after a
    [Reset] adds nothing, and the queue stays empty. *)
Theorem Reset_keeps_flags (lst1 lst2 : option (list nat)) (w w1 : World) :
  AddLatestSubLists lst1 lst2 w = Some w1 ->
  flags (ddg (Reset w1)) = flags (ddg w1) /\
  GetInstCnt (Reset w1) = 0 /\
  AddLatestSubLists lst1 lst2 (Reset w1) = Some (Reset w1).
Proof.
  intros H. split; [reflexivity|]. split; [reflexivity|].
  unfold AddLatestSubLists in *.
  destruct (bool_decide (latestSubLst_ (rdy w) = [])); [|discriminate].
  rewrite bool_decide_true by reflexivity.
  rewrite !AddLatestSubList_opt in *.
  destruct (AddLatestSubList_loop (rev (default [] lst1)) w) as [wa|] eqn:E1;
    [|discriminate].
  cbn [mbind option_bind] in *. rewrite AddLatestSubList_opt in H.
  rewrite (AddLatestSubList_loop_again _ w wa (Reset w1) E1).
  - cbn [mbind option_bind]. rewrite AddLatestSubList_opt.
    apply (AddLatestSubList_loop_again _ wa w1 (Reset w1) H). auto.
  - intros j Hj. cbn [Reset ddg].
    by eapply AddLatestSubList_loop_flags_grow.
Qed.

(** [Reset_keeps_flags] on a sample input. *)
Lemma Reset_keeps_flags_witness :
  flags (ddg (Reset wAdded)) = flags (ddg wAdded) /\
  GetInstCnt (Reset wAdded) = 0 /\
  AddLatestSubLists (Some [0%nat; 1%nat]) (Some [2%nat]) (Reset wAdded) =
    Some (Reset wAdded).
Proof.
  apply (Reset_keeps_flags (Some [0%nat; 1%nat]) (Some [2%nat]) wWorld).
  vm_compute. reflexivity.
Defined.

(** *** [AddList] *)
Lemma flags_store g i x y :
  insts_ g !! i = Some x -> ready_ y = ready_ x ->
  flags (DDG.store i y g) = flags g.
Proof.
  intros Hx Hr. apply flags_ext; [apply length_store|].
  intros j. rewrite queued_store by (by eapply lookup_lt_Some).
  destruct (decide (j = i)) as [->|]; [|reflexivity].
  unfold queued. by rewrite Hx.
Qed.

Lemma length_InsrtElmnt e k l :
  length (PriorityArrayList.InsrtElmnt e k l) = S (length l).
Proof. by rewrite (Permutation_length (InsrtElmnt_perm e k l)). Qed.

Lemma AddInst_effect i w w' :
  AddInst i w = Some w' ->
  GetInstCnt w' = GetInstCnt w + 1 /\
  flags (ddg w') = flags (ddg w) /\
  latestSubLst_ (rdy w') = latestSubLst_ (rdy w).
Proof.
  intros H. apply AddInst_inv in H as (x & key & Hx & _ & Hg & Hr).
  unfold GetInstCnt, PriorityArrayList.GetElmntCnt. rewrite Hg, Hr.
  cbn [RL.set_prirtyLst prirtyLst_ latestSubLst_].
  rewrite length_InsrtElmnt. split_and!; [lia| |reflexivity].
  apply (flags_store _ _ x); [exact Hx|apply instAfter_ready].
Qed.

(** X8.  [AddList] queues every listed instruction, one entry per
    element, without looking at or setting a ready-queued flag and
    without recording anything in the latest sublist; a null list adds
    nothing. *)
Theorem AddList_adds_all (lst : option (list nat)) (w w' : World) :
  AddList lst w = Some w' ->
  GetInstCnt w' = GetInstCnt w + Z.of_nat (length (default [] lst)) /\
  flags (ddg w') = flags (ddg w) /\
  latestSubLst_ (rdy w') = latestSubLst_ (rdy w).
Proof.
  destruct lst as [l|]; cbn [AddList default].
  2: { intros [= <-]. cbn. split_and!; [lia|reflexivity|reflexivity]. }
  revert w. induction l as [|i rest IH]; intros w H; cbn in H.
  - injection H as <-. cbn. split_and!; [lia|reflexivity|reflexivity].
  - destruct (AddInst i w) as [w1|] eqn:E; [|discriminate]. cbn in H.
    apply AddInst_effect in E as (E1 & E2 & E3).
    apply IH in H as (H1 & H2 & H3).
    rewrite H1, H2, H3, E1, E2, E3. cbn [default from_option id length].
    split_and!; [lia|reflexivity|reflexivity].
Qed.

(** [AddList_adds_all] on a sample input. *)
Lemma AddList_adds_all_witness :
  GetInstCnt (default wWorld (AddList (Some [0%nat; 0%nat; 2%nat]) wHalf)) =
    GetInstCnt wHalf + 3 /\
  flags (ddg (default wWorld (AddList (Some [0%nat; 0%nat; 2%nat]) wHalf))) =
    flags (ddg wHalf).
Proof.
  destruct (AddList_adds_all (Some [0%nat; 0%nat; 2%nat]) wHalf
              (default wWorld (AddList (Some [0%nat; 0%nat; 2%nat]) wHalf))
              ltac:(vm_compute; reflexivity)) as (H1 & H2 & _).
  split; [exact H1|exact H2].
Defined.

(** X9.  [AddLatestSubLists] keeps the queue consistent with the flags:
    on a graph indexed by instruction number, if every queue entry is
    flagged before the call then every entry is flagged after it, the
    entries added are exactly the recorded instructions, and the entry
    count grows by the number recorded. *)
Theorem AddLatestSubLists_keeps_entries_flagged
    (lst1 lst2 : option (list nat)) (w w1 : World) :
  numbered (ddg w) -> entries_flagged w ->
  AddLatestSubLists lst1 lst2 w = Some w1 ->
  entries_flagged w1 /\
  map fst (prirtyLst_ (rdy w1)) ≡ₚ
    latestSubLst_ (rdy w1) ++ map fst (prirtyLst_ (rdy w)) /\
  GetInstCnt w1 = GetInstCnt w + Z.of_nat (length (latestSubLst_ (rdy w1))).
Proof.
  intros Hn Hf H. unfold AddLatestSubLists in H.
  destruct (bool_decide (latestSubLst_ (rdy w) = [])) eqn:He; [|discriminate].
  apply bool_decide_eq_true in He.
  rewrite !AddLatestSubList_opt in H.
  destruct (AddLatestSubList_loop (rev (default [] lst1)) w) as [wa|] eqn:E1;
    [|discriminate].
  cbn [mbind option_bind] in H. rewrite AddLatestSubList_opt in H.
  pose proof (AddLatestSubList_loop_inv _ _ _ E1) as (_ & _ & L1 & _ & _ & N1 & _).
  destruct (N1 Hn) as [Hna P1].
  pose proof (AddLatestSubList_loop_inv _ _ _ H) as (_ & _ & L2 & _ & _ & N2 & _).
  destruct (N2 Hna) as [_ P2].
  pose proof (entries_flagged_scan _ _ _ Hn Hf E1) as Hfa.
  pose proof (entries_flagged_scan _ _ _ Hna Hfa H) as Hf1.
  rewrite He in L1. cbn [app] in L1.
  assert (P : map fst (prirtyLst_ (rdy w1)) ≡ₚ
              latestSubLst_ (rdy w1) ++ map fst (prirtyLst_ (rdy w))).
  { rewrite P2, P1, L2, L1.
    rewrite !app_assoc. apply Permutation_app_tail, Permutation_app_comm. }
  split; [exact Hf1|]. split; [exact P|].
  unfold GetInstCnt, PriorityArrayList.GetElmntCnt.
  apply Permutation_length in P.
  rewrite length_app, !length_map in P. lia.
Qed.

Lemma wWorld_numbered : numbered (ddg wWorld).
Proof.
  intros i x H. destruct i as [|[|[|i]]]; cbn in H;
    try (injection H as <-; reflexivity); discriminate.
Qed.

(** [AddLatestSubLists_keeps_entries_flagged] on a sample input. *)
Lemma AddLatestSubLists_keeps_entries_flagged_witness :
  entries_flagged wAdded /\
  GetInstCnt wAdded = GetInstCnt wWorld + Z.of_nat (length (latestSubLst_ (rdy wAdded))).
Proof.
  destruct (AddLatestSubLists_keeps_entries_flagged
              (Some [0%nat; 1%nat]) (Some [2%nat]) wWorld wAdded
              wWorld_numbered) as (H1 & _ & H3).
  - intros e He. vm_compute in He. by apply elem_of_nil in He.
  - vm_compute. reflexivity.
  - split; [exact H1|exact H3].
Defined.

(** *** [UpdatePriorities] on a list that needs no update *)
Lemma hasLUC_false hs : hasLUC hs = false <-> LSH_LUC ∉ hs.
Proof.
  unfold hasLUC. induction hs as [|h hs IH]; cbn.
  - split; [intros _; apply not_elem_of_nil|reflexivity].
  - rewrite orb_false_iff, IH, not_elem_of_cons.
    destruct h; cbn; split; intros [? ?]; split; auto; try discriminate; done.
Qed.

Lemma instAfter_idem hs x : instAfter hs (instAfter hs x) = instAfter hs x.
Proof.
  unfold instAfter. destruct (hasLUC hs); [|reflexivity].
  apply CmputLastUseCnt_idem.
Qed.

Lemma chg_instAfter r x : chg r (instAfter (vctr (prirts_ r)) x) = false.
Proof.
  unfold chg, instAfter. destruct (hasLUC _); [|reflexivity].
  cbn. apply lucChanged_recomputed.
Qed.

Lemma UpdatePriorities_loop_stable todo w :
  keys_ok (ddg w) (rdy w) ->
  Forall (up_to_date w) todo ->
  UpdatePriorities_loop todo w = Some w.
Proof.
  intros [Hc Hk] H. induction H as [|n rest (x & Hx & Ha & Hg) _ IH];
    [reflexivity|].
  rewrite (UpdatePriorities_loop_cons n rest w x Hx Hc).
  - rewrite Ha, (store_same _ _ _ Hx).
    unfold boostIf, chgAt. rewrite Hx, Hg.
    rewrite set_prirtyLst_same, World_eta. exact IH.
  - rewrite Forall_forall in Hk. apply Hk.
    by eapply list_elem_of_lookup_2.
Qed.

(** X10.  The [changed] flag only watches [LSH_LUC]: when the scheme
    does not configure it, [UpdatePriorities] recomputes every key and
    changes nothing, neither the queue nor an instruction. *)
Theorem UpdatePriorities_without_LUC (w : World) :
  isDynmc (prirts_ (rdy w)) = true ->
  LSH_LUC ∉ vctr (prirts_ (rdy w)) ->
  keys_ok (ddg w) (rdy w) ->
  Forall (fun n => (n < length (insts_ (ddg w)))%nat)
         (map fst (prirtyLst_ (rdy w))) ->
  UpdatePriorities w = Some w.
Proof.
  intros Hd Hl Hk Hr. unfold UpdatePriorities. rewrite Hd.
  apply hasLUC_false in Hl.
  apply UpdatePriorities_loop_stable; [exact Hk|].
  eapply Forall_impl; [exact Hr|]. intros n Hn.
  apply lookup_lt_is_Some in Hn as [x Hx]. exists x.
  split; [exact Hx|]. unfold instAfter, chg. by rewrite Hl.
Qed.

Lemma wStatic_keys_ok : keys_ok (ddg wStatic) (rdy wStatic).
Proof.
  split.
  - split_and!.
    + repeat constructor; vm_compute; congruence.
    + vm_compute. congruence.
    + repeat constructor.
  - repeat constructor; vm_compute; congruence.
Qed.

(** [UpdatePriorities_without_LUC] on a sample input. *)
Lemma UpdatePriorities_without_LUC_witness :
  UpdatePriorities wStatic = Some wStatic.
Proof.
  apply (UpdatePriorities_without_LUC wStatic eq_refl).
  - apply hasLUC_false. reflexivity.
  - exact wStatic_keys_ok.
  - repeat constructor.
Defined.

Lemma elem_of_RmvElmnt_inv n l (e : nat * Z) :
  e ∈ PriorityArrayList.RmvElmnt n l -> e ∈ l.
Proof.
  induction l as [|[m k] l IH]; cbn; [done|].
  destruct (Nat.eqb m n).
  - intros H. by apply elem_of_cons; right.
  - rewrite !elem_of_cons. intros [->|H]; [by left|right; by apply IH].
Qed.

Lemma elem_of_BoostElmnt_inv n k l (e : nat * Z) :
  e ∈ PriorityArrayList.BoostElmnt n k l -> e.1 = n \/ e ∈ l.
Proof.
  unfold PriorityArrayList.BoostElmnt. rewrite elem_of_InsrtElmnt.
  intros [->|H]; [by left|right; by eapply elem_of_RmvElmnt_inv].
Qed.

(** What one pass of the update loop leaves. *)
Lemma UpdatePriorities_loop_inv todo : forall w w1,
  keys_ok (ddg w) (rdy w) ->
  UpdatePriorities_loop todo w = Some w1 ->
  same_config (rdy w) (rdy w1) /\
  keys_ok (ddg w1) (rdy w1) /\
  Forall (fun n => is_Some (insts_ (ddg w) !! n)) todo /\
  (forall n x, insts_ (ddg w) !! n = Some x ->
     insts_ (ddg w1) !! n =
       Some (if bool_decide (n ∈ todo)
             then instAfter (vctr (prirts_ (rdy w))) x else x)) /\
  (forall e, e ∈ prirtyLst_ (rdy w1) -> e.1 ∈ todo \/ e ∈ prirtyLst_ (rdy w)).
Proof.
  induction todo as [|n rest IH]; intros w w1 Hk H.
  - cbn in H. injection H as <-. split_and!; auto.
    + apply same_config_refl.
  - assert (Hx : is_Some (insts_ (ddg w) !! n)).
    { cbn in H. unfold DDG.GetInstByIndx in H.
      destruct (insts_ (ddg w) !! n); [by eexists|discriminate]. }
    destruct Hx as [x Hx]. pose proof Hk as [Hc Hf].
    assert (Hin : Forall (fun h => fieldVal (rdy w) x h <= fieldMax (rdy w) h)
                         (vctr (prirts_ (rdy w)))).
    { rewrite Forall_forall in Hf. apply Hf. by eapply list_elem_of_lookup_2. }
    rewrite (UpdatePriorities_loop_cons n rest w x Hx Hc Hin) in H.
    set (hs := vctr (prirts_ (rdy w))) in *.
    set (w' := mkWorld (DDG.store n (instAfter hs x) (ddg w))
                       (RL.set_prirtyLst (boostIf w (prirtyLst_ (rdy w)) n) (rdy w))) in *.
    assert (Hk' : keys_ok (ddg w') (rdy w')).
    { apply (keys_ok_same_config _ (rdy w)); [apply same_config_prirtyLst|].
      apply (keys_ok_store _ _ _ x); [exact Hx| |exact Hk].
      intros h. apply instAfter_fieldVal. }
    destruct (IH w' w1 Hk' H) as (S1 & K1 & F1 & I1 & E1).
    split_and!.
    + eapply same_config_trans; [|exact S1]. apply same_config_prirtyLst.
    + exact K1.
    + constructor; [by eexists|].
      eapply Forall_impl; [exact F1|]. intros m [y Hy].
      apply lookup_lt_Some in Hy. cbn [w' ddg] in Hy.
      rewrite length_store in Hy. by apply lookup_lt_is_Some.
    + intros m y Hy. rewrite bool_decide_elem_cons.
      destruct (decide (m = n)) as [->|Hne].
      * rewrite Nat.eqb_refl. cbn [orb].
        rewrite Hx in Hy. injection Hy as <-.
        assert (Hs : insts_ (ddg w') !! n = Some (instAfter hs x)).
        { cbn [w' ddg]. unfold DDG.store, DDG.set_insts. cbn [insts_].
          apply list_lookup_insert_eq. by eapply lookup_lt_Some. }
        rewrite (I1 n _ Hs). cbn [w' rdy RL.set_prirtyLst prirts_].
        fold hs. rewrite instAfter_idem. by destruct (bool_decide _).
      * assert (Hs : insts_ (ddg w') !! m = Some y).
        { cbn [w' ddg]. unfold DDG.store, DDG.set_insts. cbn [insts_].
          rewrite list_lookup_insert_ne by done. exact Hy. }
        rewrite (I1 m _ Hs). apply Nat.eqb_neq in Hne. rewrite Hne. cbn [orb].
        reflexivity.
    + intros e He. destruct (E1 e He) as [Hr|Hr].
      * left. apply elem_of_cons. by right.
      * cbn [w' rdy RL.set_prirtyLst prirtyLst_] in Hr.
        unfold boostIf in Hr. destruct (chgAt w n); [|by right].
        apply elem_of_BoostElmnt_inv in Hr as [Hr|Hr]; [|by right].
        left. apply elem_of_cons. by left.
Qed.

(** X11.  [UpdatePriorities] is idempotent: a second call right after a
    successful one finds every stored last-use count up to date and
    changes nothing. *)
Theorem UpdatePriorities_idempotent (w w1 : World) :
  keys_ok (ddg w) (rdy w) ->
  UpdatePriorities w = Some w1 ->
  UpdatePriorities w1 = Some w1.
Proof.
  intros Hk H. unfold UpdatePriorities in *.
  destruct (isDynmc (prirts_ (rdy w))) eqn:Hd; [|discriminate].
  destruct (UpdatePriorities_loop_inv _ _ _ Hk H) as (S1 & K1 & F1 & I1 & E1).
  destruct S1 as [Hp Hcfg]. rewrite Hp, Hd.
  apply UpdatePriorities_loop_stable; [exact K1|].
  rewrite Forall_forall. intros n Hn.
  apply list_elem_of_fmap in Hn as (e & -> & He).
  assert (Hin : e.1 ∈ map fst (prirtyLst_ (rdy w))).
  { destruct (E1 e He) as [Hr|Hr]; [exact Hr|].
    apply list_elem_of_fmap. by exists e. }
  rewrite Forall_forall in F1. destruct (F1 _ Hin) as [x Hx].
  exists (instAfter (vctr (prirts_ (rdy w))) x).
  rewrite (I1 _ _ Hx), bool_decide_true by exact Hin.
  rewrite Hp. split_and!; [reflexivity|apply instAfter_idem|].
  rewrite <- Hp. apply chg_instAfter.
Qed.

(** [UpdatePriorities_idempotent] on a sample input. *)
Lemma UpdatePriorities_idempotent_witness :
  UpdatePriorities (default wDyn (UpdatePriorities wDyn)) =
    Some (default wDyn (UpdatePriorities wDyn)).
Proof.
  apply (UpdatePriorities_idempotent wDyn).
  - exact wDyn_keys_ok.
  - vm_compute. reflexivity.
Defined.

Lemma post_bind (Q Q' : Rgn -> Prop) R o k :
  post Q R o -> (forall s, Q s -> post Q' R (k s)) -> post Q' R (o >>> k).
Proof. destruct o; cbn; auto. Qed.

Lemma post_returns Q R o r s : post Q R o -> o = Return r s -> R r s.
Proof. intros H ->. exact H. Qed.

Lemma post_impl (Q Q' : Rgn -> Prop) (R R' : FUNC_RESULT -> Rgn -> Prop) o :
  post Q R o -> (forall s, Q s -> Q' s) -> (forall r s, R r s -> R' r s) ->
  post Q' R' o.
Proof. destruct o; cbn; auto. Qed.

(** Case analysis on the tests of a step, in the goal. *)
Ltac goal_cases :=
  repeat match goal with
         | |- context [if ?c then _ else _] => destruct c eqn:?
         | |- context [match ?c with Some _ => _ | None => _ end] =>
             destruct c eqn:?
         end.

(** Reduce the projections of a state given by its fields. *)
Ltac rproj :=
  cbn [isLstOptml bestCost bestSchedLngth hurstcCost hurstcSchedLngth
       bestSched bestSched_ bestCost_ bestSchedLngth_ hurstcCost_
       enumCrntSched_ enumBestSched_ schedLwrBound_ schedUprBound_
       costLwrBound_ lstSchdulr lstSched AcoSchedule heuristicScheduleLength
       AcoScheduleLength_ AcoScheduleCost_ rslt AcoBeforeEnum AcoAfterEnum
       InitialSchedule InitialScheduleCost InitialScheduleLength events].

Lemma andThen_Go_eq s k : Go s >>> k = k s.
Proof. reflexivity. Qed.

Lemma andThen_Abort k : Abort >>> k = Abort.
Proof. reflexivity. Qed.

Lemma andThen_Return r s k : Return r s >>> k = Return r s.
Proof. reflexivity. Qed.

(** *** The configuration check *)
(** X12.  With the heuristic scheduler disabled and no ant colony before
    the search, [FindOptimalSchedule] returns [RES_ERROR] at once: no
    collaborator is called, [bestSched] is null and the other reference
    parameters hold the caller's values. *)
Theorem no_scheduler_configured (e : Env) (s0 : Rgn) :
  HEUR_ENABLED e = false ->
  ACO_ENABLED e && ACO_BEFORE_ENUM e = false ->
  exists s,
    FindOptimalSchedule e s0 = Return RES_ERROR s /\
    events s = events s0 /\
    bestSched s = None /\
    isLstOptml s = isLstOptml s0 /\
    bestCost s = bestCost s0 /\
    bestSchedLngth s = bestSchedLngth s0 /\
    hurstcCost s = hurstcCost s0 /\
    hurstcSchedLngth s = hurstcSchedLngth s0.
Proof.
  intros Hh Ha.
  unfold FindOptimalSchedule, PreBounds, PreGate, PreIncumbent, PreHeuristic,
    Step_Entry.
  rewrite Hh.
  assert (E : (if ACO_ENABLED e then ACO_BEFORE_ENUM e else false) = false)
    by (destruct (ACO_ENABLED e); [exact Ha|reflexivity]).
  rewrite E. cbn [negb andb andThen].
  eexists. split; [reflexivity|]. cbn. split_and!; reflexivity.
Qed.

Lemma list_find_cons {A} (P : A -> Prop) `{!forall x, Decision (P x)} x l :
  list_find P (x :: l) =
  if decide (P x) then Some (0%nat, x) else prod_map S id <$> list_find P l.
Proof. reflexivity. Qed.

Lemma ApplyGraphTrans_fails e gts : forall i s k c,
  list_find failed (trans_calls e i gts) = Some (k, c) ->
  exists s',
    ApplyGraphTrans e i gts s = Return c.2 s' /\
    events s' = events s ++ (take (S k) (trans_calls e i gts)).*1.
Proof.
  induction gts as [|[a u] gts IH]; intros i s k c H; [discriminate|].
  cbn [trans_calls] in H. cbn [ApplyGraphTrans].
  rewrite list_find_cons in H.
  destruct (decide (failed (EvApplyTrans i, a))) as [Fa|Fa].
  { injection H as <- <-. unfold failed in Fa. cbn [snd] in *. rewrite Fa.
    cbn [negb]. eexists. split; [reflexivity|]. reflexivity. }
  unfold failed in Fa. cbn [snd] in Fa. apply not_false_is_true in Fa.
  rewrite Fa. cbn [negb].
  destruct (list_find failed _) as [[k1 c1]|] eqn:E1 in H; [|discriminate].
  cbn in H. injection H as <- <-.
  rewrite list_find_cons in E1.
  destruct (decide (failed (EvUpdateSetupForSchdulng (needTransitiveClosure e), u)))
    as [Fu|Fu].
  { injection E1 as <- <-. unfold failed in Fu. cbn [snd] in *. rewrite Fu.
    cbn [negb]. eexists. split; [reflexivity|].
    cbn. by rewrite <- app_assoc. }
  unfold failed in Fu. cbn [snd] in Fu. apply not_false_is_true in Fu.
  rewrite Fu. cbn [negb].
  destruct (list_find failed _) as [[k2 c2]|] eqn:E2 in E1; [|discriminate].
  cbn in E1. injection E1 as <- <-.
  destruct (IH (S i) (log (EvUpdateSetupForSchdulng (needTransitiveClosure e))
                        (set_rslt u (log (EvApplyTrans i) (set_rslt a s))))
               k2 c2 E2) as (s' & R & Ev).
  exists s'. split; [exact R|]. rewrite Ev. cbn. by rewrite <- !app_assoc.
Qed.

(** X13.  When a setup call reports a failure
    ([SetupForSchdulng], a transformation's [ApplyTrans] or the
    [UpdateSetupForSchdulng] after it), [FindOptimalSchedule] returns the
    first such result right after that call: the calls made are the
    setup calls up to the failing one, and nothing else. *)
Theorem setup_failure_returns (e : Env) (s0 : Rgn) (k : nat)
    (c : Event * FUNC_RESULT) :
  HEUR_ENABLED e || (ACO_ENABLED e && ACO_BEFORE_ENUM e) = true ->
  list_find failed (setup_calls e) = Some (k, c) ->
  exists s,
    FindOptimalSchedule e s0 = Return c.2 s /\
    events s = events s0 ++ (take (S k) (setup_calls e)).*1.
Proof.
  intros Hcfg H.
  unfold FindOptimalSchedule, PreBounds, PreGate, PreIncumbent, PreHeuristic,
    Step_Entry.
  assert (E : negb (HEUR_ENABLED e) &&
              negb (if ACO_ENABLED e then ACO_BEFORE_ENUM e else false) = false).
  { destruct (HEUR_ENABLED e), (ACO_ENABLED e), (ACO_BEFORE_ENUM e);
      try reflexivity; discriminate. }
  rewrite E. cbn [andThen]. unfold Step_Setup.
  unfold setup_calls in H. rewrite list_find_cons in H.
  destruct (decide (failed _)) as [F|F] in H.
  { injection H as <- <-. unfold failed in F. cbn [snd] in *. rewrite F.
    cbn [negb andThen]. eexists. split; [reflexivity|]. reflexivity. }
  unfold failed in F. cbn [snd] in F. apply not_false_is_true in F.
  rewrite F. cbn [negb].
  destruct (list_find failed _) as [[k1 c1]|] eqn:E1 in H; [|discriminate].
  cbn in H. injection H as <- <-.
  match goal with
  | |- context [ApplyGraphTrans e 0 (GraphTrans e) ?s] =>
      destruct (ApplyGraphTrans_fails e (GraphTrans e) 0 s k1 c1 E1)
        as (s' & R & Ev)
  end.
  rewrite R. cbn [andThen]. exists s'. split; [reflexivity|].
  rewrite Ev. cbn. by rewrite <- app_assoc.
Qed.

Lemma keeps_bind K f g :
  keeps K f -> keeps K g -> keeps K (fun s => f s >>> g).
Proof.
  intros Hf Hg s Hs. eapply post_bind; [apply Hf, Hs|]. intros s' Hs'.
  apply Hg, Hs'.
Qed.

Ltac keeps_tac :=
  cbn; goal_cases; cbn [post]; cbn;
  repeat (apply Forall_snoc; [|first [exact I|solve [auto]]]);
  first [assumption|exact I].

Section Keeps.

Context (K : Event -> Prop) (e : Env).

Lemma keeps_Step_Entry : keeps K (Step_Entry e).
Proof. intros s H. unfold Step_Entry. keeps_tac. Qed.

Lemma keeps_ApplyGraphTrans gts :
  (forall i, K (EvApplyTrans i)) ->
  (forall b, K (EvUpdateSetupForSchdulng b)) ->
  forall i, keeps K (ApplyGraphTrans e i gts).
Proof.
  intros Ka Ku. induction gts as [|[a u] gts IH]; intros i s H.
  - exact H.
  - cbn [ApplyGraphTrans].
    assert (H1 : Forall K (events (log (EvApplyTrans i) (set_rslt a s))))
      by (cbn; apply Forall_snoc; auto).
    destruct (negb (is_success a)); [exact H1|].
    assert (H2 : Forall K (events (log (EvUpdateSetupForSchdulng
                                          (needTransitiveClosure e))
                                     (set_rslt u (log (EvApplyTrans i)
                                                    (set_rslt a s))))))
      by (cbn; apply Forall_snoc; auto).
    destruct (negb (is_success u)); [exact H2|].
    apply IH, H2.
Qed.

Lemma keeps_Step_Setup :
  (forall b, K (EvSetupForSchdulng b)) ->
  (forall i, K (EvApplyTrans i)) ->
  (forall b, K (EvUpdateSetupForSchdulng b)) ->
  keeps K (Step_Setup e).
Proof.
  intros Ks Ka Ku s H. unfold Step_Setup.
  assert (H1 : Forall K (events (log (EvSetupForSchdulng (needTransitiveClosure e))
                                     (set_rslt (SetupForSchdulng e) s))))
    by (cbn; apply Forall_snoc; auto).
  destruct (negb _); [exact H1|].
  eapply post_bind; [by apply keeps_ApplyGraphTrans|].
  intros s' Hs'. exact Hs'.
Qed.

Lemma keeps_Step_LwrBounds : keeps K (Step_LwrBounds e).
Proof. intros s H. unfold Step_LwrBounds, CmputLwrBounds_. keeps_tac. Qed.

Lemma keeps_Step_Heuristic :
  K EvListSched -> K EvFinishHurstc -> K EvDeleteLstSchdulr ->
  keeps K (Step_Heuristic e).
Proof. intros K1 K2 K3 s H. unfold Step_Heuristic. keeps_tac. Qed.

Lemma keeps_delete_sched q s :
  (forall o, K (EvDelete o)) ->
  Forall K (events s) -> Forall K (events (delete_sched q s)).
Proof. intros Kd H. destruct q; cbn; [apply Forall_snoc; auto|exact H]. Qed.

Lemma keeps_delete_lstSchdulr s :
  K EvDeleteLstSchdulr ->
  Forall K (events s) -> Forall K (events (delete_lstSchdulr s)).
Proof.
  intros Kd H. unfold delete_lstSchdulr.
  destruct (lstSchdulr s); cbn; [apply Forall_snoc; auto|exact H].
Qed.

Lemma keeps_Step_AcoBefore :
  (forall i, K (EvRunACO AcoSched i)) -> K EvDeleteLstSchdulr ->
  (forall o, K (EvDelete o)) ->
  keeps K (Step_AcoBefore e).
Proof.
  intros K1 K2 K3 s H. unfold Step_AcoBefore.
  destruct (AcoBeforeEnum s && (InstCnt e <? 20)); cbv zeta.
  - rnorm. cbn [andb]. exact H.
  - destruct (AcoBeforeEnum s && negb (isLstOptml s)); [|exact H].
    destruct (negb (is_success _)) eqn:E.
    + cbn [post]. repeat apply keeps_delete_sched; auto.
      apply keeps_delete_lstSchdulr; auto. cbn. apply Forall_snoc; auto.
    + rnorm_in E. goal_cases; cbn [post]; cbn; apply Forall_snoc; auto.
Qed.

Lemma keeps_Step_Incumbent : keeps K (Step_Incumbent e).
Proof. intros s H. unfold Step_Incumbent. keeps_tac. Qed.

Lemma keeps_Step_UprBounds :
  K EvCmputSchedUprBound -> keeps K (Step_UprBounds e).
Proof. intros K1 s H. unfold Step_UprBounds, CmputUprBounds_. keeps_tac. Qed.

Lemma keeps_Step_PerpFilter : keeps K (Step_PerpFilter e).
Proof. intros s H. unfold Step_PerpFilter. keeps_tac. Qed.

Lemma keeps_Step_Gate :
  K EvDeleteLstSchdulr -> keeps K (Step_Gate e).
Proof.
  intros K1 s H. unfold Step_Gate. destruct (negb _); cbn [post].
  - by apply keeps_delete_lstSchdulr.
  - exact H.
Qed.

Lemma keeps_RegAlloc q :
  K EvRegAlloc -> keeps K (RegAlloc_ e q).
Proof. intros K1 s H. unfold RegAlloc_. keeps_tac. Qed.

Lemma keeps_Step_Enumerate :
  (isBbEnabled e = true -> forall ev, search_event ev -> K ev) ->
  keeps K (Step_Enumerate e).
Proof.
  intros Ks s H. unfold Step_Enumerate.
  destruct (isBbEnabled e) eqn:Hb; [|exact H]. specialize (Ks eq_refl).
  eapply post_bind.
  - instantiate (1 := fun s' => Forall K (events s')).
    destruct (negb (isLstOptml s)); [|exact H].
    unfold Optimize_. destruct (Enumerate_ e _) as [[r c] l].
    cbn. goal_cases; cbn [post]; cbn;
      (apply Forall_snoc; [apply Forall_snoc; [exact H|]|]); by apply Ks.
  - intros s' Hs'. destruct (negb _); [|exact Hs'].
    apply keeps_RegAlloc; [by apply Ks|exact Hs'].
Qed.

Lemma keeps_Step_AcoAfter :
  (forall i, K (EvRunACO AcoAfterEnumSched i)) -> (forall o, K (EvDelete o)) ->
  keeps K (Step_AcoAfter e).
Proof. intros K1 K2 s H. unfold Step_AcoAfter. keeps_tac. Qed.

Lemma keeps_Step_Verify :
  (forall o, K (EvVerify o)) -> K EvInvalidSchedule ->
  keeps K (Step_Verify e).
Proof. intros K1 K2 s H. unfold Step_Verify. keeps_tac. Qed.

Lemma keeps_Step_Bounds :
  (forall l u, K (EvSetFinalBounds l u)) -> K EvFinishOptml ->
  keeps K (Step_Bounds e).
Proof. intros K1 K2 s H. unfold Step_Bounds. keeps_tac. Qed.

Lemma keeps_Step_Finish :
  (forall ev, freeing ev -> K ev) -> keeps K (Step_Finish e).
Proof.
  intros Kf s H. destruct (Step_Finish_spec e s) as (sF & l & E & Fl & Ev & _).
  rewrite E. cbn [post]. rewrite Ev. apply Forall_app. split; [exact H|].
  eapply Forall_impl; [exact Fl|]. exact Kf.
Qed.

(** A class that holds every event but those of the search stage is kept
    by the whole function when the enumerator is disabled. *)
Lemma keeps_FindOptimalSchedule :
  (forall ev, ~ search_event ev -> K ev) ->
  (isBbEnabled e = true -> forall ev, search_event ev -> K ev) ->
  keeps K (FindOptimalSchedule e).
Proof.
  intros Kn Ks.
  assert (Kf : forall ev, freeing ev -> K ev).
  { intros ev Hf. apply Kn. destruct ev; cbn in *; tauto. }
  unfold FindOptimalSchedule, PreBounds, PreGate, PreIncumbent, PreHeuristic.
  repeat apply keeps_bind.
  - apply keeps_Step_Entry.
  - apply keeps_Step_Setup; intros; apply Kn; cbn; tauto.
  - apply keeps_Step_LwrBounds.
  - apply keeps_Step_Heuristic; apply Kn; cbn; tauto.
  - apply keeps_Step_AcoBefore; intros; apply Kn; cbn; tauto.
  - apply keeps_Step_Incumbent.
  - apply keeps_Step_UprBounds; apply Kn; cbn; tauto.
  - apply keeps_Step_PerpFilter.
  - apply keeps_Step_Gate; apply Kn; cbn; tauto.
  - apply keeps_Step_Enumerate; exact Ks.
  - apply keeps_Step_AcoAfter; intros; apply Kn; cbn; tauto.
  - apply keeps_Step_Verify; intros; apply Kn; cbn; tauto.
  - apply keeps_Step_Bounds; intros; apply Kn; cbn; tauto.
  - apply keeps_Step_Finish; exact Kf.
Qed.

End Keeps.

(** X14.  With the enumerator disabled ([ENUM_ENABLED] off, or a region
    timeout that is not positive) no run reaches the search stage: the
    graph is never set hard, [Enumerate_] is never called and no register
    allocation is simulated. *)
Theorem disabled_enumerator_never_searches (e : Env) (s0 s : Rgn)
    (r : FUNC_RESULT) :
  isBbEnabled e = false ->
  events s0 = [] ->
  FindOptimalSchedule e s0 = Return r s ->
  Forall (fun ev => ~ search_event ev) (events s).
Proof.
  intros Hb Hev H.
  pose proof (keeps_FindOptimalSchedule (fun ev => ~ search_event ev) e
                ltac:(auto) ltac:(intros; congruence) s0) as P.
  rewrite H in P. apply P. rewrite Hev. constructor.
Qed.

Lemma fails_only_bind f g :
  fails_only f -> fails_only g -> fails_only (fun s => f s >>> g).
Proof.
  intros Hf Hg s r s' H. destruct (f s) as [s1|r1 s1|] eqn:E; cbn in H.
  - by eapply Hg.
  - injection H as <- <-. by eapply Hf.
  - discriminate.
Qed.

Ltac fails_tac H :=
  cbn in H; step_cases H; try discriminate H;
  injection H as <- <-; cbn in *;
  first [reflexivity | by apply negb_true_iff].

Lemma fails_only_ApplyGraphTrans e gts : forall i,
  fails_only (ApplyGraphTrans e i gts).
Proof.
  induction gts as [|[a u] gts IH]; intros i s r s' H; [discriminate|].
  cbn [ApplyGraphTrans] in H.
  destruct (negb (is_success a)) eqn:Ea.
  { injection H as <- <-. by apply negb_true_iff. }
  destruct (negb (is_success u)) eqn:Eu.
  { injection H as <- <-. by apply negb_true_iff. }
  by eapply IH.
Qed.

Lemma fails_only_Step_Entry e : fails_only (Step_Entry e).
Proof. intros s r s' H. unfold Step_Entry in H. fails_tac H. Qed.

Lemma fails_only_Step_Setup e : fails_only (Step_Setup e).
Proof.
  intros s r s' H. unfold Step_Setup in H.
  destruct (negb (is_success (SetupForSchdulng e))) eqn:E.
  { injection H as <- <-. by apply negb_true_iff. }
  destruct (ApplyGraphTrans _ _ _ _) as [s1|r1 s1|] eqn:E1; cbn in H;
    try discriminate.
  injection H as <- <-. by eapply fails_only_ApplyGraphTrans.
Qed.

Lemma fails_only_Step_LwrBounds e : fails_only (Step_LwrBounds e).
Proof.
  intros s r s' H. unfold Step_LwrBounds, CmputLwrBounds_ in H.
  step_cases H; discriminate H.
Qed.

Lemma fails_only_Step_Heuristic e : fails_only (Step_Heuristic e).
Proof. intros s r s' H. unfold Step_Heuristic in H. fails_tac H. Qed.

Lemma fails_only_Step_AcoBefore e : fails_only (Step_AcoBefore e).
Proof.
  intros s r s' H. unfold Step_AcoBefore in H. cbv zeta in H.
  destruct (AcoBeforeEnum s && (InstCnt e <? 20));
    (destruct (AcoBeforeEnum _ && negb (isLstOptml _)); [|discriminate]);
    (destruct (negb (is_success (rslt _))) eqn:E;
     [|step_cases H; discriminate H]);
    injection H as <- _; rnorm_in E; rnorm; by apply negb_true_iff.
Qed.

Lemma fails_only_Step_Incumbent e : fails_only (Step_Incumbent e).
Proof.
  intros s r s' H. unfold Step_Incumbent in H. step_cases H; discriminate H.
Qed.

Lemma fails_only_Step_UprBounds e : fails_only (Step_UprBounds e).
Proof.
  intros s r s' H. unfold Step_UprBounds in H. step_cases H; discriminate H.
Qed.

Lemma fails_only_Step_PerpFilter e : fails_only (Step_PerpFilter e).
Proof.
  intros s r s' H. unfold Step_PerpFilter in H. step_cases H; discriminate H.
Qed.

Lemma fails_only_Step_Gate e : fails_only (Step_Gate e).
Proof.
  intros s r s' H. unfold Step_Gate in H. step_cases H; try discriminate H.
  by injection H as <- _.
Qed.

Lemma fails_only_RegAlloc e q : fails_only (RegAlloc_ e q).
Proof.
  intros s r s' H. unfold RegAlloc_ in H. step_cases H; discriminate H.
Qed.

Lemma fails_only_Step_Enumerate e : fails_only (Step_Enumerate e).
Proof.
  intros s r s' H. unfold Step_Enumerate in H.
  destruct (isBbEnabled e); [|discriminate].
  match type of H with
  | ?o >>> _ = _ => destruct o as [s1|r1 s1|] eqn:E1
  end; cbn [andThen] in H.
  - destruct (negb (String.eqb _ _)) in H; [|discriminate H].
    by eapply fails_only_RegAlloc.
  - exfalso. clear H. destruct (negb (isLstOptml s)); [|discriminate].
    unfold Optimize_ in E1. destruct (Enumerate_ e _) as [[r2 c] l].
    cbn in E1. step_cases E1; discriminate E1.
  - discriminate.
Qed.

Lemma fails_only_Step_AcoAfter e : fails_only (Step_AcoAfter e).
Proof.
  intros s r s' H. unfold Step_AcoAfter in H. step_cases H; discriminate H.
Qed.

Lemma fails_only_Step_Verify e : fails_only (Step_Verify e).
Proof.
  intros s r s' H. unfold Step_Verify in H. step_cases H; discriminate H.
Qed.

Lemma fails_only_PreBounds e : fails_only (PreBounds e).
Proof.
  unfold PreBounds, PreGate, PreIncumbent, PreHeuristic.
  repeat apply fails_only_bind.
  - apply fails_only_Step_Entry.
  - apply fails_only_Step_Setup.
  - apply fails_only_Step_LwrBounds.
  - apply fails_only_Step_Heuristic.
  - apply fails_only_Step_AcoBefore.
  - apply fails_only_Step_Incumbent.
  - apply fails_only_Step_UprBounds.
  - apply fails_only_Step_PerpFilter.
  - apply fails_only_Step_Gate.
  - apply fails_only_Step_Enumerate.
  - apply fails_only_Step_AcoAfter.
  - apply fails_only_Step_Verify.
Qed.

Lemma keeps_PreBounds (K : Event -> Prop) e :
  (forall ev, ~ closing_event ev -> K ev) -> keeps K (PreBounds e).
Proof.
  intros Kn.
  unfold PreBounds, PreGate, PreIncumbent, PreHeuristic.
  repeat apply keeps_bind.
  - apply keeps_Step_Entry.
  - apply keeps_Step_Setup; intros; apply Kn; cbn; tauto.
  - apply keeps_Step_LwrBounds.
  - apply keeps_Step_Heuristic; apply Kn; cbn; tauto.
  - apply keeps_Step_AcoBefore; intros; apply Kn; cbn; tauto.
  - apply keeps_Step_Incumbent.
  - apply keeps_Step_UprBounds; apply Kn; cbn; tauto.
  - apply keeps_Step_PerpFilter.
  - apply keeps_Step_Gate; apply Kn; cbn; tauto.
  - apply keeps_Step_Enumerate. intros _ ev Hev. apply Kn.
    destruct ev; cbn in *; tauto.
  - apply keeps_Step_AcoAfter; intros; apply Kn; cbn; tauto.
  - apply keeps_Step_Verify; intros; apply Kn; cbn; tauto.
Qed.

(** X15.  [SetFinalBounds] is called at most once in a run, and only a
    run that got as far as that call can return [RES_SUCCESS]: a return
    with [RES_SUCCESS] has persisted one pair of bounds, and the two are
    equal; a return that persisted nothing reports a failure. *)
Theorem success_has_closed_bounds (e : Env) (s0 s : Rgn) (r : FUNC_RESULT) :
  events s0 = [] ->
  FindOptimalSchedule e s0 = Return r s ->
  (persisted (events s) = [] /\ r <> RES_SUCCESS) \/
  (exists lwr upr,
     persisted (events s) = [(lwr, upr)] /\ (r = RES_SUCCESS -> lwr = upr)).
Proof.
  intros Hev. unfold FindOptimalSchedule. intros H.
  pose proof (keeps_PreBounds not_bounds e
                ltac:(intros ev Hn; destruct ev; cbn in *; tauto) s0) as P.
  rewrite Hev in P. specialize (P (Forall_nil_2 _)).
  destruct (PreBounds e s0) as [s1|r1 s1|] eqn:E; cbn [andThen post] in *.
  - right. unfold Step_Bounds in H. cbn [andThen] in H.
    match type of H with
    | Step_Finish e ?s2 = _ =>
        destruct (Step_Finish_spec e s2) as (sF & l & E2 & Fl & Ev & _);
        rewrite E2 in H
    end.
    injection H as <- <-. eexists _, _. split.
    + rewrite Ev. unfold persisted. rewrite omap_app.
      rewrite (omap_none persisted_bounds freeing l)
        by (by intros [] || exact Fl).
      rewrite app_nil_r. cbn. rewrite !omap_app. cbn.
      by rewrite (omap_none persisted_bounds not_bounds (events s1))
        by (by intros [] || exact P).
    + cbn. intros ->. reflexivity.
  - left. injection H as <- <-. split.
    + apply (omap_none persisted_bounds not_bounds); [by intros []|exact P].
    + intros ->. by apply (fails_only_PreBounds e) in E.
  - discriminate.
Qed.

Lemma deleted_snoc l ev :
  deleted (l ++ [ev]) = deleted l ++ option_list (deleted_obj ev).
Proof. unfold deleted. rewrite omap_app. cbn. by destruct (deleted_obj ev). Qed.

Lemma delete_sched_view q s :
  same_ptrs s (delete_sched q s) /\
  deleted (events (delete_sched q s)) = deleted (events s) ++ option_list q.
Proof.
  destruct q as [o|]; cbn.
  - split; [by repeat split|]. apply deleted_snoc.
  - split; [by repeat split|]. by rewrite app_nil_r.
Qed.

Lemma delete_unless_best_view p s :
  same_ptrs s (delete_unless_best p s) /\
  deleted (events (delete_unless_best p s)) =
    deleted (events s) ++ loser (bestSched s) p.
Proof.
  unfold delete_unless_best, loser. destruct (ptr_eqb (bestSched s) p); cbn [negb].
  - split; [by repeat split|]. by rewrite app_nil_r.
  - apply delete_sched_view.
Qed.

Lemma delete_lstSchdulr_view s :
  same_ptrs s (delete_lstSchdulr s) /\
  deleted (events (delete_lstSchdulr s)) = deleted (events s).
Proof.
  unfold delete_lstSchdulr. destruct (lstSchdulr s); cbn.
  - split; [by repeat split|]. rewrite deleted_snoc. cbn. by rewrite app_nil_r.
  - split; [by repeat split|reflexivity].
Qed.

Lemma free_losers_view s :
  same_ptrs s (free_losers s) /\
  deleted (events (free_losers s)) = deleted (events s) ++ losers s.
Proof.
  unfold free_losers. cbv zeta.
  destruct (delete_lstSchdulr_view s) as [(B3 & L3 & A3 & E3 & C3) D3].
  set (s3 := delete_lstSchdulr s) in *. clearbody s3.
  destruct (delete_unless_best_view (lstSched s3) s3) as [(B4 & L4 & A4 & E4 & C4) D4].
  set (s4 := delete_unless_best (lstSched s3) s3) in *. clearbody s4.
  destruct (delete_unless_best_view (AcoSchedule s4) s4) as [(B5 & L5 & A5 & E5 & C5) D5].
  set (s5 := delete_unless_best (AcoSchedule s4) s4) in *. clearbody s5.
  destruct (delete_unless_best_view (enumBestSched_ s5) s5) as [(B6 & L6 & A6 & E6 & C6) D6].
  set (s6 := delete_unless_best (enumBestSched_ s5) s5) in *. clearbody s6.
  destruct (delete_sched_view (enumCrntSched_ s6) s6) as [(B7 & L7 & A7 & E7 & C7) D7].
  split.
  - unfold same_ptrs. split_and!; congruence.
  - rewrite D7, D6, D5, D4, D3. unfold losers. rewrite <- !app_assoc.
    rewrite C6, C5, C4, C3, E5, E4, E3, A4, A3, L3, B5, B4, B3. reflexivity.
Qed.

Lemma check_result_view e s :
  same_ptrs s (check_result e s) /\
  deleted (events (check_result e s)) = deleted (events s).
Proof.
  unfold check_result. cbv zeta. destruct (negb _); cbn;
    (split; [by repeat split|]); rewrite deleted_snoc; cbn; by rewrite app_nil_r.
Qed.

(** What the last step leaves of the schedule objects. *)
Lemma Step_Finish_view e s :
  exists r sF,
    Step_Finish e s = Return r sF /\
    ((bestSched sF = bestSched s /\
      deleted (events sF) = deleted (events s) ++ losers s) \/
     (bestSched sF = None /\
      deleted (events sF) =
        deleted (events s) ++ losers s ++ option_list (bestSched s))).
Proof.
  unfold Step_Finish. cbv zeta.
  destruct (check_result_view e s) as [(B1 & L1 & A1 & E1 & C1) D1].
  set (c := check_result e s) in *. clearbody c.
  destruct (free_losers_view c) as [(B2 & L2 & A2 & E2 & C2) D2].
  assert (Hl : losers c = losers s) by (unfold losers; congruence).
  set (f := free_losers c) in *. clearbody f.
  assert (Ho : bestSched (assign_outputs f) = bestSched s /\
               events (assign_outputs f) = events f)
    by (split; [cbn; congruence|reflexivity]).
  destruct Ho as [Bo Eo].
  set (o := assign_outputs f) in *. clearbody o.
  destruct (is_SLIL (spillCostFunc_ e) && discards e o).
  - eexists _, _. split; [reflexivity|]. right. split; [reflexivity|].
    destruct (delete_sched_view (bestSched o) o) as [_ D3].
    cbn [events set_bestSched]. 
    replace (events (set_bestSched None (delete_sched (bestSched o) o)))
      with (events (delete_sched (bestSched o) o)) by reflexivity.
    rewrite D3, Eo, D2, D1, Hl, Bo. by rewrite <- app_assoc.
  - eexists _, _. split; [reflexivity|]. left. split; [exact Bo|].
    by rewrite Eo, D2, D1, Hl.
Qed.

Ltac crush_hyps :=
  repeat match goal with
         | H : _ /\ _ |- _ => destruct H
         | H : _ \/ _ |- _ => destruct H
         | H : ?x = _ |- _ => is_var x; subst x
         end.

Ltac decide_tac := apply (bool_decide_unpack _); vm_compute; exact I.

Ltac open_inv :=
  unfold mem_clear, mem_heur, mem_early, mem_searched, mem_late, typed,
    null_or, early, Safe in *.

(** Solve an invariant of a state built from the setters. *)
Ltac mem_goal :=
  cbn [post];
  first
    [ exact I
    | open_inv; rnorm;
      rewrite ?deleted_snoc;
      try match goal with
          | Hdel : deleted _ = _ |- _ => rewrite ?Hdel
          end;
      cbn [option_list deleted_obj app];
      split_and!;
      first [ reflexivity | discriminate | tauto | decide_tac
            | (intros o Ho; first [discriminate Ho
                                  | injection Ho as <-; decide_tac])
            | (left; reflexivity) | (right; reflexivity)
            | (right; left; reflexivity) | (right; right; reflexivity)
            | (intros; congruence)
            | auto ] ].

Lemma mem_Step_Entry e s :
  events s = [] ->
  post mem_clear (fun _ => Safe) (Step_Entry e s).
Proof.
  intros Hev. destruct s. cbn in Hev. subst.
  unfold Step_Entry. rnorm. goal_cases; cbn [post]; open_inv; rnorm;
    split_and!; try reflexivity; try constructor; try discriminate.
Qed.

Lemma mem_clear_events s s' :
  mem_clear s -> same_ptrs s s' -> bestSched_ s' = bestSched_ s ->
  deleted (events s') = [] -> mem_clear s'.
Proof.
  intros (D & L & A & E & C & B & B') (P1 & P2 & P3 & P4 & P5) P6 D'.
  unfold mem_clear. split_and!; congruence.
Qed.

Lemma mem_clear_Safe s : mem_clear s -> Safe s.
Proof.
  intros (D & _ & _ & _ & _ & B & _). split.
  - rewrite D. constructor.
  - rewrite B. discriminate.
Qed.

Lemma mem_ApplyGraphTrans e gts : forall i s,
  mem_clear s -> post mem_clear (fun _ => Safe) (ApplyGraphTrans e i gts s).
Proof.
  induction gts as [|[a u] gts IH]; intros i s H; [exact H|].
  cbn [ApplyGraphTrans].
  assert (H1 : mem_clear (log (EvApplyTrans i) (set_rslt a s))).
  { apply (mem_clear_events s); [exact H|by repeat split|reflexivity|].
    cbn. rewrite deleted_snoc. destruct H as [-> _]. reflexivity. }
  destruct (negb (is_success a)); [by apply mem_clear_Safe|].
  assert (H2 : mem_clear (log (EvUpdateSetupForSchdulng (needTransitiveClosure e))
                            (set_rslt u (log (EvApplyTrans i) (set_rslt a s))))).
  { apply (mem_clear_events (log (EvApplyTrans i) (set_rslt a s)));
      [exact H1|by repeat split|reflexivity|].
    cbn. rewrite !deleted_snoc. destruct H as [-> _]. reflexivity. }
  destruct (negb (is_success u)); [by apply mem_clear_Safe|].
  apply IH, H2.
Qed.

Lemma mem_Step_Setup e s :
  mem_clear s -> post mem_clear (fun _ => Safe) (Step_Setup e s).
Proof.
  intros H. unfold Step_Setup.
  assert (H1 : mem_clear (log (EvSetupForSchdulng (needTransitiveClosure e))
                            (set_rslt (SetupForSchdulng e) s))).
  { apply (mem_clear_events s); [exact H|by repeat split|reflexivity|].
    cbn. rewrite deleted_snoc. destruct H as [-> _]. reflexivity. }
  destruct (negb _); [by apply mem_clear_Safe|].
  eapply post_bind; [by apply mem_ApplyGraphTrans|].
  intros s' Hs'. cbn [post].
  apply (mem_clear_events s'); [exact Hs'|by repeat split|reflexivity|].
  by destruct Hs'.
Qed.

Lemma mem_Step_LwrBounds e s :
  mem_clear s -> post mem_clear (fun _ => Safe) (Step_LwrBounds e s).
Proof.
  intros H. unfold Step_LwrBounds, CmputLwrBounds_.
  goal_cases; cbn [post]; try exact I;
    (apply (mem_clear_events s); [exact H|by repeat split|reflexivity|];
     by destruct H).
Qed.

Lemma mem_Step_Heuristic e s :
  mem_clear s -> post mem_heur (fun _ => Safe) (Step_Heuristic e s).
Proof.
  intros H. destruct s. open_inv. rnorm_in H. crush_hyps.
  unfold Step_Heuristic. rnorm. goal_cases; mem_goal.
Qed.

Lemma mem_Step_AcoBefore e s :
  mem_heur s -> post mem_early (fun _ => Safe) (Step_AcoBefore e s).
Proof.
  intros H. destruct s. open_inv. rnorm_in H. crush_hyps;
    match goal with
    | Hopt : ?b = false -> _ |- _ =>
        destruct b; [clear Hopt|specialize (Hopt eq_refl)]
    end;
    try discriminate;
    unfold Step_AcoBefore, delete_sched, delete_lstSchdulr;
    (destruct (_ && (InstCnt e <? 20))); rnorm;
    cbn [negb]; rewrite ?andb_false_r, ?andb_true_r;
    goal_cases; rnorm; goal_cases; mem_goal.
Qed.

Lemma mem_Step_Incumbent e s :
  mem_early s -> post mem_early (fun _ => Safe) (Step_Incumbent e s).
Proof.
  intros H. destruct s. open_inv. rnorm_in H. crush_hyps;
    unfold Step_Incumbent; rnorm; goal_cases; rnorm;
    try match goal with
        | Hc : (if _ then _ else _) = Some _ |- _ =>
            revert Hc; goal_cases; intros Hc; first [discriminate Hc|injection Hc as <-]
        end;
    mem_goal.
Qed.

Lemma mem_Step_UprBounds e s :
  mem_early s -> post mem_early (fun _ => Safe) (Step_UprBounds e s).
Proof.
  intros H. destruct s. open_inv. rnorm_in H. crush_hyps;
    unfold Step_UprBounds, CmputUprBounds_; rnorm; goal_cases; rnorm;
    mem_goal.
Qed.

Lemma mem_Step_PerpFilter e s :
  mem_early s -> post mem_early (fun _ => Safe) (Step_PerpFilter e s).
Proof.
  intros H. destruct s. open_inv. rnorm_in H. crush_hyps;
    unfold Step_PerpFilter; rnorm; goal_cases; rnorm; mem_goal.
Qed.

Lemma mem_Step_Gate e s :
  mem_early s -> post mem_gated (fun _ => Safe) (Step_Gate e s).
Proof.
  intros H. destruct s. unfold mem_gated. open_inv. rnorm_in H. crush_hyps;
    unfold Step_Gate, delete_lstSchdulr; rnorm; goal_cases; rnorm;
    mem_goal.
Qed.

Lemma mem_RegAlloc e s :
  early (InitialSchedule s) -> mem_searched s ->
  post mem_searched (fun _ => Safe) (RegAlloc_ e (InitialSchedule s) s).
Proof.
  intros Hi H. destruct s. open_inv. rnorm_in H. rnorm_in Hi. crush_hyps;
    unfold RegAlloc_; rnorm; goal_cases; rnorm; mem_goal.
Qed.

Lemma mem_Step_Enumerate e s :
  mem_gated s -> post mem_searched (fun _ => Safe) (Step_Enumerate e s).
Proof.
  intros [H Hi]. unfold Step_Enumerate.
  assert (H0 : mem_searched s).
  { clear Hi. destruct s. open_inv. rnorm_in H. crush_hyps; mem_goal. }
  destruct (isBbEnabled e); [|exact H0].
  eapply post_bind.
  - instantiate (1 := fun s' => mem_searched s' /\ early (InitialSchedule s')).
    destruct (negb (isLstOptml s)); [|by split].
    unfold Optimize_. destruct (Enumerate_ e _) as [[r c] l].
    clear H0. destruct s. open_inv. rnorm_in H. rnorm_in Hi.
    crush_hyps; rnorm; goal_cases; rnorm; mem_goal.
  - intros s' [Hs' Hi']. destruct (negb _); [|exact Hs'].
    by apply mem_RegAlloc.
Qed.

Lemma mem_Step_AcoAfter e s :
  mem_searched s -> post mem_late (fun _ => Safe) (Step_AcoAfter e s).
Proof.
  intros H. destruct s. open_inv. rnorm_in H. crush_hyps;
    unfold Step_AcoAfter; rnorm; goal_cases; rnorm; mem_goal.
Qed.

Lemma mem_Step_Verify e s :
  mem_late s -> post mem_late (fun _ => Safe) (Step_Verify e s).
Proof.
  intros H. destruct s. open_inv. rnorm_in H. crush_hyps;
    unfold Step_Verify; rnorm; goal_cases; rnorm; mem_goal.
Qed.

Lemma mem_Step_Bounds e s :
  mem_late s -> post mem_late (fun _ => Safe) (Step_Bounds e s).
Proof.
  intros H. destruct s. open_inv. rnorm_in H. crush_hyps;
    unfold Step_Bounds; rnorm; goal_cases; rnorm; mem_goal.
Qed.

Lemma mem_Step_Finish e s :
  mem_late s -> post (fun _ => True) (fun _ => Safe) (Step_Finish e s).
Proof.
  intros [(L & A & E & C & B) D].
  destruct (Step_Finish_view e s) as (r & sF & -> & V). cbn [post].
  unfold Safe. unfold losers, loser in V.
  destruct L as [L|L], A as [A|A], E as [E|E], C as [C|C];
    rewrite L, A, E, C in V;
    destruct (bestSched s) as [[]|] eqn:Hb; try congruence;
    destruct D as [D|[D Hn]]; try congruence; rewrite D in V;
    destruct V as [[-> ->]|[-> ->]];
    (split; [decide_tac|]);
    intros o Ho; first [discriminate Ho | injection Ho as <-; decide_tac].
Qed.

(** X16.  No run deletes a schedule twice or hands back a deleted one:
    whenever [FindOptimalSchedule] returns, the schedule objects deleted
    on the way are pairwise distinct and the schedule [bestSched] points
    to, if any, is not among them. *)
Theorem deletes_are_safe (e : Env) (s0 s : Rgn) (r : FUNC_RESULT) :
  events s0 = [] ->
  FindOptimalSchedule e s0 = Return r s ->
  NoDup (deleted (events s)) /\
  forall o, bestSched s = Some o -> o ∉ deleted (events s).
Proof.
  intros Hev H.
  assert (P : post (fun _ => True) (fun _ => Safe) (FindOptimalSchedule e s0)).
  { unfold FindOptimalSchedule, PreBounds, PreGate, PreIncumbent, PreHeuristic.
    eapply post_bind; [|intros; by apply mem_Step_Finish].
    eapply post_bind; [|intros; by apply mem_Step_Bounds].
    eapply post_bind; [|intros; by apply mem_Step_Verify].
    eapply post_bind; [|intros; by apply mem_Step_AcoAfter].
    eapply post_bind; [|intros; by apply mem_Step_Enumerate].
    eapply post_bind; [|intros; by apply mem_Step_Gate].
    eapply post_bind; [|intros; by apply mem_Step_PerpFilter].
    eapply post_bind; [|intros; by apply mem_Step_UprBounds].
    eapply post_bind; [|intros; by apply mem_Step_Incumbent].
    eapply post_bind; [|intros; by apply mem_Step_AcoBefore].
    eapply post_bind; [|intros; by apply mem_Step_Heuristic].
    eapply post_bind; [|intros; by apply mem_Step_LwrBounds].
    eapply post_bind; [|intros; by apply mem_Step_Setup].
    by apply mem_Step_Entry. }
  rewrite H in P. exact P.
Qed.

Lemma elem_of_deleted o evs : o ∈ deleted evs <-> EvDelete o ∈ evs.
Proof.
  unfold deleted. rewrite list_elem_of_omap. split.
  - intros (ev & Hin & Hd). destruct ev; try discriminate.
    cbn in Hd. by injection Hd as ->.
  - intros H. by exists (EvDelete o).
Qed.

Lemma aco_after_Step_AcoAfter e s s' :
  Forall (fun ev => ~ ran_aco_after ev) (events s) ->
  Step_AcoAfter e s = Go s' -> aco_after_placed s'.
Proof.
  intros F H. unfold Step_AcoAfter in H. cbv zeta in H.
  step_cases H; apply Go_inj in H; subst s'; unfold aco_after_placed.
  - intros _. right. apply elem_of_deleted. cbn.
    apply elem_of_app. right. apply list_elem_of_singleton. reflexivity.
  - intros _. left. reflexivity.
  - intros _. right. apply elem_of_deleted. cbn.
    apply elem_of_app. right. apply list_elem_of_singleton. reflexivity.
  - intros Hx. exfalso. apply Exists_exists in Hx as (ev & Hin & Hr).
    rewrite Forall_forall in F. exact (F ev Hin Hr).
Qed.

Lemma aco_after_Step_Verify e s s' :
  aco_after_placed s -> Step_Verify e s = Go s' -> aco_after_placed s'.
Proof.
  intros J H. unfold Step_Verify in H.
  step_cases H; apply Go_inj in H; subst s'; unfold aco_after_placed in *;
    cbn; try exact J;
    rewrite ?Exists_app, ?Exists_cons, ?Exists_nil;
    (intros Hx;
     assert (Hs : Exists ran_aco_after (events s)) by (cbn in Hx; tauto);
     destruct (J Hs) as [Hb|Hd]; [by left|right];
     unfold deleted; rewrite ?omap_app; rewrite ?elem_of_app; tauto).
Qed.

Lemma no_aco_after_to_search e :
  keeps (fun ev => ~ ran_aco_after ev)
        (fun s => PreGate e s >>> Step_Gate e >>> Step_Enumerate e).
Proof.
  unfold PreGate, PreIncumbent, PreHeuristic.
  repeat apply keeps_bind.
  - apply keeps_Step_Entry.
  - apply keeps_Step_Setup; intros; cbn; tauto.
  - apply keeps_Step_LwrBounds.
  - apply keeps_Step_Heuristic; cbn; tauto.
  - apply keeps_Step_AcoBefore; intros; cbn; tauto.
  - apply keeps_Step_Incumbent.
  - apply keeps_Step_UprBounds; cbn; tauto.
  - apply keeps_Step_PerpFilter.
  - apply keeps_Step_Gate; cbn; tauto.
  - apply keeps_Step_Enumerate. intros _ ev Hev.
    destruct ev; cbn in *; tauto.
Qed.

Lemma loser_or_best (b p : option SchedObj) (o : SchedObj) :
  p = Some o -> o ∈ loser b p \/ b = Some o.
Proof.
  intros ->. unfold loser, ptr_eqb.
  destruct (bool_decide_reflect (b = Some o)) as [Hb|Hb]; [by right|left].
  cbn. apply list_elem_of_singleton. reflexivity.
Qed.

(** X17.  A run that reaches the final bounds leaks no schedule: when it
    returns, every schedule object it allocated is either the one
    [bestSched] points to or has been deleted. *)
Theorem complete_run_frees_losers (e : Env) (s0 s1 : Rgn) :
  events s0 = [] ->
  PreBounds e s0 = Go s1 ->
  exists r sF,
    FindOptimalSchedule e s0 = Return r sF /\
    forall o, o ∈ allocated s1 ->
      bestSched sF = Some o \/ o ∈ deleted (events sF).
Proof.
  intros Hev Hpre.
  assert (J : aco_after_placed s1).
  { unfold PreBounds in Hpre.
    apply andThen_Go in Hpre as (sb & Hpre & Hv).
    apply andThen_Go in Hpre as (sa & Hpre & Ha).
    pose proof (no_aco_after_to_search e s0) as P. cbv beta in P.
    rewrite Hpre in P. cbn [post] in P. rewrite Hev in P.
    specialize (P (Forall_nil_2 _)).
    eapply aco_after_Step_Verify; [|exact Hv].
    eapply aco_after_Step_AcoAfter; [exact P|exact Ha]. }
  unfold FindOptimalSchedule. rewrite Hpre. cbn [andThen]. unfold Step_Bounds.
  cbv zeta. cbn [andThen].
  match goal with
  | |- context [Step_Finish e ?x] =>
      set (s2 := x);
      destruct (Step_Finish_view e s2) as (r & sF & E & V)
  end.
  exists r, sF. split; [exact E|].
  assert (D2 : deleted (events s2) = deleted (events s1)).
  { unfold s2. cbn. rewrite !deleted_snoc. cbn. by rewrite !app_nil_r. }
  assert (B2 : bestSched s2 = bestSched s1) by reflexivity.
  assert (L2 : losers s2 = losers s1) by reflexivity.
  rewrite D2, B2, L2 in V. clear D2 B2 L2 E. clearbody s2.
  intros o Ho. unfold allocated in Ho. apply elem_of_app in Ho as [Ho|Ho].
  - (* one of the four pointers *)
    assert (Hl : o ∈ losers s1 \/ bestSched s1 = Some o).
    { apply list_elem_of_omap in Ho as (p & Hp & Hid). cbn in Hid. subst p.
      unfold losers. rewrite !elem_of_app.
      rewrite !elem_of_cons in Hp.
      destruct Hp as [Hp|[Hp|[Hp|[Hp|Hp]]]].
      - destruct (loser_or_best (bestSched s1) _ o (eq_sym Hp)); tauto.
      - destruct (loser_or_best (bestSched s1) _ o (eq_sym Hp)); tauto.
      - destruct (loser_or_best (bestSched s1) _ o (eq_sym Hp)); tauto.
      - left. right. right. right. rewrite <- Hp. cbn.
        apply list_elem_of_singleton. reflexivity.
      - by apply elem_of_nil in Hp. }
    destruct V as [[B D]|[B D]]; rewrite B, D, ?elem_of_app.
    + destruct Hl as [Hl|Hl]; [right; by right|by left].
    + right. destruct Hl as [Hl|Hl]; [tauto|].
      right. right. rewrite Hl. cbn. apply list_elem_of_singleton. reflexivity.
  - (* the schedule of the late ant colony *)
    destruct (bool_decide_reflect (Exists ran_aco_after (events s1))) as [Hx|Hx];
      [|by apply elem_of_nil in Ho].
    apply list_elem_of_singleton in Ho. subst o.
    destruct (J Hx) as [Jb|Jd].
    + destruct V as [[B D]|[B D]]; rewrite B, D, ?elem_of_app.
      * by left.
      * right. right. right. rewrite Jb. cbn.
        apply list_elem_of_singleton. reflexivity.
    + right. destruct V as [[B D]|[B D]]; rewrite D, ?elem_of_app; by left.
Qed.

(** *** Runs without an incumbent *)
Lemma PreHeuristic_mem_clear e s0 s1 :
  events s0 = [] -> PreHeuristic e s0 = Go s1 -> mem_clear s1.
Proof.
  intros Hev H.
  assert (P : post mem_clear (fun _ => Safe) (PreHeuristic e s0)).
  { unfold PreHeuristic.
    eapply post_bind; [|intros; by apply mem_Step_LwrBounds].
    eapply post_bind; [|intros; by apply mem_Step_Setup].
    by apply mem_Step_Entry. }
  rewrite H in P. exact P.
Qed.

Lemma Step_AcoBefore_small e s :
  InstCnt e < 20 ->
  exists s',
    Step_AcoBefore e s = Go s' /\
    AcoBeforeEnum s' = false /\
    lstSched s' = lstSched s /\ bestSched_ s' = bestSched_ s.
Proof.
  intros Hn.
  assert (Hlt : (InstCnt e <? 20) = true) by (apply Z.ltb_lt; lia).
  destruct s. unfold Step_AcoBefore. rewrite Hlt.
  rproj. rewrite andb_true_r.
  match goal with
  | |- context [if ?b then set_AcoBeforeEnum false _ else _] => destruct b
  end; rnorm; cbn [andb]; eexists; (split; [reflexivity|]);
    split_and!; reflexivity.
Qed.

Lemma no_incumbent_aborts e s :
  AcoBeforeEnum s = false -> lstSched s = None -> bestSched_ s = None ->
  Step_Incumbent e s >>> Step_UprBounds e = Abort.
Proof.
  intros Ha Hl Hb. destruct s. rnorm_in Ha. rnorm_in Hl. rnorm_in Hb. subst.
  unfold Step_Incumbent. rnorm.
  match goal with
  | |- context [negb ?b] => destruct b
  end; cbn [negb andThen]; unfold Step_UprBounds; rnorm;
    goal_cases; reflexivity.
Qed.

(** X18.  A region of fewer than 20 instructions with the heuristic
    scheduler disabled has no incumbent: the ant colony is switched off
    for it after the configuration check has passed, so neither pass
    runs, [bestSched_] stays null, and the run stops at the assertions
    that open step 3. *)
Theorem small_region_without_heuristic_aborts (e : Env) (s0 s1 : Rgn) :
  events s0 = [] ->
  HEUR_ENABLED e = false -> IsSecondPass e = false ->
  InstCnt e < 20 ->
  PreHeuristic e s0 = Go s1 ->
  FindOptimalSchedule e s0 = Abort.
Proof.
  intros Hev Hh Hp Hn Hpre.
  pose proof (PreHeuristic_mem_clear e s0 s1 Hev Hpre)
    as (_ & L & _ & _ & _ & _ & B').
  unfold FindOptimalSchedule, PreBounds, PreGate, PreIncumbent.
  rewrite Hpre. cbn [andThen].
  unfold Step_Heuristic. rewrite Hh, Hp. cbn [orb andThen].
  destruct (Step_AcoBefore_small e s1 Hn) as (s2 & -> & Ha & L2 & B2).
  cbn [andThen].
  rewrite (no_incumbent_aborts e s2 Ha); [reflexivity|congruence|congruence].
Qed.

Lemma Step_AcoBefore_lstSched e s s' :
  Step_AcoBefore e s = Go s' -> lstSched s' = lstSched s.
Proof.
  intros H. destruct s. unfold Step_AcoBefore in H.
  destruct (_ && (InstCnt e <? 20)) in H; rnorm_in H;
    step_cases H; apply Go_inj in H; subst s'; reflexivity.
Qed.

Lemma Step_Incumbent_frame e s s' :
  Step_Incumbent e s = Go s' ->
  lstSched s' = lstSched s /\ isLstOptml s' = isLstOptml s.
Proof.
  intros H. destruct s. unfold Step_Incumbent in H. rnorm_in H.
  step_cases H; apply Go_inj in H; subst s'; split; reflexivity.
Qed.

Lemma Step_UprBounds_frame e s s' :
  Step_UprBounds e s = Go s' ->
  lstSched s' = lstSched s /\ isLstOptml s' = isLstOptml s.
Proof.
  intros H. destruct s. unfold Step_UprBounds, CmputUprBounds_ in H. rnorm_in H.
  step_cases H; apply Go_inj in H; subst s'; split; reflexivity.
Qed.

(** X19.  The PERP filter reads the list schedule without a null check:
    with [filterByPerp] and [SCF_SLIL], a first-pass run whose heuristic
    scheduler is disabled and whose ant colony did not settle optimality
    never completes; it stops at an assertion of step 3 or at the
    filter's use of the null [lstSched]. *)
Theorem perp_filter_without_heuristic_aborts (e : Env) (s0 s : Rgn) :
  events s0 = [] ->
  HEUR_ENABLED e = false -> IsSecondPass e = false ->
  filterByPerp e = true -> spillCostFunc_ e = SCF_SLIL ->
  PreIncumbent e s0 = Go s ->
  isLstOptml s = false ->
  FindOptimalSchedule e s0 = Abort.
Proof.
  intros Hev Hh Hp Hf Hs Hpre Ho.
  assert (L : lstSched s = None).
  { unfold PreIncumbent in Hpre.
    apply andThen_Go in Hpre as (s2 & Hpre & Ha).
    apply andThen_Go in Hpre as (s1 & Hpre & Hx).
    pose proof (PreHeuristic_mem_clear e s0 s1 Hev Hpre) as (_ & L & _).
    unfold Step_Heuristic in Hx. rewrite Hh, Hp in Hx. cbn [orb] in Hx.
    apply Go_inj in Hx. subst s2.
    by rewrite (Step_AcoBefore_lstSched e s1 s Ha). }
  unfold FindOptimalSchedule, PreBounds, PreGate. rewrite Hpre. cbn [andThen].
  destruct (Step_Incumbent e s) as [s3| |] eqn:E3; cbn [andThen];
    [|by (unfold Step_Incumbent in E3; step_cases E3)|reflexivity].
  destruct (Step_Incumbent_frame e s s3 E3) as [L3 O3].
  destruct (Step_UprBounds e s3) as [s4| |] eqn:E4; cbn [andThen];
    [|by (unfold Step_UprBounds in E4; step_cases E4)|reflexivity].
  destruct (Step_UprBounds_frame e s3 s4 E4) as [L4 O4].
  unfold Step_PerpFilter. rewrite Hf, Hs, O4, O3, Ho, L4, L3, L.
  reflexivity.
Qed.

(** *** The PERP filter *)
Lemma sumPerp_from ps : forall acc,
  let res := fold_left (fun a (p : Z * Z) =>
                          let perp := p.1 - p.2 in
                          if 0 <? perp then a + perp else a) ps acc in
  acc <= res /\ (res = acc <-> Forall (fun p : Z * Z => p.1 <= p.2) ps).
Proof.
  induction ps as [|p ps IH]; intros acc; cbn.
  - split; [lia|]. split; [constructor|reflexivity].
  - cbv zeta in IH. destruct (Z.ltb_spec 0 (p.1 - p.2)).
    + destruct (IH (acc + (p.1 - p.2))) as [Hle Hiff]. split; [lia|].
      split; [intros E; lia|]. intros F. inversion F; subst. lia.
    + destruct (IH acc) as [Hle Hiff]. split; [lia|].
      rewrite Hiff. split.
      * intros F. constructor; [lia|exact F].
      * intros F. by inversion F.
Qed.

Lemma sumPerp_zero ps :
  sumPerp ps = 0 <-> Forall (fun p : Z * Z => p.1 <= p.2) ps.
Proof. apply (sumPerp_from ps 0). Qed.

Lemma Step_PerpFilter_marks e s s' :
  filterByPerp e = true -> spillCostFunc_ e = SCF_SLIL ->
  Forall (fun p : Z * Z => p.1 <= p.2) (PeakRegPressures e) ->
  Step_PerpFilter e s = Go s' -> isLstOptml s' = true.
Proof.
  intros Hf Hs Hp H. unfold Step_PerpFilter in H. rewrite Hf, Hs in H.
  cbn [andb is_SLIL] in H. rewrite andb_true_r in H.
  apply sumPerp_zero in Hp. rewrite Hp in H. cbn [Z.eqb] in H.
  destruct (isLstOptml s) eqn:Ho; cbn [negb] in H.
  - apply Go_inj in H. by subst s'.
  - destruct (lstSched s); [|discriminate]. apply Go_inj in H. by subst s'.
Qed.

Lemma keeps_to_bounds_check e :
  keeps not_enumerate
    (fun s => PreIncumbent e s >>> Step_Incumbent e >>> Step_UprBounds e).
Proof.
  unfold PreIncumbent, PreHeuristic.
  repeat apply keeps_bind.
  - apply keeps_Step_Entry.
  - apply keeps_Step_Setup; intros; exact I.
  - apply keeps_Step_LwrBounds.
  - apply keeps_Step_Heuristic; exact I.
  - apply keeps_Step_AcoBefore; intros; exact I.
  - apply keeps_Step_Incumbent.
  - apply keeps_Step_UprBounds; exact I.
Qed.

(** X20.  The PERP filter: with [filterByPerp] and [SCF_SLIL], when the
    peak pressure of every register type is within the physical register
    count, no run calls the enumerator, whatever the cost of the
    schedules found. *)
Theorem perp_filter_skips_search (e : Env) (s0 s : Rgn) (r : FUNC_RESULT) :
  events s0 = [] ->
  filterByPerp e = true -> spillCostFunc_ e = SCF_SLIL ->
  Forall (fun p : Z * Z => p.1 <= p.2) (PeakRegPressures e) ->
  FindOptimalSchedule e s0 = Return r s ->
  Forall not_enumerate (events s).
Proof.
  intros Hev Hf Hs Hp H.
  assert (P : post (fun _ => True) (fun _ s' => Forall not_enumerate (events s'))
                   (FindOptimalSchedule e s0)).
  { unfold FindOptimalSchedule, PreBounds, PreGate.
    eapply post_bind with (Q := fun s' => Forall not_enumerate (events s')).
    2: { intros s' Hs'. eapply post_impl;
           [apply (keeps_Step_Finish not_enumerate e); [|exact Hs']|auto|auto].
         intros ev Hfree. destruct ev; cbn in *; tauto. }
    eapply post_bind with (Q := fun s' => Forall not_enumerate (events s')).
    2: { intros s' Hs'. apply (keeps_Step_Bounds not_enumerate e); auto; intros; exact I. }
    eapply post_bind with (Q := fun s' => Forall not_enumerate (events s')).
    2: { intros s' Hs'. apply (keeps_Step_Verify not_enumerate e); auto; intros; exact I. }
    eapply post_bind with (Q := fun s' => Forall not_enumerate (events s')).
    2: { intros s' Hs'. apply (keeps_Step_AcoAfter not_enumerate e); auto; intros; exact I. }
    eapply post_bind with (Q := optimal_unsearched).
    2: { intros s' [Ho' Hs']. unfold Step_Enumerate.
         destruct (isBbEnabled e); [|exact Hs'].
         rewrite Ho'. cbn [negb andThen].
         destruct (negb _); [|exact Hs'].
         apply (keeps_RegAlloc not_enumerate e); [exact I|exact Hs']. }
    eapply post_bind with (Q := optimal_unsearched).
    2: { intros s' [Ho' Hs']. unfold Step_Gate.
         destruct (negb _); cbn [post].
         - apply keeps_delete_lstSchdulr; [exact I|exact Hs'].
         - split; [exact Ho'|exact Hs']. }
    eapply post_bind with (Q := fun s' => Forall not_enumerate (events s')).
    2: { intros s' Hs'.
         pose proof (keeps_Step_PerpFilter not_enumerate e s' Hs') as K.
         destruct (Step_PerpFilter e s') as [s2|r2 s2|] eqn:E2; cbn [post] in *;
           [|exact K|exact I].
         split; [|exact K]. by eapply Step_PerpFilter_marks. }
    apply (keeps_to_bounds_check e s0). rewrite Hev. constructor. }
  rewrite H in P. exact P.
Qed.

Section Capped.

Context (e : Env) (c : Z) (R : FUNC_RESULT -> Rgn -> Prop).

Lemma capped_RegAlloc q s :
  cost_capped c s -> post (cost_capped c) R (RegAlloc_ e q s).
Proof.
  intros [H1 H2]. unfold RegAlloc_. cbv zeta.
  goal_cases; cbn [post]; try exact I; split; assumption.
Qed.

Lemma capped_Step_Enumerate s :
  (forall s', (Enumerate_ e s').1.2 <= bestCost_ s') ->
  cost_capped c s ->
  post (cost_capped c) R (Step_Enumerate e s).
Proof.
  intros He [H1 H2]. unfold Step_Enumerate.
  destruct (isBbEnabled e); [|by split].
  eapply post_bind with (Q := cost_capped c).
  2: { intros s' Hs'. destruct (negb _); [|exact Hs']. by apply capped_RegAlloc. }
  destruct (negb (isLstOptml s)); [|by split].
  unfold Optimize_.
  match goal with
  | |- context [Enumerate_ e ?x] =>
      pose proof (He x) as Hx; destruct (Enumerate_ e x) as [[r2 c2] l2]
  end.
  cbn [fst snd] in Hx. destruct s. unfold cost_capped in *.
  rnorm_in Hx. rnorm_in H1. rnorm_in H2. subst. rnorm.
  goal_cases; cbn [post]; try exact I; rnorm; split; (lia || reflexivity).
Qed.

Lemma capped_Step_AcoAfter s :
  cost_capped c s -> post (cost_capped c) R (Step_AcoAfter e s).
Proof.
  intros [H1 H2]. destruct s. unfold cost_capped in *.
  rnorm_in H1. rnorm_in H2. subst.
  unfold Step_AcoAfter. rnorm.
  repeat match goal with
         | |- context [if ?b then _ else _] =>
             lazymatch b with
             | (?x <? ?y) => destruct (Z.ltb_spec0 x y)
             | _ => destruct b
             end
         end; cbn [post]; rnorm; split; (lia || reflexivity).
Qed.

Lemma capped_Step_Verify s :
  cost_capped c s -> post (cost_capped c) R (Step_Verify e s).
Proof.
  intros [H1 H2]. unfold Step_Verify.
  goal_cases; cbn [post]; try exact I; split; assumption.
Qed.

Lemma capped_Step_Bounds s :
  cost_capped c s -> post (cost_capped c) R (Step_Bounds e s).
Proof. intros [H1 H2]. unfold Step_Bounds. cbn [post]. split; assumption. Qed.

End Capped.

Lemma capped_Step_Finish e c s :
  cost_capped c s ->
  post (fun _ => True)
       (fun _ sF => bestCost sF <= c /\ bestCost sF = bestCost_ sF)
       (Step_Finish e s).
Proof.
  intros [H1 H2].
  destruct (Step_Finish_spec e s)
    as (sF & l & E & _ & _ & _ & _ & _ & Hc & Hb & _).
  rewrite E. cbn [post]. split; [|exact Hb]. rewrite Hb.
  destruct Hc as [[Hc _]|[Hc _]]; rewrite Hc; lia.
Qed.

Lemma capped_at_gate s :
  cost_capped (bestCost_ s)
    (set_InitialScheduleLength (bestSchedLngth_ s)
       (set_InitialScheduleCost (bestCost_ s)
          (set_InitialSchedule (bestSched_ s) s))).
Proof. destruct s. split; [rnorm; lia|reflexivity]. Qed.

(** X21.  The cost reported is never above the incumbent's: if the
    enumerator never raises the best cost it is given, then a run that
    passes the gate with an incumbent of cost [c] and returns reports a
    [bestCost] of at most [c]. *)
Theorem reported_cost_at_most_incumbent (e : Env) (s0 s sF : Rgn)
    (r : FUNC_RESULT) :
  (forall s', (Enumerate_ e s').1.2 <= bestCost_ s') ->
  PreGate e s0 = Go s ->
  EnableEnum_ e s = true ->
  FindOptimalSchedule e s0 = Return r sF ->
  bestCost sF <= bestCost_ s /\ bestCost sF = bestCost_ sF.
Proof.
  intros He Hpre Hg H.
  assert (P : post (fun _ => True)
                   (fun _ sF => bestCost sF <= bestCost_ s /\
                                bestCost sF = bestCost_ sF)
                   (FindOptimalSchedule e s0)).
  { unfold FindOptimalSchedule, PreBounds. rewrite Hpre.
    cbn [andThen]. unfold Step_Gate. rewrite Hg. cbn [negb andThen].
    eapply post_bind; [|intros; by apply capped_Step_Finish].
    eapply post_bind; [|intros; by apply capped_Step_Bounds].
    eapply post_bind; [|intros; by apply capped_Step_Verify].
    eapply post_bind; [|intros; by apply capped_Step_AcoAfter].
    apply capped_Step_Enumerate; [exact He|apply capped_at_gate]. }
  rewrite H in P. exact P.
Qed.

Lemma keeps_outs_bind f g :
  keeps_outs f -> keeps_outs g -> keeps_outs (fun s => f s >>> g).
Proof.
  intros Hf Hg s0 s Hs. eapply post_bind; [by apply Hf|].
  intros s' Hs'. by apply Hg.
Qed.

Ltac outs_goal H :=
  goal_cases; cbn [post]; first [exact I | rnorm; exact H].

Lemma outs_Step_Entry e : keeps_outs (Step_Entry e).
Proof.
  intros s0 s H. destruct s. unfold outs_kept in *. rnorm_in H.
  unfold Step_Entry. rnorm. outs_goal H.
Qed.

Lemma outs_ApplyGraphTrans e gts : forall i, keeps_outs (ApplyGraphTrans e i gts).
Proof.
  induction gts as [|[a u] gts IH]; intros i s0 s H; [exact H|].
  cbn [ApplyGraphTrans].
  assert (H1 : outs_kept s0 (log (EvApplyTrans i) (set_rslt a s))) by exact H.
  destruct (negb (is_success a)); [exact H1|].
  assert (H2 : outs_kept s0 (log (EvUpdateSetupForSchdulng (needTransitiveClosure e))
                               (set_rslt u (log (EvApplyTrans i) (set_rslt a s)))))
    by exact H.
  destruct (negb (is_success u)); [exact H2|].
  apply IH, H2.
Qed.

Lemma outs_Step_Setup e : keeps_outs (Step_Setup e).
Proof.
  intros s0 s H. unfold Step_Setup.
  destruct (negb _); [exact H|].
  eapply post_bind; [apply outs_ApplyGraphTrans; exact H|].
  intros s' Hs'. exact Hs'.
Qed.

Lemma outs_Step_LwrBounds e : keeps_outs (Step_LwrBounds e).
Proof.
  intros s0 s H. unfold Step_LwrBounds, CmputLwrBounds_.
  goal_cases; cbn [post]; first [exact I|exact H].
Qed.

Lemma outs_Step_Heuristic e : keeps_outs (Step_Heuristic e).
Proof.
  intros s0 s H. destruct s. unfold outs_kept in *. rnorm_in H.
  unfold Step_Heuristic. rnorm. outs_goal H.
Qed.

Lemma outs_Step_AcoBefore e : keeps_outs (Step_AcoBefore e).
Proof.
  intros s0 s H. destruct s. unfold outs_kept in *. rnorm_in H.
  unfold Step_AcoBefore, delete_sched, delete_lstSchdulr.
  destruct (_ && (InstCnt e <? 20)); rnorm; goal_cases; rnorm; outs_goal H.
Qed.

Lemma outs_Step_Incumbent e : keeps_outs (Step_Incumbent e).
Proof.
  intros s0 s H. destruct s. unfold outs_kept in *. rnorm_in H.
  unfold Step_Incumbent. rnorm. outs_goal H.
Qed.

Lemma outs_Step_UprBounds e : keeps_outs (Step_UprBounds e).
Proof.
  intros s0 s H. destruct s. unfold outs_kept in *. rnorm_in H.
  unfold Step_UprBounds, CmputUprBounds_. rnorm. outs_goal H.
Qed.

Lemma outs_Step_PerpFilter e : keeps_outs (Step_PerpFilter e).
Proof.
  intros s0 s H. destruct s. unfold outs_kept in *. rnorm_in H.
  unfold Step_PerpFilter. rnorm. outs_goal H.
Qed.

Lemma outs_Step_Gate e : keeps_outs (Step_Gate e).
Proof.
  intros s0 s H. destruct s. unfold outs_kept in *. rnorm_in H.
  unfold Step_Gate, delete_lstSchdulr. rnorm. outs_goal H.
Qed.

Lemma outs_RegAlloc e q : keeps_outs (RegAlloc_ e q).
Proof.
  intros s0 s H. destruct s. unfold outs_kept in *. rnorm_in H.
  unfold RegAlloc_. rnorm. outs_goal H.
Qed.

Lemma outs_Step_Enumerate e : keeps_outs (Step_Enumerate e).
Proof.
  intros s0 s H. unfold Step_Enumerate.
  destruct (isBbEnabled e); [|exact H].
  eapply post_bind with (Q := outs_kept s0).
  2: { intros s' Hs'. destruct (negb _); [|exact Hs']. by apply outs_RegAlloc. }
  destruct (negb (isLstOptml s)); [|exact H].
  unfold Optimize_. destruct (Enumerate_ e _) as [[r c] l].
  destruct s. unfold outs_kept in *. rnorm_in H. rnorm. outs_goal H.
Qed.

Lemma outs_Step_AcoAfter e : keeps_outs (Step_AcoAfter e).
Proof.
  intros s0 s H. destruct s. unfold outs_kept in *. rnorm_in H.
  unfold Step_AcoAfter. rnorm. outs_goal H.
Qed.

Lemma outs_Step_Verify e : keeps_outs (Step_Verify e).
Proof.
  intros s0 s H. destruct s. unfold outs_kept in *. rnorm_in H.
  unfold Step_Verify. rnorm. outs_goal H.
Qed.

Lemma outs_PreBounds e : keeps_outs (PreBounds e).
Proof.
  unfold PreBounds, PreGate, PreIncumbent, PreHeuristic.
  repeat apply keeps_outs_bind.
  - apply outs_Step_Entry.
  - apply outs_Step_Setup.
  - apply outs_Step_LwrBounds.
  - apply outs_Step_Heuristic.
  - apply outs_Step_AcoBefore.
  - apply outs_Step_Incumbent.
  - apply outs_Step_UprBounds.
  - apply outs_Step_PerpFilter.
  - apply outs_Step_Gate.
  - apply outs_Step_Enumerate.
  - apply outs_Step_AcoAfter.
  - apply outs_Step_Verify.
Qed.

Lemma Step_Bounds_frame e s :
  exists s2,
    Step_Bounds e s = Go s2 /\
    hurstcCost_ s2 = hurstcCost_ s /\
    heuristicScheduleLength s2 = heuristicScheduleLength s.
Proof.
  unfold Step_Bounds. cbv zeta. eexists. split; [reflexivity|].
  destruct s. split; reflexivity.
Qed.

Lemma finish_outputs e s1 r s :
  Step_Bounds e s1 >>> Step_Finish e = Return r s ->
  bestCost s = bestCost_ s /\
  bestSchedLngth s = bestSchedLngth_ s /\
  hurstcCost s = hurstcCost_ s1 /\
  hurstcSchedLngth s = heuristicScheduleLength s1.
Proof.
  intros H.
  destruct (Step_Bounds_frame e s1) as (s2 & E1 & F1 & F2).
  rewrite E1 in H. cbn [andThen] in H. clear E1.
  destruct (Step_Finish_spec e s2)
    as (sF & l & E2 & _ & _ & _ & _ & _ & _ & B1 & B2 & B3 & B4).
  rewrite E2 in H. injection H as _ <-.
  rewrite <- F1, <- F2. split_and!; [exact B1|exact B2|exact B3|exact B4].
Qed.

Lemma early_return_facts e s0 r s :
  events s0 = [] ->
  PreBounds e s0 = Return r s ->
  persisted (events s) = [] /\ is_success r = false /\ outs_kept s0 s.
Proof.
  intros Hev E.
  pose proof (keeps_PreBounds not_bounds e
                ltac:(intros ev Hn; destruct ev; cbn in *; tauto) s0) as P.
  rewrite Hev, E in P. specialize (P (Forall_nil_2 _)).
  pose proof (outs_PreBounds e s0 s0 ltac:(by repeat split)) as O.
  rewrite E in O.
  split_and!.
  - apply (omap_none persisted_bounds not_bounds); [by intros []|exact P].
  - by apply (fails_only_PreBounds e) in E.
  - exact O.
Qed.

(** X22.  The cost and length outputs are assigned by the last step
    only.  A run that returns before the final bounds reports a failure
    and leaves [bestCost], [bestSchedLngth], [hurstcCost] and
    [hurstcSchedLngth] as the caller passed them; a run that gets to the
    end returns them as the region's [bestCost_], [bestSchedLngth_],
    [hurstcCost_] and the length of the list schedule. *)
Theorem outputs_assigned_at_the_end (e : Env) (s0 s : Rgn) (r : FUNC_RESULT) :
  events s0 = [] ->
  FindOptimalSchedule e s0 = Return r s ->
  (persisted (events s) = [] /\ is_success r = false /\ outs_kept s0 s) \/
  (exists s1,
     PreBounds e s0 = Go s1 /\
     bestCost s = bestCost_ s /\
     bestSchedLngth s = bestSchedLngth_ s /\
     hurstcCost s = hurstcCost_ s1 /\
     hurstcSchedLngth s = heuristicScheduleLength s1).
Proof.
  unfold FindOptimalSchedule. intros Hev H.
  destruct (PreBounds e s0) as [s1|r1 s1|] eqn:E.
  - right. exists s1. split; [reflexivity|].
    rewrite andThen_Go_eq in H. exact (finish_outputs e s1 r s H).
  - left. rewrite !andThen_Return in H. injection H as <- <-.
    exact (early_return_facts e s0 r1 s1 Hev E).
  - rewrite !andThen_Abort in H. discriminate H.
Qed.

(** [no_scheduler_configured] on a sample input. *)
Lemma no_scheduler_configured_witness :
  exists s,
    FindOptimalSchedule envNone rgn0 = Return RES_ERROR s /\
    events s = [] /\ bestSched s = None.
Proof.
  destruct (no_scheduler_configured envNone rgn0 eq_refl eq_refl)
    as (s & H1 & H2 & H3 & _).
  exists s. split; [exact H1|]. split; [exact H2|exact H3].
Defined.

(** [setup_failure_returns] on a sample input. *)
Lemma setup_failure_returns_witness :
  exists s,
    FindOptimalSchedule envBadTrans rgn0 = Return RES_ERROR s /\
    events s =
      [EvSetupForSchdulng true; EvApplyTrans 0;
       EvUpdateSetupForSchdulng true; EvApplyTrans 1].
Proof.
  apply (setup_failure_returns envBadTrans rgn0 3 (EvApplyTrans 1, RES_ERROR)).
  - reflexivity.
  - vm_compute. reflexivity.
Defined.

(** [disabled_enumerator_never_searches] on a sample input. *)
Lemma disabled_enumerator_never_searches_witness :
  Forall (fun ev => ~ search_event ev)
         (events (returned (FindOptimalSchedule envNoSearch rgn0))).
Proof.
  apply (disabled_enumerator_never_searches envNoSearch rgn0 _
           (result_of (FindOptimalSchedule envNoSearch rgn0))).
  - reflexivity.
  - reflexivity.
  - vm_compute. reflexivity.
Defined.

(** [success_has_closed_bounds] on a sample input. *)
Lemma success_has_closed_bounds_witness :
  (persisted (events (returned (FindOptimalSchedule envAll rgn0))) = [] /\
   RES_SUCCESS <> RES_SUCCESS) \/
  (exists lwr upr,
     persisted (events (returned (FindOptimalSchedule envAll rgn0))) =
       [(lwr, upr)] /\
     (RES_SUCCESS = RES_SUCCESS -> lwr = upr)).
Proof.
  apply (success_has_closed_bounds envAll rgn0).
  - reflexivity.
  - vm_compute. reflexivity.
Defined.

(** [deletes_are_safe] on a sample input. *)
Lemma deletes_are_safe_witness :
  NoDup (deleted (events (returned (FindOptimalSchedule envAll rgn0)))) /\
  forall o,
    bestSched (returned (FindOptimalSchedule envAll rgn0)) = Some o ->
    o ∉ deleted (events (returned (FindOptimalSchedule envAll rgn0))).
Proof.
  apply (deletes_are_safe envAll rgn0 _
           (result_of (FindOptimalSchedule envAll rgn0))).
  - reflexivity.
  - vm_compute. reflexivity.
Defined.

(** [complete_run_frees_losers] on a sample input. *)
Lemma complete_run_frees_losers_witness :
  exists r sF,
    FindOptimalSchedule envAll rgn0 = Return r sF /\
    forall o, o ∈ allocated (reached (PreBounds envAll rgn0)) ->
      bestSched sF = Some o \/ o ∈ deleted (events sF).
Proof.
  apply (complete_run_frees_losers envAll rgn0).
  - reflexivity.
  - vm_compute. reflexivity.
Defined.

(** [small_region_without_heuristic_aborts] on a sample input. *)
Lemma small_region_without_heuristic_aborts_witness :
  FindOptimalSchedule envSmall rgn0 = Abort.
Proof.
  apply (small_region_without_heuristic_aborts envSmall rgn0
           (reached (PreHeuristic envSmall rgn0))).
  - reflexivity.
  - reflexivity.
  - reflexivity.
  - vm_compute. reflexivity.
  - vm_compute. reflexivity.
Defined.

(** [perp_filter_without_heuristic_aborts] on a sample input. *)
Lemma perp_filter_without_heuristic_aborts_witness :
  FindOptimalSchedule envAcoPerp rgn0 = Abort.
Proof.
  apply (perp_filter_without_heuristic_aborts envAcoPerp rgn0
           (reached (PreIncumbent envAcoPerp rgn0))).
  - reflexivity.
  - reflexivity.
  - reflexivity.
  - reflexivity.
  - reflexivity.
  - vm_compute. reflexivity.
  - vm_compute. reflexivity.
Defined.

(** [perp_filter_skips_search] on a sample input. *)
Lemma perp_filter_skips_search_witness :
  Forall not_enumerate (events (returned (FindOptimalSchedule envPerp rgn0))).
Proof.
  apply (perp_filter_skips_search envPerp rgn0 _
           (result_of (FindOptimalSchedule envPerp rgn0))).
  - reflexivity.
  - reflexivity.
  - reflexivity.
  - repeat constructor; vm_compute; discriminate.
  - vm_compute. reflexivity.
Defined.

(** [reported_cost_at_most_incumbent] on a sample input. *)
Lemma reported_cost_at_most_incumbent_witness :
  bestCost (returned (FindOptimalSchedule envAll rgn0)) <=
    bestCost_ (reached (PreGate envAll rgn0)) /\
  bestCost (returned (FindOptimalSchedule envAll rgn0)) =
    bestCost_ (returned (FindOptimalSchedule envAll rgn0)).
Proof.
  apply (reported_cost_at_most_incumbent envAll rgn0 _ _
           (result_of (FindOptimalSchedule envAll rgn0))).
  - intros s'. cbn. lia.
  - vm_compute. reflexivity.
  - reflexivity.
  - vm_compute. reflexivity.
Defined.

(** [outputs_assigned_at_the_end] on a sample input. *)
Lemma outputs_assigned_at_the_end_witness :
  (persisted (events (returned (FindOptimalSchedule envAll rgn0))) = [] /\
   is_success (result_of (FindOptimalSchedule envAll rgn0)) = false /\
   outs_kept rgn0 (returned (FindOptimalSchedule envAll rgn0))) \/
  (exists s1,
     PreBounds envAll rgn0 = Go s1 /\
     bestCost (returned (FindOptimalSchedule envAll rgn0)) =
       bestCost_ (returned (FindOptimalSchedule envAll rgn0)) /\
     bestSchedLngth (returned (FindOptimalSchedule envAll rgn0)) =
       bestSchedLngth_ (returned (FindOptimalSchedule envAll rgn0)) /\
     hurstcCost (returned (FindOptimalSchedule envAll rgn0)) = hurstcCost_ s1 /\
     hurstcSchedLngth (returned (FindOptimalSchedule envAll rgn0)) =
       heuristicScheduleLength s1).
Proof.
  apply (outputs_assigned_at_the_end envAll rgn0).
  - reflexivity.
  - vm_compute. reflexivity.
Defined.
